(** * mombai: the graph layer ([_graph.py]), the helpers on containers
      ([_containers.py]: deep equality, ordered sets, argument lists) and
      [Dictattr] ([_dict.py]) as a shallow embedding.

    Python objects are modelled as values.  A graph is the pair of insertion
    ordered dictionaries that [networkx.DiGraph] keeps ([_node] and the edge
    dictionary); methods that mutate [self] are functions returning the new
    graph, and methods that can raise return an [outcome] together with the
    state of [self] at the moment of the raise. *)

From Stdlib Require Import ZArith List String Ascii Bool Lia Arith.
From Stdlib Require Import DecimalString DecimalZ Decimal Relations.
Import ListNotations.
Local Open Scope string_scope.
Local Open Scope Z_scope.

Set Implicit Arguments.
Set Warnings "-register-all".

(** ** Python strings: the helpers of [_graph.py] lines 26-30 *)

Module PyStr.

(** [str.startswith] *)
Fixpoint startswith (s p : string) : bool :=
  match p, s with
  | EmptyString, _ => true
  | String a p', String b s' => Ascii.eqb a b && startswith s' p'
  | String _ _, EmptyString => false
  end.

(** [s[1:]] *)
Definition tail (s : string) : string :=
  match s with
  | EmptyString => EmptyString
  | String _ s' => s'
  end.

Definition is_digit (a : ascii) : bool :=
  (48 <=? nat_of_ascii a)%nat && (nat_of_ascii a <=? 57)%nat.

Fixpoint all_digits (s : string) : bool :=
  match s with
  | EmptyString => true
  | String a s' => is_digit a && all_digits s'
  end.

(** [str.isdigit]: a non-empty run of decimal digits.  Python counts the
    digits of every script as digits, and superscripts too; the strings of
    this model are read character by character as ASCII, so that [isdigit],
    [_is_int] and [py_int] are Python's own on the strings that are
    [readable] below. *)
Definition isdigit (s : string) : bool :=
  match s with
  | EmptyString => false
  | _ => all_digits s
  end.

(** [_is_ref = lambda s: isinstance(s, str) and s.startswith('@')] *)
Definition _is_ref (s : string) : bool := startswith s "@".

(** [_is_int = lambda s: (s.startswith('-') and s[1:].isdigit()) or s.isdigit()] *)
Definition _is_int (s : string) : bool :=
  (startswith s "-" && isdigit (tail s)) || isdigit s.

(** [int(s)].  Both call sites guard it with [_is_int]; on such strings the
    value is the signed decimal reading ([_is_int_parses] below shows that
    the default is never taken behind the guard). *)
Definition py_int (s : string) : Z :=
  match NilZero.int_of_string s with
  | Some d => Z.of_int d
  | None => 0
  end.

(** ['%s' % z] for an integer [z]. *)
Definition str_of_Z (z : Z) : string := NilZero.string_of_int (Z.to_int z).

Definition is_ascii (a : ascii) : bool := (nat_of_ascii a <? 128)%nat.

Fixpoint all_ascii (s : string) : bool :=
  match s with
  | EmptyString => true
  | String a s' => is_ascii a && all_ascii s'
  end.

(** The strings that Python reads as this model does: ASCII characters only
    (a digit of another script passes [str.isdigit], and [int] raises
    [ValueError] on some of them, a superscript for one), and at most 4300
    of them ([int] of a string and [str] of an integer raise [ValueError]
    beyond 4300 digits in CPython 3.11 and later). *)
Definition readable (s : string) : bool :=
  all_ascii s && (String.length s <=? 4300)%nat.

End PyStr.

(** ** Python values *)

Module Py.

(** Hashable scalars used as node identities and as graph keys: an explicit
    integer or string id (spec, section 3). *)
Inductive key : Type :=
| KInt (z : Z)
| KStr (s : string).

Definition key_eqb (a b : key) : bool :=
  match a, b with
  | KInt x, KInt y => Z.eqb x y
  | KStr x, KStr y => String.eqb x y
  | _, _ => false
  end.

(** A key as the generic graph sees it: [_is_edge(key)] holds of 2-tuples. *)
Inductive gkey : Type :=
| NodeKey (k : key)
| EdgeKey (u v : key).

(** [Cell] is a record of a node identity, a function and its arguments
    (spec, section 3: [{node, function, args, kwargs}]). *)
Record cell_of (V : Type) : Type := Cell {
  node : key;
  function : V;
  args : list V;
  kwargs : list (string * V)
}.

(** The values that occur as payloads and as function/args/kwargs of a cell.
    A callable is an opaque handle (a name looked up by the evaluator). *)
Inductive pyval : Type :=
| VNone
| VInt (z : Z)
| VStr (s : string)
| VFun (f : string)
| VList (l : list pyval)
| VTuple (l : list pyval)
| VDict (d : list (string * pyval))
| VCell (c : cell_of pyval).

Definition cell := cell_of pyval.

(** [is_array] of [_containers.py], on the values modelled here. *)
Definition is_array (v : pyval) : bool :=
  match v with
  | VList _ | VTuple _ => true
  | _ => false
  end.

Definition key_val (k : key) : pyval :=
  match k with
  | KInt z => VInt z
  | KStr s => VStr s
  end.

(** Exceptions raised by the modelled code. *)
Inductive exn : Type :=
| KeyError (k : gkey)
| AttributeError (attr : string)
| NetworkXUnfeasible
| RecursionError
| TypeError (msg : string)
| CallError (msg : string).

Inductive outcome (A : Type) : Type :=
| Ok (a : A)
| Raise (e : exn).
Arguments Raise {A} e.

Definition obind {A B} (o : outcome A) (f : A -> outcome B) : outcome B :=
  match o with
  | Ok a => f a
  | Raise e => Raise e
  end.

(** [[f(x) for x in l]] where [f] may raise. *)
Definition omap {A B} (f : A -> outcome B) : list A -> outcome (list B) :=
  fix go (l : list A) : outcome (list B) :=
    match l with
    | [] => Ok []
    | x :: l' => obind (f x) (fun y => obind (go l') (fun ys => Ok (y :: ys)))
    end.

(** [{k: f(v) for k, v in d.items()}] where [f] may raise. *)
Definition omap_items {A B} (f : A -> outcome B)
  : list (string * A) -> outcome (list (string * B)) :=
  fix go (l : list (string * A)) : outcome (list (string * B)) :=
    match l with
    | [] => Ok []
    | (k, x) :: l' =>
        obind (f x) (fun y => obind (go l') (fun ys => Ok ((k, y) :: ys)))
    end.

(** [{k: f(v) for k, v in d.items()}] *)
Definition map_items {A B} (f : A -> B) : list (string * A) -> list (string * B) :=
  fix go (l : list (string * A)) : list (string * B) :=
    match l with
    | [] => []
    | (k, x) :: l' => (k, f x) :: go l'
    end.

(** *** Insertion-ordered dictionaries *)

Section Dict.
Variables K V : Type.
Variable eqb : K -> K -> bool.

Fixpoint dget (d : list (K * V)) (k : K) : option V :=
match d with
| [] => None
| (k', v) :: d' => if eqb k' k then Some v else dget d' k
end.

(** [d[k] = v]: an existing key keeps its position. *)
Fixpoint dset (d : list (K * V)) (k : K) (v : V) : list (K * V) :=
match d with
| [] => [(k, v)]
| (k', v') :: d' =>
if eqb k' k then (k', v) :: d' else (k', v') :: dset d' k v
end.

Definition dmem (d : list (K * V)) (k : K) : bool :=
match dget d k with
| Some _ => true
| None => false
end.

(** [d.update(other)] *)
Definition dupdate (d other : list (K * V)) : list (K * V) :=
fold_left (fun acc kv => dset acc (fst kv) (snd kv)) other d.
End Dict.

Definition attrs := list (string * pyval).

End Py.

(** ** The part of [networkx.DiGraph] that the graph classes use *)

Module NX.
Import Py.

Definition edge_eqb (a b : key * key) : bool :=
  key_eqb (fst a) (fst b) && key_eqb (snd a) (snd b).

(** [_node] maps a node to its attribute dictionary; [_edges] stands for the
    adjacency dictionaries, one entry per directed edge. *)
Record DiGraph : Type := mkGraph {
  _node : list (key * attrs);
  _edges : list ((key * key) * attrs)
}.

Definition empty : DiGraph := mkGraph [] [].

Definition has_node (g : DiGraph) (k : key) : bool := dmem key_eqb (_node g) k.
Definition has_edge (g : DiGraph) (u v : key) : bool :=
  dmem edge_eqb (_edges g) (u, v).

(** [G.add_node(n, **attr)]: creates the node with an empty attribute
    dictionary when it is new, then updates the dictionary with [attr]. *)
Definition add_node (g : DiGraph) (n : key) (attr : attrs) : DiGraph :=
  let old := match dget key_eqb (_node g) n with
             | Some d => d
             | None => []
             end in
  mkGraph (dset key_eqb (_node g) n (dupdate String.eqb old attr)) (_edges g).

(** [G.add_edge(u, v, **attr)]: both end points become nodes when they are
    not, then the edge's attribute dictionary is updated with [attr]. *)
Definition add_edge (g : DiGraph) (u v : key) (attr : attrs) : DiGraph :=
  let g1 := if has_node g u then g else add_node g u [] in
  let g2 := if has_node g1 v then g1 else add_node g1 v [] in
  let old := match dget edge_eqb (_edges g2) (u, v) with
             | Some d => d
             | None => []
             end in
  mkGraph (_node g2) (dset edge_eqb (_edges g2) (u, v) (dupdate String.eqb old attr)).

(** [DAG] and [XCL] pass the attributes as keyword arguments,
    [add_node(key, **d)] and [add_edge(u, v, **d)]: an attribute named like a
    parameter of the method makes the call raise [TypeError] (multiple
    values for the argument) before anything is written. *)
Definition node_parameters : list string := ["self"; "node_for_adding"].
Definition edge_parameters : list string := ["self"; "u_of_edge"; "v_of_edge"].

Definition clashes (parameters : list string) (attr : attrs) : bool :=
  existsb (fun kv => existsb (String.eqb (fst kv)) parameters) attr.

(** [G.nodes[n]] and [G.edges[u, v]] *)
Definition node_attrs (g : DiGraph) (n : key) : outcome attrs :=
  match dget key_eqb (_node g) n with
  | Some d => Ok d
  | None => Raise (KeyError (NodeKey n))
  end.

Definition edge_attrs (g : DiGraph) (u v : key) : outcome attrs :=
  match dget edge_eqb (_edges g) (u, v) with
  | Some d => Ok d
  | None => Raise (KeyError (EdgeKey u v))
  end.

(** *** [nx.topological_sort]

    Kahn's algorithm: a node is yielded once every edge into it comes from a
    node yielded before; when nodes remain and none is ready the generator
    raises [NetworkXUnfeasible].  The generator is lazy, so the nodes yielded
    before the raise have been seen by the consumer: the result is the list
    of yielded nodes and whether the generator ends by raising.  Which of
    several ready nodes comes first is a detail of the library's versions;
    here it is the first in node order. *)

Definition ready (es : list (key * key)) (remaining : list key) (v : key) : bool :=
  negb (existsb (fun e => key_eqb (snd e) v && existsb (key_eqb (fst e)) remaining) es).

Fixpoint remove_key (k : key) (l : list key) : list key :=
  match l with
  | [] => []
  | x :: l' => if key_eqb x k then l' else x :: remove_key k l'
  end.

Fixpoint topo_loop (fuel : nat) (es : list (key * key)) (remaining : list key)
  : list key * bool :=
  match fuel with
  | O => ([], match remaining with [] => false | _ => true end)
  | S fuel' =>
      match find (ready es remaining) remaining with
      | None => ([], match remaining with [] => false | _ => true end)
      | Some v =>
          let (l, bad) := topo_loop fuel' es (remove_key v remaining) in
          (v :: l, bad)
      end
  end.

Definition topological_sort (g : DiGraph) : list key * bool :=
  let ns := map fst (_node g) in
  topo_loop (List.length ns) (map fst (_edges g)) ns.

End NX.

(** ** Cells ([mombai._cell], which is not among the sources) *)

Module CellModel.
Import Py.

(** Modelled from the spec: [_per_cell(value, f)] of [mombai._cell], which
    [_graph.py] line 32 specialises into [_to_id].  It applies [f] to a value
    that is a cell, maps itself over the members of an array, and leaves any
    other value as it is: the docstring of [XCL.to_id] requires
    [h['a'] == g['a']] for [Cell('a', 1)] and [h['c']() == '@a@b'] for
    [Cell('c', add, a, b)], so neither a plain value nor a callable is
    rewritten, and [f] reads [v.node], which only a cell has. *)
Fixpoint _per_cell (f : cell -> pyval) (v : pyval) : pyval :=
  match v with
  | VCell c => f c
  | VList l => VList (map (_per_cell f) l)
  | VTuple l => VTuple (map (_per_cell f) l)
  | _ => v
  end.

Section Evaluate.
(** The callables: [call f args kwargs] is the call of [f] on the
positional arguments [args] and the keyword arguments [kwargs]. *)
Variable call : string -> list pyval -> list (string * pyval) -> outcome pyval.

(** Modelled from the spec: [Cell.__call__] of [mombai._cell] (spec 4.2,
Cell.evaluate): every argument that is itself a cell is evaluated,
then the function is invoked on the resolved arguments; a failure of
the function propagates.  A cell whose function is not callable holds
that value ([Cell('a', 1)] holds 1).  Reference strings are not
resolved by a cell on its own ([h['c']() == '@a@b'] in the docstring of
[XCL.to_id]). *)
Fixpoint resolve (v : pyval) : outcome pyval :=
match v with
| VCell (Cell _ f a k) =>
obind (resolve f) (fun f' =>
obind (omap resolve a) (fun a' =>
obind (omap_items resolve k) (fun k' =>
match f' with
| VFun name => call name a' k'
| _ => Ok f'
end)))
| _ => Ok v
end.

End Evaluate.

(** Modelled from the spec: [Cell.metadata] of [mombai._cell] (spec 4.2): a
    mapping of the serializable facts of a cell: its id, its function
    reference and its arguments. *)
Definition metadata (c : cell) : pyval :=
  VDict [("node", key_val (node c)); ("function", function c);
         ("args", VList (args c)); ("kwargs", VDict (kwargs c))].

End CellModel.

(** ** [class DAG(nx.DiGraph)], [_graph.py] lines 36-98 *)

Module DAG.
Import Py NX.

Definition _key (k : gkey) : gkey := k.

(** Modelled from the spec: a cell is a mapping of its fields (the guard
    [isinstance(value, dict) and not isinstance(value, Cell)] of
    [XCL._as_dict] tells that [Cell] derives from [dict]). *)
Definition cell_items (c : cell) : attrs :=
  [("node", key_val (node c)); ("function", function c);
   ("args", VTuple (args c)); ("kwargs", VDict (kwargs c))].

Definition _as_dict (value : pyval) : attrs :=
  match value with
  | VDict d => d
  | VCell c => cell_items c
  | _ => [("value", value)]
  end.

Definition _as_value (d : attrs) : pyval :=
  match d with
  | [(k, v)] => if String.eqb k "value" then v else VDict d
  | _ => VDict d
  end.

Definition __getitem__ (g : DiGraph) (key : gkey) : outcome pyval :=
  match _key key with
  | EdgeKey u v => obind (edge_attrs g u v) (fun d => Ok (_as_value d))
  | NodeKey k => obind (node_attrs g k) (fun d => Ok (_as_value d))
  end.

Definition __setitem__ (g : DiGraph) (key : gkey) (value : pyval)
  : outcome DiGraph :=
  let d := _as_dict value in
  match _key key with
  | EdgeKey u v =>
      if clashes edge_parameters d then Raise (TypeError "add_edge")
      else Ok (add_edge g u v d)
  | NodeKey k =>
      if clashes node_parameters d then Raise (TypeError "add_node")
      else Ok (add_node g k d)
  end.

Definition __contains__ (g : DiGraph) (key : gkey) : bool :=
  match _key key with
  | EdgeKey u v => has_edge g u v
  | NodeKey k => has_node g k
  end.

End DAG.

(** ** [class XCL(DAG)], [_graph.py] lines 114-285 *)

Module XCL.
Import Py NX PyStr CellModel.

(** A method that mutates [self] and may raise: the outcome and the state of
    [self] when the method returns or raises. *)
Definition M (A : Type) : Type := DiGraph -> outcome A * DiGraph.

Definition ret {A} (a : A) : M A := fun g => (Ok a, g).
Definition raise {A} (e : exn) : M A := fun g => (Raise e, g).
Definition bind {A B} (m : M A) (f : A -> M B) : M B :=
  fun g => match m g with
           | (Ok a, g') => f a g'
           | (Raise e, g') => (Raise e, g')
           end.
Definition lift {A} (f : DiGraph -> outcome A) : M A := fun g => (f g, g).
Definition modify (f : DiGraph -> DiGraph) : M unit := fun g => (Ok tt, f g).

(** [for x in l: f(x)] *)
Definition mfor {A} (f : A -> M unit) : list A -> M unit :=
  fix go (l : list A) : M unit :=
    match l with
    | [] => ret tt
    | x :: l' => bind (f x) (fun _ => go l')
    end.

(** ['@%s' % node], the reference string of [_to_id]. *)
Definition ref_of (k : key) : string :=
  match k with
  | KInt z => String "@" (str_of_Z z)
  | KStr s => String "@" s
  end.

(** [int(s) if _is_int(s) else s] *)
Definition parse_key (s : string) : key :=
  if _is_int s then KInt (py_int s) else KStr s.

Definition _to_id : pyval -> pyval :=
  _per_cell (fun c => VStr (ref_of (node c))).

Section WithHash.
(** [Hash] of [mombai._cell]: the digest that turns an id into the key
under which the graph stores it. *)
Variable Hash : key -> key.

(** [XCL._key] on a node key; a cell is first replaced by its [node]. *)
Definition _key_node (k : key) : key :=
match k with
| KStr s => if _is_ref s then Hash (parse_key (tail s)) else Hash k
| KInt _ => Hash k
end.

Definition _key (k : gkey) : gkey :=
match k with
| EdgeKey u v => EdgeKey (_key_node u) (_key_node v)
| NodeKey n => NodeKey (_key_node n)
end.

Definition _as_dict (value : pyval) : attrs :=
match value with
| VDict d => d
| _ => [("value", value)]
end.

(** [DAG.__getitem__] with the class's own [_key]. *)
Definition __getitem__ (g : DiGraph) (key : gkey) : outcome pyval :=
match _key key with
| EdgeKey u v => obind (edge_attrs g u v) (fun d => Ok (DAG._as_value d))
| NodeKey k => obind (node_attrs g k) (fun d => Ok (DAG._as_value d))
end.

Definition __contains__ (g : DiGraph) (key : gkey) : bool :=
match _key key with
| EdgeKey u v => has_edge g u v
| NodeKey k => has_node g k
end.

Definition as_cell (k : key) (value : pyval) : pyval :=
match value with
| VCell _ => value
| _ => VCell (Cell k value [] [])
end.

(** The state of [self] after [self[key] = value].  A node is written with
the attributes [{value: cell}].  An edge takes the mapping as keyword
arguments of [add_edge]: when one of them is named like a parameter the
assignment raises [TypeError] ([setitem_raises]) and [self] stays as it
was. *)
Definition setitem_raises (key : gkey) (value : pyval) : bool :=
match key with
| EdgeKey _ _ => clashes edge_parameters (_as_dict value)
| NodeKey _ => false
end.

Definition __setitem__ (g : DiGraph) (key : gkey) (value : pyval) : DiGraph :=
match key with
| EdgeKey u v =>
if clashes edge_parameters (_as_dict value) then g
else add_edge g (_key_node u) (_key_node v) (_as_dict value)
| NodeKey k => add_node g (_key_node k) (_as_dict (as_cell k value))
end.

(** [graph + cell] *)
Fixpoint __add__ (graph : DiGraph) (cell : pyval) {struct cell} : DiGraph :=
match cell with
| VCell (Cell n f a k) =>
let graph := __setitem__ graph (NodeKey n) cell in
let graph := __add__ graph f in
let graph := fold_left __add__ a graph in
fold_left (fun g kv => __add__ g (snd kv)) k graph
| VList l | VTuple l => fold_left __add__ l graph
| _ => graph
end.

(** [to_id]: works on [deepcopy(self)]. *)
Definition to_id_step (result : DiGraph) (n : key) : outcome DiGraph :=
obind (__getitem__ result (NodeKey n)) (fun p =>
match p with
| VCell c =>
let c' := Cell (node c) (_to_id (function c)) (map _to_id (args c))
               (map_items _to_id (kwargs c)) in
Ok (__setitem__ result (NodeKey n) (VCell c'))
| _ => Raise (AttributeError "function")
end).

Fixpoint ofold {A} (f : DiGraph -> A -> outcome DiGraph) (l : list A)
(g : DiGraph) : outcome DiGraph :=
match l with
| [] => Ok g
| x :: l' => obind (f g x) (ofold f l')
end.

Definition to_id (self : DiGraph) : outcome DiGraph :=
let result := self in
ofold to_id_step (map fst (_node result)) result.

(** [_from_id(value, graph)], lines 114-121 *)
Fixpoint _from_id (graph : DiGraph) (value : pyval) : outcome pyval :=
match value with
| VList l | VTuple l =>
obind (omap (_from_id graph) l) (fun l' => Ok (VList l'))
| VStr s =>
if _is_ref s then __getitem__ graph (NodeKey (parse_key (tail s)))
else Ok value
| _ => Ok value
end.

(** [from_id]: the loop runs over the nodes that the generator yields; the
cell read from [result] is rewritten field by field and stored back.
Cells are values here: the cell that a reference resolves to is the
one stored at that moment.  Python stores the object, so that a later
rewrite of that cell is seen through the reference as well; the two
agree whenever a cell is visited after the cells it refers to, which
is the order the edges of [add_parents] impose. *)
Definition from_id_step (result : DiGraph) (n : key) : outcome DiGraph :=
obind (__getitem__ result (NodeKey n)) (fun p =>
match p with
| VCell c =>
obind (_from_id result (function c)) (fun f' =>
obind (omap (_from_id result) (args c)) (fun a' =>
obind (omap_items (_from_id result) (kwargs c)) (fun k' =>
Ok (__setitem__ result (NodeKey n) (VCell (Cell (node c) f' a' k'))))))
| _ => Raise (AttributeError "function")
end).

Definition from_id (self : DiGraph) : outcome DiGraph :=
let result := self in
let (order, unfeasible) := topological_sort self in
obind (ofold from_id_step order result) (fun result =>
if unfeasible then Raise NetworkXUnfeasible else Ok result).

(** [add_parents(cell, parent)].  [graph[parent, cell] = {}] is "where the
action is"; the rest dispatches on the shapes of [cell] and [parent].
A [None] met among the dependencies of a cell calls
[add_parents(cell, None)] again, which walks the same dependencies:
the recursion does not end and Python raises [RecursionError]; so does
a [None] payload met while walking every node. *)
Definition set_parent (parent cell : key) : M unit :=
modify (fun g => __setitem__ g (EdgeKey parent cell) (VDict [])).

Fixpoint walk_parent (on_none : M unit) (c : cell) (parent : pyval)
{struct parent} : M unit :=
match parent with
| VCell p => set_parent (node p) (node c)
| VStr s => if _is_ref s then set_parent (KStr s) (node c) else ret tt
| VList l | VTuple l => mfor (walk_parent on_none c) l
| VNone => on_none
| _ => ret tt
end.

(** [add_parents(cell, None)] for a cell: its function, args and kwargs. *)
Definition walk_dependencies (c : cell) : M unit :=
let walk := walk_parent (raise RecursionError) c in
bind (walk (function c)) (fun _ =>
bind (walk (VList (args c))) (fun _ =>
walk (VList (map snd (kwargs c))))).

(** [add_parents(cell, parent)] for a cell. *)
Definition add_parents_cell (c : cell) (parent : pyval) : M unit :=
walk_parent (walk_dependencies c) c parent.

Fixpoint walk_cell (on_none : M unit) (parent : pyval) (cell : pyval)
{struct cell} : M unit :=
match cell with
| VNone => on_none
| VStr s =>
if _is_ref s then
  bind (lift (fun g => __getitem__ g (NodeKey (KStr s)))) (fun p =>
  match p with
  | VCell c => add_parents_cell c parent
  | _ => ret tt
  end)
else ret tt
| VList l | VTuple l => mfor (walk_cell on_none parent) l
| VCell c => add_parents_cell c parent
| _ => ret tt
end.

(** [cell = [graph[c] for c in graph.nodes]] and the loop over it. *)
Definition walk_all (parent : pyval) : M unit :=
bind (lift (fun g => omap (fun n => __getitem__ g (NodeKey n)) (map fst (_node g))))
 (mfor (walk_cell (raise RecursionError) parent)).

Definition add_parents (cell parent : pyval) : M unit :=
walk_cell (walk_all parent) parent cell.

(** [to_table]: one row per node, in topological order. *)
Record row : Type := mkRow {
row_node_id : key;
row_function : pyval;
row_args : list pyval;
row_kwargs : list (string * pyval);
row_node : key
}.

Definition to_table (self : DiGraph) : outcome (list row) :=
let (order, unfeasible) := topological_sort self in
if unfeasible then Raise NetworkXUnfeasible
else
obind (omap (fun n => obind (__getitem__ self (NodeKey n)) (fun p => Ok (n, p))) order)
(omap (fun np =>
 match snd np with
 | VCell c => Ok (mkRow (fst np) (function c) (args c) (kwargs c) (node c))
 | _ => Raise (AttributeError "function")
 end)).

(** [metadata] *)
Definition metadata (self : DiGraph) : outcome (list (key * pyval)) :=
obind (to_id self) (fun i =>
omap (fun k => obind (__getitem__ i (NodeKey k)) (fun p =>
    match p with
    | VCell c => Ok (k, CellModel.metadata c)
    | _ => Raise (AttributeError "metadata")
    end)) (map fst (_node i))).

(** The JSON document: an object from stringified node keys to the encoded
payloads.  [jsonpickle] is taken to encode and decode a payload without
loss, and to turn a key into its [str]. *)
Definition json := list (string * pyval).

Definition json_key (k : key) : string :=
match k with
| KInt z => str_of_Z z
| KStr s => s
end.

Definition to_json (self : DiGraph) : outcome json :=
obind (to_id self) (fun i =>
obind (omap (fun k => obind (__getitem__ i (NodeKey k)) (fun p => Ok (k, p)))
        (map fst (_node i))) (fun items =>
Ok (fold_left (fun d kv => dset String.eqb d (json_key (fst kv)) (snd kv)) items []))).

Definition from_json (j : json) : outcome DiGraph :=
let minimal :=
fold_left (fun d kv => dset key_eqb d (parse_key (fst kv)) (snd kv)) j [] in
let res := fold_left (fun g kv => __setitem__ g (NodeKey (fst kv)) (snd kv)) minimal empty in
match add_parents VNone VNone res with
| (Ok _, res) => from_id res
| (Raise e, _) => Raise e
end.

End WithHash.
End XCL.

(** ** Concrete instances used by the examples *)

Module Scenario.
Import Py NX PyStr CellModel.

(** A digest in the sense of the spec (4.1): an integer id is its own key, a
    string is keyed by the number its bytes spell after a leading 1. *)
Fixpoint digest (acc : Z) (s : string) : Z :=
  match s with
  | EmptyString => acc
  | String a s' => digest (acc * 256 + Z.of_nat (nat_of_ascii a)) s'
  end.

Definition Hash0 (k : key) : key :=
  match k with
  | KInt z => KInt z
  | KStr s => KInt (digest 1 s)
  end.

(** [operator.add] on the modelled values, and a registry that knows it
    and [round]. *)
Definition operator_add (a b : pyval) : outcome pyval :=
  match a, b with
  | VInt x, VInt y => Ok (VInt (x + y))
  | VStr x, VStr y => Ok (VStr (x ++ y))
  | VList x, VList y => Ok (VList (x ++ y))
  | VTuple x, VTuple y => Ok (VTuple (x ++ y))
  | _, _ => Raise (CallError "TypeError")
  end.

(** [round(x, None)] of an integer [x] is [x]; other uses are left out. *)
Definition builtin_round (a b : pyval) : outcome pyval :=
  match a, b with
  | VInt x, VNone => Ok (VInt x)
  | _, _ => Raise (CallError "unsupported")
  end.

Definition call0 (f : string) (a : list pyval) (k : list (string * pyval))
  : outcome pyval :=
  match a, k with
  | [x; y], [] => if String.eqb f "add" then operator_add x y
                  else if String.eqb f "round" then builtin_round x y
                  else Raise (CallError "unknown callable")
  | _, _ => Raise (CallError "unknown callable")
  end.

(** The cells of the concrete scenario (spec, section 8). *)
Definition a_cell : cell := Cell (KStr "a") (VInt 1) [] [].
Definition b_cell : cell := Cell (KStr "b") (VInt 2) [] [].
Definition c_cell : cell :=
  Cell (KStr "c") (VFun "add") [VCell a_cell; VCell b_cell] [].

End Scenario.

(** ** What a caller observes of a graph *)

Module Observe.
Import Py NX.










End Observe.

(** ** The cells inside a value *)

Module Deps.
Import Py NX PyStr CellModel.

(** The cells that [graph + v] stores, in the order it stores them: a cell,
    then the cells of its function, of its args and of its kwargs. *)
Fixpoint inserted (v : pyval) : list cell :=
  match v with
  | VCell (Cell n f a k) =>
      (Cell n f a k :: inserted f ++ flat_map inserted a
         ++ flat_map (fun kv => inserted (snd kv)) k)%list
  | VList l | VTuple l => flat_map inserted l
  | _ => []
  end.

(** Storing a cell under the key of its node: [graph[cell.node] = cell]. *)
Definition store (Hash : key -> key) (g : DiGraph) (c : cell) : DiGraph :=
  XCL.__setitem__ Hash g (NodeKey (node c)) (VCell c).

(** Every node carries a cell as its only attribute. *)
Definition holds_cell (d : attrs) : Prop := exists c, d = [("value", VCell c)].
Definition all_cells (g : DiGraph) : Prop :=
  forall k d, In (k, d) (_node g) -> holds_cell d.


(** The keys of the graph are fixed by the key normalisation: a node can be
    read back under the key it is stored at. *)
Definition stable (Hash : key -> key) (k : key) : Prop := XCL._key_node Hash k = k.

(** A key or an id that Python reads as the model does: written out, it is
    [readable]. *)
Definition legible (k : key) : bool := readable (XCL.json_key k).

End Deps.

(** ** Cycles and ranks of the edge relation *)

Module Order.
Import Py NX.

Definition edge (g : DiGraph) (u v : key) : Prop := In (u, v) (map fst (_edges g)).

(** [depends_on g v u]: a path of edges leads from [u] to [v]. *)
Definition depends_on (g : DiGraph) (v u : key) : Prop :=
  Relation_Operators.clos_trans key (edge g) u v.

(** Some node transitively depends on itself. *)
Definition has_cycle (g : DiGraph) : Prop := exists x, depends_on g x x.

(** The invariant of [networkx]: the end points of an edge are nodes. *)
Definition edges_closed (g : DiGraph) : Prop :=
  forall u v, edge g u v -> In u (map fst (_node g)) /\ In v (map fst (_node g)).

(** The edges go upwards along a rank: the graph is acyclic. *)
Definition ranked (es : list (key * key)) (rank : key -> nat) : Prop :=
  forall u v, In (u, v) es -> (rank u < rank v)%nat.

End Order.

(** ** A graph whose only cell refers to itself *)

Module Cyclic.
Import Py NX Scenario.

Definition x_cell : cell :=
  Cell (KStr "x") (VFun "add") [VStr "@x"; VInt 1] [].

(** [g = XCL(); g['x'] = x_cell; g.add_parents()] *)
Definition cyclic_graph : DiGraph :=
  snd (XCL.add_parents Hash0 VNone VNone
         (XCL.__setitem__ Hash0 empty (NodeKey (KStr "x")) (VCell x_cell))).

(** The graph without its edges. *)
Definition nodes_only (g : DiGraph) : DiGraph := mkGraph (_node g) [].

End Cyclic.

(** ** Calls on a graph, with the state of [self] afterwards *)

Module Calls.
Import Py NX Scenario.

(** [self.from_id()] and [self.to_json()] work on copies of [self]. *)
Definition from_id_call (Hash : key -> key) : XCL.M DiGraph :=
  XCL.lift (XCL.from_id Hash).
Definition to_json_call (Hash : key -> key) : XCL.M XCL.json :=
  XCL.lift (XCL.to_json Hash).

(** [g'] holds every node and edge of [g] with the attributes it has in [g]. *)
Definition extends (g g' : DiGraph) : Prop :=
  (forall k d, dget key_eqb (_node g) k = Some d -> dget key_eqb (_node g') k = Some d)
  /\ (forall e d, dget edge_eqb (_edges g) e = Some d -> dget edge_eqb (_edges g') e = Some d).

(** [g = XCL() + c] of the concrete scenario. *)
Definition scenario_graph : DiGraph := XCL.__add__ Hash0 empty (VCell c_cell).

End Calls.

(** ** References inside a value *)

Module Refs.
Import Py NX PyStr Scenario.

(** The keys that [_from_id] looks up while it rewrites a value. *)
Fixpoint refs (v : pyval) : list key :=
  match v with
  | VList l | VTuple l => flat_map refs l
  | VStr s => if _is_ref s then [XCL.parse_key (tail s)] else []
  | _ => []
  end.

Definition cell_refs (c : cell) : list key :=
  (refs (function c) ++ flat_map refs (args c)
     ++ flat_map (fun kv => refs (snd kv)) (kwargs c))%list.

(** Every node that can be read holds a cell. *)
Definition cells_at (g : DiGraph) : Prop :=
  forall k d, dget key_eqb (_node g) k = Some d -> Deps.holds_cell d.

Definition keys_stable (Hash : key -> key) (g : DiGraph) : Prop :=
  forall k, In k (map fst (_node g)) -> Deps.stable Hash k.

(** The reference strings inside a value are [readable]. *)
Fixpoint refs_readable (v : pyval) : bool :=
  match v with
  | VList l | VTuple l => forallb refs_readable l
  | VStr s => if _is_ref s then readable s else true
  | _ => true
  end.

Definition cell_refs_readable (c : cell) : bool :=
  refs_readable (function c) && forallb refs_readable (args c)
  && forallb (fun kv => refs_readable (snd kv)) (kwargs c).

(** The keys of the graph and the reference strings of its cells are read
    by Python as they are here. *)
Definition legible_keys (g : DiGraph) : Prop :=
  forall k, In k (map fst (_node g)) -> Deps.legible k = true.

Definition legible_refs (g : DiGraph) : Prop :=
  forall k c, In (k, [("value", VCell c)]) (_node g) -> cell_refs_readable c = true.

(** [g = XCL(); g['a'] = Cell('a', 1); g['c'] = Cell('c', add, '@a', '@zz')]:
    the reference ['@zz'] dangles. *)
Definition dangling_cell : cell :=
  Cell (KStr "c") (VFun "add") [VStr "@a"; VStr "@zz"] [].
Definition dangling_graph : DiGraph :=
  XCL.__setitem__ Hash0
    (XCL.__setitem__ Hash0 empty (NodeKey (KStr "a")) (VCell a_cell))
    (NodeKey (KStr "c")) (VCell dangling_cell).

(** [g = XCL(); g['c'] = Cell('c', add, '@a', '@zz'); g['a', 'c'] = {}]: the
    edge is declared before a cell is stored at ['a']. *)
Definition placeholder_graph : DiGraph :=
  XCL.__setitem__ Hash0
    (XCL.__setitem__ Hash0 empty (NodeKey (KStr "c")) (VCell dangling_cell))
    (EdgeKey (KStr "a") (KStr "c")) (VDict []).

End Refs.

(** ** Graphs that survive the trip through references *)

Module RoundTrip.
Import Py NX PyStr CellModel Scenario.

(** What [to_id] makes of a cell. *)
Definition to_id_cell (c : cell) : cell :=
  Cell (node c) (XCL._to_id (function c)) (map XCL._to_id (args c))
       (map_items XCL._to_id (kwargs c)).

(** The cells that a value holds directly: itself, or the members of an
    array; these are the cells that [_to_id] replaces by references. *)
Fixpoint direct (v : pyval) : list cell :=
  match v with
  | VCell c => [c]
  | VList l | VTuple l => flat_map direct l
  | _ => []
  end.

Definition cell_deps (c : cell) : list cell :=
  (direct (function c) ++ flat_map direct (args c)
     ++ flat_map (fun kv => direct (snd kv)) (kwargs c))%list.

(** An id whose reference string leads back to it: a legible integer, or a
    legible string that reads neither as an integer nor as a reference. *)
Definition ref_safe (k : key) : bool :=
  Deps.legible k
  && match k with
     | KInt _ => true
     | KStr s => negb (_is_int s) && negb (_is_ref s)
     end.

(** A value that [to_id], [add_parents] and [from_id] give back as it was:
    no [None] (on which [add_parents] does not return), no tuple (which
    [_from_id] rebuilds as a list) and no string that already looks like a
    reference. *)
Fixpoint restorable (v : pyval) : bool :=
  match v with
  | VNone => false
  | VStr s => negb (_is_ref s)
  | VTuple _ => false
  | VList l => forallb restorable l
  | _ => true
  end.

Definition fields_restorable (c : cell) : bool :=
  restorable (function c) && forallb restorable (args c)
  && forallb (fun kv => restorable (snd kv)) (kwargs c).

Definition payload (c : cell) : attrs := [("value", VCell c)].

(** The nodes of a graph, given as the list of its keys and cells. *)
Definition nodes_of (cells : list (key * cell)) : list (key * attrs) :=
  map (fun kc => (fst kc, payload (snd kc))) cells.

(** A graph in embedded form that is consistent: every node holds a cell
    under the key of the cell's id, the keys are legible, the ids and the
    fields of the cells are as above, and the cells that a cell holds
    directly are the cells of the graph at their keys. *)
Record consistent (Hash : key -> key) (cells : list (key * cell)) : Prop := {
  keys_distinct : NoDup (map fst cells);
  keys_of_ids : forall k c, In (k, c) cells -> k = Hash (node c);
  keys_fixed : forall k c, In (k, c) cells -> Deps.stable Hash k;
  keys_legible : forall k c, In (k, c) cells -> Deps.legible k = true;
  ids_safe : forall k c, In (k, c) cells -> ref_safe (node c) = true;
  fields_safe : forall k c, In (k, c) cells -> fields_restorable c = true;
  deps_stored : forall k c d, In (k, c) cells -> In d (cell_deps c) ->
                In (Hash (node d), d) cells
}.

(** Every edge runs from a cell that another cell holds directly to the cell
    that holds it. *)
Definition derived (Hash : key -> key) (cells : list (key * cell))
  (es : list (key * key)) : Prop :=
  forall u v, In (u, v) es ->
  exists c d, In (v, c) cells /\ In d (cell_deps c) /\ u = Hash (node d).

(** A key that the JSON document gives back: [int(k) if _is_int(k) else k]
    of its [str] is the key.  It is a legible integer, or a legible string
    that does not read as an integer. *)
Definition json_safe (k : key) : bool :=
  Deps.legible k
  && match k with
     | KInt _ => true
     | KStr s => negb (_is_int s)
     end.

(** The size of a value, counting the cells inside. *)
Fixpoint size (v : pyval) : nat :=
  match v with
  | VList l | VTuple l => S (list_sum (map size l))
  | VDict d => S (list_sum (map (fun kv => size (snd kv)) d))
  | VCell (Cell _ f a k) =>
      S (size f + list_sum (map size a)
         + list_sum (map (fun kv => size (snd kv)) k))
  | _ => 1%nat
  end.

(** The cells of the concrete scenario under their keys. *)
Definition scenario_cells : list (key * cell) :=
  [(Hash0 (KStr "c"), c_cell); (Hash0 (KStr "a"), a_cell); (Hash0 (KStr "b"), b_cell)].

(** A cell with [None] among its arguments: [Cell('n', round, 1, None)]. *)
Definition none_cell : cell := Cell (KStr "n") (VFun "round") [VInt 1; VNone] [].

(** A cell with a tuple among its arguments. *)
Definition pair_cell : cell :=
  Cell (KStr "p") (VFun "add") [VTuple [VInt 1]; VTuple [VInt 2]] [].

End RoundTrip.

(** ** Graphs of the round-trip examples *)

Module Trips.
Import Py NX Scenario RoundTrip.

(** [XCL() + pair_cell] *)
Definition pair_graph : DiGraph := XCL.__add__ Hash0 empty (VCell pair_cell).

(** [XCL() + c + none_cell] *)
Definition none_graph : DiGraph :=
  XCL.__add__ Hash0 Calls.scenario_graph (VCell none_cell).

(** [g[k]()]: the cell at [k], evaluated. *)
Definition evaluate_at (Hash : key -> key)
  (call : string -> list pyval -> list (string * pyval) -> outcome pyval)
  (g : DiGraph) (k : key) : outcome pyval :=
  obind (XCL.__getitem__ Hash g (NodeKey k)) (CellModel.resolve call).

End Trips.

(** ** [eq] of [_containers.py], lines 50-93 *)

Module Containers.
Import Py.

(** Objects carry their identity, as [x is y] is the first test of [eq].
    The scalars modelled are [None], integers, strings and the float [nan]
    (other floats are left out); sequences hold scalars and mappings, so
    that numpy sees them as one-dimensional (nested sequences, which numpy
    turns into arrays of more dimensions, are left out, and so is pandas). *)
Inductive atom : Type :=
| ANone
| AInt (z : Z)
| AStr (s : string)
| ANaN.

Record keyobj : Type := mkKey { kid : nat; kval : key }.

Inductive value : Type :=
| VAtom (id : nat) (a : atom)
| VDict (id : nat) (cls : string) (items : list (keyobj * value)).

Inductive seqkind : Type := KList | KTuple | KArray.

Inductive pyobj : Type :=
| Scalar (v : value)
| Seq (kind : seqkind) (id : nat) (l : list value).

Inductive error : Type :=
| ValueError (msg : string)
| TypeError (msg : string)
| RecursionError.

Inductive result (A : Type) : Type :=
| Ok (a : A)
| Raise (e : error).
Arguments Raise {A} e.

Definition bind {A B} (r : result A) (f : A -> result B) : result B :=
  match r with
  | Ok a => f a
  | Raise e => Raise e
  end.

Definition value_id (v : value) : nat :=
  match v with
  | VAtom id _ => id
  | VDict id _ _ => id
  end.

Definition ident (o : pyobj) : nat :=
  match o with
  | Scalar v => value_id v
  | Seq _ id _ => id
  end.

(** [x is y] *)
Definition is_ (x y : pyobj) : bool := Nat.eqb (ident x) (ident y).

(** The largest identity in use inside an object; new objects get larger
    ones. *)
Fixpoint max_id (v : value) : nat :=
  match v with
  | VAtom id _ => id
  | VDict id _ items =>
      fold_right (fun kv m => Nat.max (Nat.max (kid (fst kv)) (max_id (snd kv))) m) id items
  end.

Definition max_id_obj (o : pyobj) : nat :=
  match o with
  | Scalar v => max_id v
  | Seq _ id l => fold_right (fun v m => Nat.max (max_id v) m) id l
  end.

Definition kind_eqb (a b : seqkind) : bool :=
  match a, b with
  | KList, KList | KTuple, KTuple | KArray, KArray => true
  | _, _ => false
  end.

(** [a == b] on scalars; [nan] equals nothing. *)
Definition atom_eq (a b : atom) : bool :=
  match a, b with
  | ANone, ANone => true
  | AInt x, AInt y => Z.eqb x y
  | AStr x, AStr y => String.eqb x y
  | _, _ => false
  end.

(** [res = x == y] for a scalar [x], then [np.all(res.__array__())] when
    [y] is an array and [res] otherwise. *)
Definition equals (a : atom) (y : pyobj) : bool :=
  match y with
  | Scalar (VAtom _ b) => atom_eq a b
  | Scalar (VDict _ _ _) => false
  | Seq KArray _ l =>
      forallb (fun v => match v with VAtom _ b => atom_eq a b | VDict _ _ _ => false end) l
  | Seq _ _ _ => false
  end.

(** [isinstance(y, float) and np.isnan(y)] *)
Definition is_nan (y : pyobj) : bool :=
  match y with
  | Scalar (VAtom _ ANaN) => true
  | _ => false
  end.

(** [k1 < k2] on keys: integers among themselves, strings among
    themselves; otherwise [TypeError]. *)
Definition key_lt (a b : key) : result bool :=
  match a, b with
  | KInt x, KInt y => Ok (Z.ltb x y)
  | KStr x, KStr y => Ok (String.ltb x y)
  | _, _ => Raise (TypeError "'<' not supported")
  end.

(** [sorted(x.items())]: the items are compared on their keys, which are
    distinct in a dict. *)
Fixpoint insert (kv : keyobj * value) (l : list (keyobj * value))
  : result (list (keyobj * value)) :=
  match l with
  | [] => Ok [kv]
  | kv' :: l' =>
      bind (key_lt (kval (fst kv)) (kval (fst kv'))) (fun lt =>
      if lt then Ok (kv :: kv' :: l')
      else bind (insert kv l') (fun r => Ok (kv' :: r)))
  end.

Fixpoint sorted (l : list (keyobj * value)) : result (list (keyobj * value)) :=
  match l with
  | [] => Ok []
  | kv :: l' => bind (sorted l') (insert kv)
  end.

(** [xkey, xval = zip(...)] of the unpacked sorted items: the tuple of the
    keys and the tuple of the values; with no item there is nothing to
    unpack into the two names. *)
Definition unzip (l : list (keyobj * value)) : result (list value * list value) :=
  match l with
  | [] => Raise (ValueError "not enough values to unpack (expected 2, got 0)")
  | _ => Ok (map (fun kv => VAtom (kid (fst kv))
                              (match kval (fst kv) with KInt z => AInt z | KStr s => AStr s end)) l,
             map snd l)
  end.

(** [_eq_attrs(x, y, ['__shape__'])]: no sequence has an attribute of that
    name, so the loop finds nothing to compare. *)
Definition _eq_attrs : bool := true.

(** [np.vectorize(f)(x, y)] on two one-dimensional arguments of the same
    length: it refuses arguments of size 0, calls [f] on the first elements
    to find the type of the output, then calls it element by element. *)
Fixpoint map2 (f : value -> value -> result bool) (xs ys : list value)
  : result (list bool) :=
  match xs, ys with
  | x :: xs', y :: ys' =>
      bind (f x y) (fun b => bind (map2 f xs' ys') (fun bs => Ok (b :: bs)))
  | _, _ => Ok []
  end.

Definition vectorize (f : value -> value -> result bool) (xs ys : list value)
  : result (list bool) :=
  match xs, ys with
  | x :: _, y :: _ => bind (f x y) (fun _ => map2 f xs ys)
  | _, _ => Raise (ValueError "cannot call `vectorize` on size 0 inputs")
  end.

(** [eq(x, y)]; [depth] bounds the depth of the recursion as Python's
    recursion limit does. *)
Fixpoint eq (depth : nat) (x y : pyobj) {struct depth} : result bool :=
  match depth with
  | O => Raise RecursionError
  | S d =>
      if is_ x y then Ok true
      else
        match x with
        | Seq kind _ xs =>
            match y with
            | Seq kind' _ ys =>
                if kind_eqb kind kind' && Nat.eqb (List.length xs) (List.length ys)
                   && _eq_attrs
                then bind (vectorize (fun a b => eq d (Scalar a) (Scalar b)) xs ys)
                          (fun bs => Ok (forallb (fun b => b) bs))
                else Ok false
            | Scalar _ => Ok false
            end
        | Scalar (VDict _ cls items) =>
            match y with
            | Scalar (VDict _ cls' items') =>
                if String.eqb cls cls'
                   && Nat.eqb (List.length items) (List.length items')
                then
                  let fresh := S (Nat.max (max_id_obj x) (max_id_obj y)) in
                  bind (sorted items) (fun sx => bind (unzip sx) (fun xkv =>
                  bind (sorted items) (fun sy => bind (unzip sy) (fun ykv =>
                  bind (eq d (Seq KTuple fresh (fst xkv))
                             (Seq KTuple (S fresh) (fst ykv))) (fun keys_eq =>
                  if keys_eq
                  then eq d (Seq KArray (S (S fresh)) (snd xkv))
                            (Seq KArray (S (S (S fresh))) (snd ykv))
                  else Ok false)))))
                else Ok false
            | _ => Ok false
            end
        | Scalar (VAtom _ ANaN) => Ok (is_nan y)
        | Scalar (VAtom _ a) => Ok (equals a y)
        end
  end.

(** All the keys are integers, or all are strings. *)
Definition sortable (items : list (keyobj * value)) : bool :=
  forallb (fun kv => match kval (fst kv) with KInt _ => true | KStr _ => false end) items
  || forallb (fun kv => match kval (fst kv) with KInt _ => false | KStr _ => true end) items.

(** [{'a': 1}] and [{'a': 2}], two objects. *)
Definition dict_a1 : pyobj :=
  Scalar (VDict 1 "dict" [(mkKey 2 (KStr "a"), VAtom 3 (AInt 1))]).
Definition dict_a2 : pyobj :=
  Scalar (VDict 4 "dict" [(mkKey 2 (KStr "a"), VAtom 5 (AInt 2))]).

(** Two empty dicts. *)
Definition empty_1 : pyobj := Scalar (VDict 1 "dict" []).
Definition empty_2 : pyobj := Scalar (VDict 2 "dict" []).

End Containers.

(** ** What the rewrites of the payloads keep *)

Module Shape.
Import Py NX PyStr.

(** [h] has the nodes of [g], in the same order, and the edges of [g] with
    their attributes; the attribute dictionaries of the nodes may differ. *)
Definition same_shape (g h : DiGraph) : Prop :=
  map fst (_node h) = map fst (_node g) /\ _edges h = _edges g.

(** The attribute dictionary of a node that reads back as the cell written
    to it: the node is new, was created empty by an edge, or holds the
    attribute [value] alone. *)
Definition takes_value (d : option attrs) : bool :=
  match d with
  | None => true
  | Some [] => true
  | Some [(k, _)] => String.eqb k "value"
  | Some _ => false
  end.

(** A value that [_from_id] gives back as it is: it holds no reference
    string and no tuple, in the members of a list included. *)
Fixpoint settled (v : pyval) : bool :=
  match v with
  | VStr s => negb (_is_ref s)
  | VTuple _ => false
  | VList l => forallb settled l
  | _ => true
  end.

Definition fields_settled (c : cell) : bool :=
  settled (function c) && forallb settled (args c)
  && forallb (fun kv => settled (snd kv)) (kwargs c).

(** The cell of a row of [to_table] is the payload of the node that the row
    names. *)
Definition row_of_node (g : DiGraph) (r : XCL.row) : Prop :=
  dget key_eqb (_node g) (XCL.row_node_id r)
  = Some [("value", VCell (Cell (XCL.row_node r) (XCL.row_function r)
                                (XCL.row_args r) (XCL.row_kwargs r)))].

(** The graph of the concrete scenario with the edges of [add_parents]. *)
Definition linked_graph : DiGraph :=
  snd (XCL.add_parents Scenario.Hash0 VNone VNone Calls.scenario_graph).

(** A rank along which the edges of [linked_graph] go upwards: the key of
    ['c'] above those of ['a'] and ['b']. *)
Definition scenario_rank (k : key) : nat :=
  if key_eqb k (Scenario.Hash0 (KStr "c")) then 1%nat else 0%nat.

End Shape.

(** ** Methods that only declare edges *)

Module Script.
Import Py NX Deps.

Section WithHash.
Variable Hash : key -> key.

(** [graph[u, v] = {}] *)
Definition link (g : DiGraph) (e : key * key) : DiGraph :=
XCL.__setitem__ Hash g (EdgeKey (fst e) (snd e)) (VDict []).

Definition link_all (es : list (key * key)) (g : DiGraph) : DiGraph :=
fold_left link es g.

(** A method whose course does not depend on [self]: it declares the edges
of a list, one after the other, and then returns or raises. *)
Definition scripted (m : XCL.M unit) : Prop :=
exists es r, forall g, m g = (r, link_all es g).

(** The edge is in the graph, between two nodes of the graph. *)
Definition declared (g : DiGraph) (e : key * key) : Prop :=
has_node g (XCL._key_node Hash (fst e)) = true
/\ has_node g (XCL._key_node Hash (snd e)) = true
/\ has_edge g (XCL._key_node Hash (fst e)) (XCL._key_node Hash (snd e)) = true.

(** [[graph[c] for c in graph.nodes]] *)
Definition payloads (g : DiGraph) : outcome (list pyval) :=
omap (fun n => XCL.__getitem__ Hash g (NodeKey n)) (map fst (_node g)).

(** The nodes that [g'] has besides those of [g]: they come after the nodes
of [g], are digests and hold nothing. *)
Definition grown (g g' : DiGraph) (new : list key) : Prop :=
map fst (_node g') = (map fst (_node g) ++ new)%list
/\ forall k, In k new ->
(exists x, k = Hash x) /\ dget key_eqb (_node g') k = Some [].
End WithHash.

(** Every node holds a cell, or nothing: an edge made a node of it. *)
Definition cell_or_empty (g : DiGraph) : Prop :=
  forall k d, In (k, d) (_node g) -> d = [] \/ holds_cell d.




End Script.

(** ** Removal: [__delitem__], [remove_node] and [remove_edge] of [DAG],
       [_graph.py] lines 71-98 *)

Module Removal.
Import Py NX.

(** What the removing methods raise: networkx's [NetworkXError] for a node
    or an edge that is not in the graph ([v] is [None] when the caller gave
    no target), and the [TypeError] of a list used as a dictionary key. *)
Inductive error : Type :=
| NodeNotInGraph (n : key)
| EdgeNotInGraph (u : key) (v : option key)
| Unhashable.

(** A method that removes from [self]: the error it raises, if any, and
    [self] when it returns or raises. *)
Definition R : Type := DiGraph -> option error * DiGraph.

Definition rret : R := fun g => (None, g).

Definition rseq (m1 m2 : R) : R :=
  fun g => match m1 g with
           | (None, g') => m2 g'
           | (Some e, g') => (Some e, g')
           end.

(** [for x in l: f(x)] *)
Definition rfor {A} (f : A -> R) : list A -> R :=
  fix go (l : list A) : R :=
    match l with
    | [] => rret
    | x :: l' => rseq (f x) (go l')
    end.

(** [del d[k]] *)
Fixpoint ddel {K V} (eqb : K -> K -> bool) (d : list (K * V)) (k : K) : list (K * V) :=
  match d with
  | [] => []
  | (k', v) :: d' => if eqb k' k then d' else (k', v) :: ddel eqb d' k
  end.

Definition touches (n : key) (e : key * key) : bool :=
  key_eqb (fst e) n || key_eqb (snd e) n.

(** [nx.DiGraph.remove_node(n)]: the node goes with every edge from it and
    to it. *)
Definition nx_remove_node (n : key) : R :=
  fun g =>
    if has_node g n
    then (None, mkGraph (ddel key_eqb (_node g) n)
                        (filter (fun e => negb (touches n (fst e))) (_edges g)))
    else (Some (NodeNotInGraph n), g).

(** [nx.DiGraph.remove_edge(u, v)] *)
Definition nx_remove_edge (u v : key) : R :=
  fun g =>
    if has_edge g u v
    then (None, mkGraph (_node g) (ddel edge_eqb (_edges g) (u, v)))
    else (Some (EdgeNotInGraph u (Some v)), g).

(** The argument of [DAG.remove_node]: [None], a node, or an array of
    arguments. *)
Inductive target : Type :=
| All
| One (k : key)
| Many (l : list target).

Fixpoint remove_node (node : target) : R :=
  match node with
  | All => fun g => rfor nx_remove_node (map fst (_node g)) g
  | Many l => rfor remove_node l
  | One k => nx_remove_node k
  end.

(** The first argument of [DAG.remove_edge]: [None], a node, or an array of
    edges, each a pair of nodes. *)
Inductive source : Type :=
| Every
| Node (k : key)
| Edges (l : list (key * key)).

Definition remove_edge (u : source) (v : option key) : R :=
  fun g =>
    let u : key + list (key * key) :=
      match u with
      | Every => inr (map fst (_edges g))
      | Node a => inl a
      | Edges l => inr l
      end in
    match v, u with
    | None, inr l => rfor (fun e => nx_remove_edge (fst e) (snd e)) l g
    | Some b, inl a => nx_remove_edge a b g
    | None, inl a => (Some (EdgeNotInGraph a None), g)
    | Some _, inr _ => (Some Unhashable, g)
    end.


(** The nodes and the edges that are left when the nodes of [l] have gone. *)
Definition without (l : list key) (g : DiGraph) : DiGraph :=
  mkGraph (filter (fun kd => negb (existsb (key_eqb (fst kd)) l)) (_node g))
          (filter (fun e => negb (existsb (fun n => touches n (fst e)) l)) (_edges g)).


End Removal.

(** ** Ordered sets and argument lists, [_containers.py] lines 18-32 and
       97-158 *)

Module Args.
Import Py.

(** How [as_list] and [as_array] see a value: [None], an array with its
    members, or anything else. *)
Inductive arg (A : Type) : Type :=
| Absent
| Single (x : A)
| Several (l : list A).
Arguments Absent {A}.

(** [as_list(value)] *)
Definition as_list {A} (value : arg A) : list A :=
  match value with
  | Absent => []
  | Several l => l
  | Single x => [x]
  end.

(** A value of the graph layer as [is_array] and [is None] see it. *)
Definition view (v : pyval) : arg pyval :=
  match v with
  | VNone => Absent
  | VList l | VTuple l => Several l
  | _ => Single v
  end.

End Args.

Module Sets.
Import Args.

Section Items.
(** The items: hashable values with their equality. *)
Variable A : Type.
Variable eqb : A -> A -> bool.

Definition mem (x : A) (s : list A) : bool := existsb (eqb x) s.

(** [OrderedSet.add]: a new item goes to the end. *)
Definition add (s : list A) (x : A) : list A :=
if mem x s then s else (s ++ [x])%list.

(** [OrderedSet(iterable)]: the items in the order of their first
occurrence. *)
Definition OrderedSet (l : list A) : list A := fold_left add l [].

(** [self | other]: the items of both, those of [self] first. *)
Definition union (self other : list A) : list A := OrderedSet (self ++ other).

(** [self & other]: the items of [self] that are in [other]. *)
Definition intersection (self other : list A) : list A :=
OrderedSet (filter (fun x => mem x other) self).

(** [self - other]: the items of [self] that are not in [other]. *)
Definition difference (self other : list A) : list A :=
OrderedSet (filter (fun x => negb (mem x other)) self).

(** The right operand of an operator of [ordered_set]: an [ordered_set], or
a value that [as_list] makes a list of items: [None], one item, or an
array of items.  A mapping or a set is no operand: [as_list] makes a
list of the one object, which is not hashable, and [cast] raises
[TypeError]. *)
Inductive operand : Type :=
| Oset (s : list A)
| Other (v : arg A).

(** [ordered_set.cast(other)] *)
Definition cast (other : operand) : list A :=
match other with
| Oset s => s
| Other v => OrderedSet (as_list v)
end.

(** [ordered_set.__add__], [__and__], [__sub__] and [__mod__] *)
Definition oset_add (self : list A) (other : operand) : list A :=
union self (cast other).
Definition oset_and (self : list A) (other : operand) : list A :=
intersection self (cast other).
Definition oset_sub (self : list A) (other : operand) : list A :=
difference self (cast other).
Definition oset_mod (self : list A) (other : operand) : list A :=
oset_sub self (Oset (oset_and self other)).

(** [slist(iterable)] and the operators of [slist]; a [slist] is a list, so
as an operand it is an array. *)
Definition slist (l : list A) : list A := OrderedSet l.

Definition slist_add (self : list A) (other : operand) : list A :=
slist (oset_add (OrderedSet self) other).
Definition slist_and (self : list A) (other : operand) : list A :=
slist (oset_and (OrderedSet self) other).
Definition slist_sub (self : list A) (other : operand) : list A :=
slist (oset_sub (OrderedSet self) other).
Definition slist_mod (self : list A) (other : operand) : list A :=
slist (oset_mod (OrderedSet self) other).

(** The items that an operand stands for. *)
Definition items (other : operand) : list A :=
match other with
| Oset s => s
| Other v => as_list v
end.
End Items.

End Sets.

(** ** Lengths of arguments, [_containers.py] lines 141-158 *)

Module Broadcast.
Import Py Args Sets.
Import Containers (result, Ok, Raise, ValueError, bind).

(** [_args_len(values)]: the lengths other than 1 must be one and the same,
    which is returned; 1 when there is none. *)
Definition _args_len {B} (values : list (list B)) : result nat :=
  let lens := slist_sub Nat.eqb (slist Nat.eqb (map (@List.length B) values))
                        (Other (Single 1%nat)) in
  if (1 <? List.length lens)%nat
  then Raise (ValueError "all values must have same length")
  else Ok (match lens with
           | n :: _ => n
           | [] => 1%nat
           end).

(** [as_ndarray(value)]: the array of the members of [as_list(value)].
    numpy gives the members of an array one type (an integer next to a
    string becomes a string); the members are kept as they are here, which
    is what numpy does with the values that are [integral] below.  The
    number of the members is kept in every case. *)
Definition as_ndarray (value : pyval) : list pyval := as_list (view value).

(** An integer of 64 bits. *)
Definition int64 (v : pyval) : bool :=
  match v with
  | VInt z => (- 2 ^ 63 <=? z) && (z <? 2 ^ 63)
  | _ => false
  end.

(** [None], an integer of 64 bits, or a list or a tuple of such integers:
    the array that numpy makes holds the members themselves. *)
Definition integral (value : pyval) : bool := forallb int64 (as_list (view value)).

(** [args_len(values)] *)
Definition args_len (values : list pyval) : result nat :=
  _args_len (map as_ndarray values).

(** [np.concatenate(arrays)] of one-dimensional arrays: it refuses an empty
    list of arrays. *)
Definition concatenate {B} (arrays : list (list B)) : result (list B) :=
  match arrays with
  | [] => Raise (ValueError "need at least one array to concatenate")
  | _ => Ok (List.concat arrays)
  end.

(** [zip] of the unpacked values, as a list: the tuples of the members at
    the same position, as many as the shortest value has. *)
Fixpoint zip {B} (values : list (list B)) : list (list B) :=
  match values with
  | [] => []
  | [v] => map (fun x => [x]) v
  | v :: vs => map (fun xr => fst xr :: snd xr) (combine v (zip vs))
  end.

Fixpoint rmap {X Y} (f : X -> result Y) (l : list X) : result (list Y) :=
  match l with
  | [] => Ok []
  | x :: l' => bind (f x) (fun y => bind (rmap f l') (fun ys => Ok (y :: ys)))
  end.

(** [args_zip] from its second line on, on the arrays that [as_ndarray]
    has made of the values: an array whose length is not the common one is
    repeated that many times. *)
Definition zip_arrays {B} (values : list (list B)) : result (list (list B)) :=
  bind (_args_len values) (fun n =>
  bind (rmap (fun value => if (List.length value =? n)%nat then Ok value
                           else concatenate (repeat value n)) values) (fun values =>
  Ok (zip values))).

(** [args_zip(values)] *)
Definition args_zip (values : list pyval) : result (list (list pyval)) :=
  zip_arrays (map as_ndarray values).

(** The lengths that [_args_len] looks at: those of the values, 1 apart. *)
Definition lens {B} (values : list (list B)) : list nat :=
  slist_sub Nat.eqb (slist Nat.eqb (map (@List.length B) values)) (Other (Single 1%nat)).

(** What [args_zip] makes of a value: itself, or its members as many times
    as the common length says. *)
Definition stretched {B} (n : nat) (value : list B) : list B :=
  if (List.length value =? n)%nat then value else List.concat (repeat value n).

End Broadcast.

(** ** Arguments given as names, [_containers.py] lines 160-195 *)

Module Names.
Import Py Args.

(** [args_to_list(args)]: the list of the arguments, or the only argument
    when it is an array itself. *)
Definition args_to_list (args : pyval) : pyval :=
  let args := as_list (view args) in
  match args with
  | [x] => if is_array x then x else VList args
  | _ => VList args
  end.

(** The members that [for arg in args] runs over. *)
Definition members (args : pyval) : list pyval :=
  match args with
  | VList l | VTuple l => l
  | _ => []
  end.

(** What [args_to_dict] raises: its [ValueError] for an argument that is
    neither a string nor a mapping, or the [TypeError] of formatting the
    message with a tuple that does not hold exactly one member. *)
Inductive error : Type :=
| ValueError (arg : pyval)
| TypeError (arg : pyval).

(** One turn of the loop of [args_to_dict]; a cell is a mapping, see
    [DAG.cell_items]. *)
Definition note (res : attrs) (arg : pyval) : attrs + error :=
  match arg with
  | VDict d => inl (dupdate String.eqb res d)
  | VCell c => inl (dupdate String.eqb res (DAG.cell_items c))
  | VStr s => inl (dset String.eqb res s (VStr s))
  | VTuple [_] => inr (ValueError arg)
  | VTuple _ => inr (TypeError arg)
  | _ => inr (ValueError arg)
  end.

Fixpoint note_all (res : attrs) (args : list pyval) : attrs + error :=
  match args with
  | [] => inl res
  | arg :: args' =>
      match note res arg with
      | inl res' => note_all res' args'
      | inr e => inr e
      end
  end.

(** [args_to_dict(args)] *)
Definition args_to_dict (args : pyval) : attrs + error :=
  note_all [] (members (args_to_list args)).

(** A string or a mapping. *)
Definition named (arg : pyval) : bool :=
  match arg with
  | VStr _ | VDict _ | VCell _ => true
  | _ => false
  end.

End Names.

(** ** [Dictattr], [_dict.py] lines 32-76 *)

Module Attr.
Import Py Args Sets.

Section Dict.
(** The keys, with their equality, and the values. *)
Variables K V : Type.
Variable eqb : K -> K -> bool.

(** A [Dictattr] is a dict: its items in insertion order. *)
Definition Dictattr : Type := list (K * V).

(** [self.keys()] is a [slist]. *)
Definition keys (self : Dictattr) : list K := slist eqb (map fst self).

(** [self - other]: the items whose key is in [self.keys() - other]. *)
Definition __sub__ (self : Dictattr) (other : operand K) : Dictattr :=
filter (fun kv => mem eqb (fst kv) (slist_sub eqb (keys self) other)) self.

(** [self & other]: the items whose key is in [self.keys() & other]. *)
Definition __and__ (self : Dictattr) (other : operand K) : Dictattr :=
filter (fun kv => mem eqb (fst kv) (slist_and eqb (keys self) other)) self.

(** [self + other]: a copy of [self] updated with [other]. *)
Definition __add__ (self other : Dictattr) : Dictattr := dupdate eqb self other.

(** What [self[value]] is asked with: a key, a tuple of keys, or a list of
keys. *)
Inductive index : Type :=
| Key (k : K)
| Tuple (ks : list K)
| List (ks : list K).

(** What it gives: a value, the list of the values, or the [Dictattr] of
the keys. *)
Inductive got : Type :=
| Value (v : V)
| Values (l : list V)
| Sub (d : Dictattr).

(** The outcome: [KeyError] names the key that is missing. *)
Inductive found (A : Type) : Type :=
| Found (a : A)
| KeyError (k : K).
Arguments KeyError {A} k.

Definition lookup (self : Dictattr) (k : K) : found V :=
match dget eqb self k with
| Some v => Found v
| None => KeyError k
end.

(** [[self[v] for v in value]] *)
Fixpoint lookup_all (self : Dictattr) (ks : list K) : found (list V) :=
match ks with
| [] => Found []
| k :: ks' =>
match lookup self k with
| Found v =>
match lookup_all self ks' with
| Found vs => Found (v :: vs)
| KeyError k' => KeyError k'
end
| KeyError k' => KeyError k'
end
end.

(** [{v: self[v] for v in value}] *)
Fixpoint lookup_sub (self : Dictattr) (ks : list K) (acc : Dictattr) : found Dictattr :=
match ks with
| [] => Found acc
| k :: ks' =>
match lookup self k with
| Found v => lookup_sub self ks' (dset eqb acc k v)
| KeyError k' => KeyError k'
end
end.

Definition __getitem__ (self : Dictattr) (value : index) : found got :=
match value with
| Tuple ks =>
match lookup_all self ks with
| Found vs => Found (Values vs)
| KeyError k => KeyError k
end
| List ks =>
match lookup_sub self ks [] with
| Found d => Found (Sub d)
| KeyError k => KeyError k
end
| Key k =>
match lookup self k with
| Found v => Found (Value v)
| KeyError k' => KeyError k'
end
end.
End Dict.

Arguments Key {K} k.
Arguments Tuple {K} ks.
Arguments List {K} ks.
Arguments Value {K V} v.
Arguments Values {K V} l.
Arguments Sub {K V} d.
Arguments Found {K A} a.
Arguments KeyError {K A} k.

End Attr.

(** ** Lists of integers, for [eq] *)

Module Scalars.
Import Py Containers.

(** A scalar with its identity. *)
Definition scalar (p : nat * atom) : value := VAtom (fst p) (snd p).

(** Lists that numpy turns into arrays of their own members without loss:
    the scalars are integers of 64 bits. *)
Definition small_ints (l : list (nat * atom)) : bool :=
  forallb (fun p => match snd p with
                    | AInt z => (- 2 ^ 63 <=? z) && (z <? 2 ^ 63)
                    | _ => false
                    end) l.

(** Two references to one object refer to one scalar. *)
Definition one_object (p q : nat * atom) : Prop := fst p = fst q -> snd p = snd q.

(** [x == y], member by member. *)
Fixpoint same_members (xs ys : list (nat * atom)) : bool :=
  match xs, ys with
  | x :: xs', y :: ys' => atom_eq (snd x) (snd y) && same_members xs' ys'
  | _, _ => true
  end.

End Scalars.

(** * Properties *)

(** ** Dictionaries and keys *)

Module DictFacts.
Import Py.

Lemma key_eqb_eq (a b : key) : key_eqb a b = true <-> a = b.
Proof.
  destruct a, b; simpl; split; intro H; try discriminate.
  - apply Z.eqb_eq in H. now subst.
  - injection H as ->. apply Z.eqb_refl.
  - apply String.eqb_eq in H. now subst.
  - injection H as ->. apply String.eqb_refl.
Qed.

Lemma key_eqb_refl (a : key) : key_eqb a a = true.
Proof. now apply key_eqb_eq. Qed.

Lemma key_eqb_neq (a b : key) : key_eqb a b = false <-> a <> b.
Proof.
  split.
  - intros H E. apply key_eqb_eq in E. congruence.
  - intro H. destruct (key_eqb a b) eqn:E; [|reflexivity].
    apply key_eqb_eq in E. contradiction.
Qed.

Lemma key_eqb_sym (a b : key) : key_eqb a b = key_eqb b a.
Proof.
  destruct (key_eqb b a) eqn:E.
  - apply key_eqb_eq in E. subst. apply key_eqb_refl.
  - apply key_eqb_neq. apply key_eqb_neq in E. congruence.
Qed.

Lemma edge_eqb_eq (a b : key * key) : NX.edge_eqb a b = true <-> a = b.
Proof.
  destruct a as [a1 a2], b as [b1 b2]. unfold NX.edge_eqb. simpl.
  rewrite andb_true_iff, !key_eqb_eq. split.
  - intros [-> ->]. reflexivity.
  - intros [= -> ->]. now split.
Qed.

Lemma string_eqb_eq (a b : string) : String.eqb a b = true <-> a = b.
Proof. apply String.eqb_eq. Qed.

Section Dict.
Variables K V : Type.
Variable eqb : K -> K -> bool.
Hypothesis eqb_eq : forall a b, eqb a b = true <-> a = b.

Lemma eqb_refl a : eqb a a = true.
Proof. now apply eqb_eq. Qed.

Lemma eqb_neq a b : a <> b -> eqb a b = false.
Proof.
intro H. destruct (eqb a b) eqn:E; [|reflexivity].
apply eqb_eq in E. contradiction.
Qed.

Lemma dget_dset_same (d : list (K * V)) k v :
dget eqb (dset eqb d k v) k = Some v.
Proof.
induction d as [|[k' v'] d IH]; simpl.
- now rewrite eqb_refl.
- destruct (eqb k' k) eqn:E; simpl; rewrite E; auto.
Qed.

Lemma dget_dset_other (d : list (K * V)) k k' v :
k <> k' -> dget eqb (dset eqb d k v) k' = dget eqb d k'.
Proof.
intro N. induction d as [|[k0 v0] d IH]; simpl.
- now rewrite eqb_neq.
- destruct (eqb k0 k) eqn:E; simpl.
+ apply eqb_eq in E. subst k0. now rewrite eqb_neq.
+ now rewrite IH.
Qed.

Lemma dget_In (d : list (K * V)) k v :
dget eqb d k = Some v -> In (k, v) d.
Proof.
induction d as [|[k0 v0] d IH]; simpl; [discriminate|].
destruct (eqb k0 k) eqn:E.
- apply eqb_eq in E. intros [= ->]. subst. now left.
- intro H. right. auto.
Qed.

Lemma dget_None_notin (d : list (K * V)) k :
dget eqb d k = None <-> ~ In k (map fst d).
Proof.
induction d as [|[k0 v0] d IH]; simpl.
- tauto.
- destruct (eqb k0 k) eqn:E.
+ apply eqb_eq in E. split; [discriminate | tauto].
+ rewrite IH. split.
* intros H [H1|H1]; [|tauto]. subst. rewrite eqb_refl in E. discriminate.
* tauto.
Qed.

Lemma dmem_In (d : list (K * V)) k :
dmem eqb d k = true <-> In k (map fst d).
Proof.
unfold dmem. destruct (dget eqb d k) eqn:E.
- split; [|reflexivity]. intros _.
apply dget_In in E. apply in_map_iff. now exists (k, v).
- apply dget_None_notin in E. split; [discriminate | tauto].
Qed.

(** Setting an existing key keeps the keys and their order. *)
Lemma dset_keys_present (d : list (K * V)) k v :
In k (map fst d) -> map fst (dset eqb d k v) = map fst d.
Proof.
induction d as [|[k0 v0] d IH]; simpl; [tauto|].
intros H. destruct (eqb k0 k) eqn:E; simpl; [reflexivity|].
f_equal. apply IH. destruct H as [H|H]; [|exact H].
subst. rewrite eqb_refl in E. discriminate.
Qed.

Lemma dset_keys_absent (d : list (K * V)) k v :
~ In k (map fst d) -> map fst (dset eqb d k v) = (map fst d ++ [k])%list.
Proof.
induction d as [|[k0 v0] d IH]; simpl; [reflexivity|].
intros H. destruct (eqb k0 k) eqn:E; simpl.
- apply eqb_eq in E. tauto.
- f_equal. apply IH. tauto.
Qed.

Lemma dset_dset_same (d : list (K * V)) k v w :
dset eqb (dset eqb d k v) k w = dset eqb d k w.
Proof.
induction d as [|[k0 v0] d IH]; simpl.
- now rewrite eqb_refl.
- destruct (eqb k0 k) eqn:E; simpl; rewrite E; [reflexivity|].
now rewrite IH.
Qed.

Lemma dset_dset_comm (d : list (K * V)) k k' v w :
k <> k' -> In k (map fst d) ->
dset eqb (dset eqb d k v) k' w = dset eqb (dset eqb d k' w) k v.
Proof.
intros N. induction d as [|[k0 v0] d IH]; simpl; [tauto|].
intros H.
destruct (eqb k0 k) eqn:E; destruct (eqb k0 k') eqn:E'; simpl;
rewrite ?E, ?E'; try reflexivity.
- apply eqb_eq in E, E'. congruence.
- f_equal. apply IH. destruct H as [H|H]; [|exact H].
subst. rewrite eqb_refl in E. discriminate.
Qed.

End Dict.


End DictFacts.

(** ** The generic graph: payload normalisation *)

Module DAGFacts.
Import Py NX Observe DictFacts.














End DAGFacts.

(** ** Induction over values *)

Module ValueInd.
Import Py.

Section Ind.
Variable P : pyval -> Prop.
Hypothesis HNone : P VNone.
Hypothesis HInt : forall z, P (VInt z).
Hypothesis HStr : forall s, P (VStr s).
Hypothesis HFun : forall f, P (VFun f).
Hypothesis HList : forall l, Forall P l -> P (VList l).
Hypothesis HTuple : forall l, Forall P l -> P (VTuple l).
Hypothesis HDict : forall d, Forall (fun kv => P (snd kv)) d -> P (VDict d).
Hypothesis HCell : forall n f a k,
P f -> Forall P a -> Forall (fun kv => P (snd kv)) k ->
P (VCell (Cell n f a k)).

Fixpoint pyval_nested_ind (v : pyval) : P v :=
let all := fix all (l : list pyval) : Forall P l :=
match l with
| [] => Forall_nil _
| x :: l' => Forall_cons _ (pyval_nested_ind x) (all l')
end in
let all_items := fix all_items (l : list (string * pyval))
: Forall (fun kv => P (snd kv)) l :=
match l with
| [] => Forall_nil _
| kv :: l' => Forall_cons _ (pyval_nested_ind (snd kv)) (all_items l')
end in
match v with
| VNone => HNone
| VInt z => HInt z
| VStr s => HStr s
| VFun f => HFun f
| VList l => HList (all l)
| VTuple l => HTuple (all l)
| VDict d => HDict (all_items d)
| VCell (Cell n f a k) =>
HCell n (pyval_nested_ind f) (all a) (all_items k)
end.
End Ind.

End ValueInd.

(** ** Insertion: [graph + cell] *)

Module InsertFacts.
Import Py NX Deps DictFacts ValueInd.

(** Writing the attribute [value] of a node. *)
Definition write (g : DiGraph) (k : key) (x : pyval) : DiGraph :=
  add_node g k [("value", x)].

Lemma has_node_write g k x k' :
  has_node g k' = true -> has_node (write g k x) k' = true.
Proof.
  unfold has_node, write, add_node, dmem. simpl.
  destruct (key_eqb_eq k k') as [_ E].
  destruct (dget key_eqb (_node g) k') eqn:G; [intros _|discriminate].
  destruct (key_eqb k k') eqn:K.
  - apply key_eqb_eq in K. subst. now rewrite (dget_dset_same _ key_eqb_eq).
  - apply key_eqb_neq in K. rewrite (dget_dset_other _ key_eqb_eq); auto.
    now rewrite G.
Qed.

Lemma has_node_write_same g k x : has_node (write g k x) k = true.
Proof.
  unfold has_node, write, add_node, dmem. simpl.
  now rewrite (dget_dset_same _ key_eqb_eq).
Qed.

Lemma write_write_same g k x y : write (write g k y) k x = write g k x.
Proof.
  unfold write, add_node. simpl.
  rewrite (dget_dset_same _ key_eqb_eq), (dset_dset_same _ key_eqb_eq).
  unfold dupdate. simpl. now rewrite (dset_dset_same _ string_eqb_eq).
Qed.

Lemma write_write_comm g k k' x y :
  k <> k' -> has_node g k = true ->
  write (write g k x) k' y = write (write g k' y) k x.
Proof.
  intros N H. unfold write, add_node. simpl.
  rewrite !(dget_dset_other _ key_eqb_eq) by congruence.
  f_equal. apply (dset_dset_comm _ key_eqb_eq); [exact N|].
  now apply (dmem_In _ key_eqb_eq).
Qed.

Definition apply_writes (ws : list (key * pyval)) (g : DiGraph) : DiGraph :=
  fold_left (fun g w => write g (fst w) (snd w)) ws g.

Lemma has_node_apply ws : forall g k,
  has_node g k = true -> has_node (apply_writes ws g) k = true.
Proof.
  induction ws as [|[k' x] ws IH]; intros g k H; simpl; [exact H|].
  apply IH. now apply has_node_write.
Qed.

(** A write to a present key moves behind later writes to other keys. *)
Lemma apply_writes_commute ws : forall g k x,
  has_node g k = true -> ~ In k (map fst ws) ->
  apply_writes ws (write g k x) = write (apply_writes ws g) k x.
Proof.
  induction ws as [|[k' y] ws IH]; intros g k x H N; simpl; [reflexivity|].
  simpl in N. rewrite write_write_comm; [| intro; subst; tauto | assumption].
  apply IH; [now apply has_node_write | tauto].
Qed.

(** A write to a present key is absorbed by a later write to the same key. *)
Lemma apply_writes_absorb ws : forall g k x,
  has_node g k = true -> In k (map fst ws) ->
  apply_writes ws (write g k x) = apply_writes ws g.
Proof.
  induction ws as [|[k' y] ws IH]; intros g k x H I; simpl; [destruct I|].
  destruct (key_eqb k k') eqn:E.
  - apply key_eqb_eq in E. subst k'. now rewrite write_write_same.
  - apply key_eqb_neq in E. simpl in I.
    rewrite write_write_comm by assumption.
    apply IH; [now apply has_node_write|].
    destruct I as [I|I]; [congruence | exact I].
Qed.

Lemma key_in_dec (k : key) (l : list key) : {In k l} + {~ In k l}.
Proof.
  apply in_dec. intros a b. destruct (key_eqb a b) eqn:E.
  - left. now apply key_eqb_eq.
  - right. now apply key_eqb_neq.
Qed.

Lemma apply_writes_twice ws : forall g,
  apply_writes ws (apply_writes ws g) = apply_writes ws g.
Proof.
  induction ws as [|[k x] ws IH]; intro g; simpl; [reflexivity|].
  fold (apply_writes ws (write g k x)).
  fold (apply_writes ws (write (apply_writes ws (write g k x)) k x)).
  assert (H1 : has_node (write g k x) k = true) by apply has_node_write_same.
  assert (H2 : has_node (apply_writes ws (write g k x)) k = true)
    by now apply has_node_apply.
  destruct (key_in_dec k (map fst ws)) as [I|N].
  - rewrite apply_writes_absorb by assumption. apply IH.
  - rewrite apply_writes_commute by assumption. rewrite IH.
    rewrite <- apply_writes_commute by assumption.
    now rewrite write_write_same.
Qed.

Section WithHash.
Variable Hash : key -> key.

Lemma store_write g c :
store Hash g c = write g (XCL._key_node Hash (node c)) (VCell c).
Proof. reflexivity. Qed.

Lemma fold_add_flat (l : list pyval) :
Forall (fun v => forall g,
XCL.__add__ Hash g v = fold_left (store Hash) (inserted v) g) l ->
forall g, fold_left (XCL.__add__ Hash) l g
      = fold_left (store Hash) (flat_map inserted l) g.
Proof.
induction 1 as [|v l Hv _ IH]; intro g; simpl; [reflexivity|].
now rewrite fold_left_app, <- Hv, IH.
Qed.

Lemma fold_add_flat_items (k : list (string * pyval)) :
Forall (fun kv => forall g,
XCL.__add__ Hash g (snd kv) = fold_left (store Hash) (inserted (snd kv)) g) k ->
forall g, fold_left (fun g kv => XCL.__add__ Hash g (snd kv)) k g
      = fold_left (store Hash) (flat_map (fun kv => inserted (snd kv)) k) g.
Proof.
induction 1 as [|v l Hv _ IH]; intro g; simpl; [reflexivity|].
now rewrite fold_left_app, <- Hv, IH.
Qed.

(** [graph + v] stores the cells of [v] one after the other. *)
Lemma add_is_fold (v : pyval) : forall g,
XCL.__add__ Hash g v = fold_left (store Hash) (inserted v) g.
Proof.
induction v using pyval_nested_ind; intro g; try reflexivity.
- simpl. now apply fold_add_flat.
- simpl. now apply fold_add_flat.
- cbn [XCL.__add__ inserted]. cbn [fold_left].
rewrite !fold_left_app.
rewrite <- IHv. rewrite <- (fold_add_flat H). 
rewrite <- (fold_add_flat_items H0). reflexivity.
Qed.

Lemma fold_store_writes (cs : list cell) : forall g,
fold_left (store Hash) cs g
= apply_writes (map (fun c => (XCL._key_node Hash (node c), VCell c)) cs) g.
Proof.
induction cs as [|c cs IH]; intro g; simpl; [reflexivity|].
rewrite IH. reflexivity.
Qed.

(** C6: inserting a cell a second time leaves the nodes, their payloads
and the edges as the first insertion left them. *)
Theorem C6_insert_idempotent (g : DiGraph) (c : pyval) :
XCL.__add__ Hash (XCL.__add__ Hash g c) c = XCL.__add__ Hash g c.
Proof.
rewrite !add_is_fold, !fold_store_writes. apply apply_writes_twice.
Qed.


(** [graph + v] makes a node of every cell inside [v]. *)
Lemma add_materialises (g : DiGraph) (v : pyval) (d : cell) :
In d (inserted v) ->
has_node (XCL.__add__ Hash g v) (XCL._key_node Hash (node d)) = true.
Proof.
rewrite add_is_fold. generalize (inserted v). intro cs. revert g.
induction cs as [|c cs IH]; intros g []; cbn [fold_left].
- subst c. rewrite fold_store_writes. apply has_node_apply.
rewrite store_write. apply has_node_write_same.
- now apply IH.
Qed.

End WithHash.

End InsertFacts.

(** ** Topological order *)

Module TopoFacts.
Import Py NX Order DictFacts.

Lemma In_remove_key k v rem :
  In k rem -> k = v \/ In k (remove_key v rem).
Proof.
  induction rem as [|x rem IH]; simpl; [tauto|].
  intros [H|H].
  - subst x. destruct (key_eqb k v) eqn:E.
    + left. now apply key_eqb_eq.
    + right. now left.
  - destruct (key_eqb x v) eqn:E; [now right|].
    destruct (IH H) as [?|?]; [now left | right; now right].
Qed.

Lemma remove_key_In k v rem : In k (remove_key v rem) -> In k rem.
Proof.
  induction rem as [|x rem IH]; simpl; [tauto|].
  destruct (key_eqb x v); [now right|]. simpl. intros [?|?]; auto.
Qed.

Lemma remove_key_length v rem :
  In v rem -> S (List.length (remove_key v rem)) = List.length rem.
Proof.
  induction rem as [|x rem IH]; simpl; [tauto|].
  intros H. destruct (key_eqb x v) eqn:E; [reflexivity|].
  simpl. f_equal. apply IH. destruct H as [H|H]; [|exact H].
  subst. rewrite key_eqb_refl in E. discriminate.
Qed.

Lemma ready_spec es rem v :
  ready es rem v = true <-> (forall u, In (u, v) es -> ~ In u rem).
Proof.
  unfold ready. rewrite negb_true_iff. split.
  - intros H u I R.
    assert (X : existsb (fun e => key_eqb (snd e) v && existsb (key_eqb (fst e)) rem) es = true).
    { apply existsb_exists. exists (u, v). split; [exact I|]. simpl.
      rewrite key_eqb_refl. simpl. apply existsb_exists. exists u.
      split; [exact R | apply key_eqb_refl]. }
    congruence.
  - intro H.
    destruct (existsb _ es) eqn:X; [|reflexivity].
    apply existsb_exists in X. destruct X as [[u w] [I X]]. simpl in X.
    apply andb_true_iff in X. destruct X as [X1 X2].
    apply key_eqb_eq in X1. subst w.
    apply existsb_exists in X2. destruct X2 as [u' [R X2]].
    apply key_eqb_eq in X2. subst u'. exfalso. exact (H u I R).
Qed.

(** When the generator does not raise, it has yielded every node. *)
Lemma topo_loop_complete fuel : forall es rem l,
  topo_loop fuel es rem = (l, false) -> forall k, In k rem -> In k l.
Proof.
  induction fuel as [|fuel IH]; intros es rem l; simpl.
  - destruct rem; [intros _ k []| discriminate].
  - destruct (find (ready es rem) rem) as [v|] eqn:F.
    + destruct (topo_loop fuel es (remove_key v rem)) as [l' bad] eqn:T.
      intros [= <- ->] k Hk.
      destruct (In_remove_key k v rem Hk) as [->|H]; [now left|].
      right. eapply IH; eauto.
    + destruct rem; [intros _ k []| discriminate].
Qed.

(** The generator only yields nodes. *)
Lemma topo_loop_sound fuel : forall es rem l bad,
  topo_loop fuel es rem = (l, bad) -> forall k, In k l -> In k rem.
Proof.
  induction fuel as [|fuel IH]; intros es rem l bad; simpl.
  - intros [= <- _] k [].
  - destruct (find (ready es rem) rem) as [v|] eqn:F.
    + destruct (topo_loop fuel es (remove_key v rem)) as [l' bad'] eqn:T.
      intros [= <- _] k [->|Hk].
      * apply find_some in F. tauto.
      * eapply remove_key_In. eapply IH; eauto.
    + intros [= <- _] k [].
Qed.

(** A node is yielded after the nodes its incoming edges come from. *)
Lemma topo_loop_order fuel : forall es rem l bad,
  topo_loop fuel es rem = (l, bad) ->
  forall l1 n l2, l = (l1 ++ n :: l2)%list ->
  forall u, In (u, n) es -> In u rem -> In u l1.
Proof.
  induction fuel as [|fuel IH]; intros es rem l bad; simpl.
  - intros [= <- _] l1 n l2 E. destruct l1; discriminate.
  - destruct (find (ready es rem) rem) as [v|] eqn:F.
    + destruct (topo_loop fuel es (remove_key v rem)) as [l' bad'] eqn:T.
      intros [= <- _] l1 n l2 E u I R.
      apply find_some in F. destruct F as [Fv Fr].
      destruct l1 as [|x l1]; simpl in E; injection E as E1 E2.
      * subst n. exfalso. exact (proj1 (ready_spec es rem v) Fr u I R).
      * subst x. destruct (In_remove_key u v rem R) as [->|R']; [now left|].
        right. eapply IH; eauto.
    + intros [= <- _] l1 n l2 E. destruct l1; discriminate.
Qed.

(** No node is yielded twice when the nodes are distinct. *)
Lemma remove_key_NoDup v rem : NoDup rem -> NoDup (remove_key v rem).
Proof.
  induction 1 as [|x rem N D IH]; simpl; [constructor|].
  destruct (key_eqb x v); [assumption|].
  constructor; [|exact IH]. intro I. apply N. eapply remove_key_In; eauto.
Qed.

Lemma remove_key_notin v rem : NoDup rem -> ~ In v (remove_key v rem).
Proof.
  induction 1 as [|x rem N _ IH]; simpl; [tauto|].
  destruct (key_eqb x v) eqn:E.
  - apply key_eqb_eq in E. now subst.
  - apply key_eqb_neq in E. simpl. tauto.
Qed.

Lemma topo_loop_NoDup fuel : forall es rem l bad,
  NoDup rem -> topo_loop fuel es rem = (l, bad) -> NoDup l.
Proof.
  induction fuel as [|fuel IH]; intros es rem l bad N; simpl.
  - intros [= <- _]. constructor.
  - destruct (find (ready es rem) rem) as [v|] eqn:F.
    + destruct (topo_loop fuel es (remove_key v rem)) as [l' bad'] eqn:T.
      intros [= <- _]. constructor.
      * intro I. apply (remove_key_notin v N).
        eapply topo_loop_sound; eauto.
      * eapply IH; [|eauto]. now apply remove_key_NoDup.
    + intros [= <- _]. constructor.
Qed.

(** Among finitely many nodes one has the least rank. *)
Lemma least_rank (rank : key -> nat) (rem : list key) :
  rem <> [] -> exists m, In m rem /\ forall k, In k rem -> (rank m <= rank k)%nat.
Proof.
  induction rem as [|x rem IH]; [congruence|]. intros _.
  destruct rem as [|y rem].
  - exists x. split; [now left|]. intros k [->|[]]. lia.
  - destruct IH as [m [Im Hm]]; [discriminate|].
    destruct (Nat.le_gt_cases (rank x) (rank m)).
    + exists x. split; [now left|]. intros k [->|Hk]; [lia|].
      specialize (Hm k Hk). lia.
    + exists m. split; [now right|]. intros k [->|Hk]; [lia|]. now apply Hm.
Qed.

(** The generator does not raise when the edges go upwards along a rank. *)
Lemma topo_loop_ranked rank fuel : forall es rem l bad,
  ranked es rank -> (List.length rem <= fuel)%nat ->
  topo_loop fuel es rem = (l, bad) -> bad = false.
Proof.
  induction fuel as [|fuel IH]; intros es rem l bad Rk Len; simpl.
  - destruct rem; simpl in Len; [|lia]. now intros [= _ <-].
  - destruct (find (ready es rem) rem) as [v|] eqn:F.
    + destruct (topo_loop fuel es (remove_key v rem)) as [l' bad'] eqn:T.
      intros [= _ <-]. eapply IH; [exact Rk| |exact T].
      apply find_some in F. destruct F as [Fv _].
      pose proof (remove_key_length v rem Fv). lia.
    + destruct rem as [|x rem]; [now intros [= _ <-]|].
      exfalso. destruct (least_rank rank (rem := x :: rem)) as [m [Im Hm]];
        [discriminate|].
      apply (find_none _ _ F) in Im.
      assert (R : ready es (x :: rem) m = true).
      { apply ready_spec. intros u I Ru. specialize (Hm u Ru).
        specialize (Rk u m I). lia. }
      congruence.
Qed.

(** A node on a cycle has a predecessor on a cycle. *)
Lemma cycle_pred (R : relation key) (x : key) :
  clos_trans key R x x -> exists u, R u x /\ clos_trans key R u u.
Proof.
  intro C. apply clos_trans_tn1 in C.
  inversion C as [y E|u z E P]; subst.
  - exists x. split; [exact E|]. now apply t_step.
  - exists u. split; [exact E|].
    apply clos_tn1_trans in P.
    eapply t_trans; [apply t_step; exact E | exact P].
Qed.

(** The generator raises when a node among those left lies on a cycle. *)
Lemma topo_loop_cycle fuel : forall es rem l bad,
  (forall y, clos_trans key (fun u v => In (u, v) es) y y -> In y rem) ->
  (exists x, clos_trans key (fun u v => In (u, v) es) x x) ->
  topo_loop fuel es rem = (l, bad) -> bad = true.
Proof.
  induction fuel as [|fuel IH]; intros es rem l bad Inv [x Cx]; simpl.
  - specialize (Inv x Cx). destruct rem; [destruct Inv|]. now intros [= _ <-].
  - destruct (find (ready es rem) rem) as [v|] eqn:F.
    + destruct (topo_loop fuel es (remove_key v rem)) as [l' bad'] eqn:T.
      intros [= _ <-]. eapply IH; [| exists x; exact Cx | exact T].
      intros y Cy. apply find_some in F. destruct F as [Fv Fr].
      destruct (In_remove_key y v rem (Inv y Cy)) as [->|H]; [|exact H].
      exfalso. destruct (cycle_pred Cy) as [u [E Cu]].
      exact (proj1 (ready_spec es rem v) Fr u E (Inv u Cu)).
    + specialize (Inv x Cx). destruct rem; [destruct Inv|]. now intros [= _ <-].
Qed.

Lemma topological_sort_cycle (g : DiGraph) :
  edges_closed g -> has_cycle g -> snd (topological_sort g) = true.
Proof.
  intros W [x C]. unfold topological_sort.
  destruct (topo_loop _ _ _) as [l bad] eqn:T. simpl.
  eapply topo_loop_cycle; [| exists x; exact C | exact T].
  intros y Cy. destruct (cycle_pred Cy) as [u [E _]].
  exact (proj2 (W u y E)).
Qed.

Lemma topological_sort_ranked (g : DiGraph) rank :
  ranked (map fst (_edges g)) rank -> snd (topological_sort g) = false.
Proof.
  intro R. unfold topological_sort.
  destruct (topo_loop _ _ _) as [l bad] eqn:T. simpl.
  eapply topo_loop_ranked; [exact R | | exact T]. lia.
Qed.

Lemma topological_sort_complete (g : DiGraph) l :
  topological_sort g = (l, false) ->
  forall k, In k (map fst (_node g)) -> In k l.
Proof. unfold topological_sort. apply topo_loop_complete. Qed.

Lemma topological_sort_sound (g : DiGraph) l bad :
  topological_sort g = (l, bad) ->
  forall k, In k l -> In k (map fst (_node g)).
Proof. unfold topological_sort. apply topo_loop_sound. Qed.

Lemma topological_sort_order (g : DiGraph) l bad :
  topological_sort g = (l, bad) ->
  forall l1 n l2, l = (l1 ++ n :: l2)%list ->
  forall u, edge g u n -> In u (map fst (_node g)) -> In u l1.
Proof. unfold topological_sort, edge. apply topo_loop_order. Qed.

Lemma topological_sort_NoDup (g : DiGraph) l bad :
  NoDup (map fst (_node g)) -> topological_sort g = (l, bad) -> NoDup l.
Proof. unfold topological_sort. intros N T. eapply topo_loop_NoDup; eauto. Qed.

End TopoFacts.

(** ** Cycles: [from_id], [to_table] and [metadata] *)

Module CycleFacts.
Import Py NX Order Cyclic TopoFacts.

Section WithHash.
Variable Hash : key -> key.

Definition on_nodes_only (o : outcome DiGraph) : outcome DiGraph :=
match o with
| Ok h => Ok (nodes_only h)
| Raise e => Raise e
end.

Lemma to_id_step_nodes_only g n :
XCL.to_id_step Hash (nodes_only g) n = on_nodes_only (XCL.to_id_step Hash g n).
Proof.
unfold XCL.to_id_step, XCL.__getitem__, node_attrs. simpl.
destruct (dget key_eqb (_node g) (XCL._key_node Hash n)); simpl; [|reflexivity].
destruct (DAG._as_value a); reflexivity.
Qed.

Lemma to_id_fold_nodes_only l : forall g,
XCL.ofold (XCL.to_id_step Hash) l (nodes_only g)
= on_nodes_only (XCL.ofold (XCL.to_id_step Hash) l g).
Proof.
induction l as [|n l IH]; intro g; simpl; [reflexivity|].
rewrite to_id_step_nodes_only.
destruct (XCL.to_id_step Hash g n); simpl; [apply IH | reflexivity].
Qed.

(** [metadata] never looks at the edges. *)
Lemma metadata_nodes_only g :
XCL.metadata Hash g = XCL.metadata Hash (nodes_only g).
Proof.
unfold XCL.metadata, XCL.to_id.
change (_node (nodes_only g)) with (_node g).
rewrite to_id_fold_nodes_only.
destruct (XCL.ofold (XCL.to_id_step Hash) (map fst (_node g)) g); reflexivity.
Qed.

(** C3 (as amended): when the edges have a cycle, [to_table] raises
[NetworkXUnfeasible] before it builds a row; [from_id] never returns a
graph, and raises [NetworkXUnfeasible] unless rewriting one of the
nodes yielded before the cycle shows has raised already; [metadata]
does not read the edges at all. *)
Theorem C3_cycle_rejected_by_topological_operations (g : DiGraph) :
edges_closed g -> has_cycle g ->
XCL.to_table Hash g = Raise NetworkXUnfeasible
/\ (forall r, XCL.from_id Hash g <> Ok r)
/\ ((exists r, XCL.ofold (XCL.from_id_step Hash) (fst (topological_sort g)) g = Ok r) ->
XCL.from_id Hash g = Raise NetworkXUnfeasible)
/\ XCL.metadata Hash g = XCL.metadata Hash (nodes_only g).
Proof.
intros W C. pose proof (topological_sort_cycle W C) as B.
unfold XCL.to_table, XCL.from_id.
destruct (topological_sort g) as [order bad]. simpl in B. subst bad.
split; [reflexivity|]. split; [|split].
- intro r. destruct (XCL.ofold _ order g); simpl; discriminate.
- simpl. intros [r ->]. reflexivity.
- apply metadata_nodes_only.
Qed.
End WithHash.

Lemma cyclic_graph_closed : edges_closed cyclic_graph.
Proof.
  intros u v [E|[]]. injection E as <- <-. split; left; reflexivity.
Qed.

Lemma cyclic_graph_cycle : has_cycle cyclic_graph.
Proof.
  exists (KInt 376). apply t_step. left. reflexivity.
Qed.

Lemma C3_cycle_rejected_by_topological_operations_witness :
  XCL.to_table Scenario.Hash0 cyclic_graph = Raise NetworkXUnfeasible
  /\ XCL.from_id Scenario.Hash0 cyclic_graph = Raise NetworkXUnfeasible.
Proof.
  destruct (C3_cycle_rejected_by_topological_operations Scenario.Hash0
              cyclic_graph_closed cyclic_graph_cycle) as [T [_ [F _]]].
  split; [exact T|]. apply F. eexists. reflexivity.
Defined.

(** C3 fails as stated: the edges of [cyclic_graph] hold the cycle from [x]
    to [x], and [metadata] returns the metadata of its node. *)
Lemma C3_counterexample :
  has_cycle cyclic_graph
  /\ XCL.metadata Scenario.Hash0 cyclic_graph
     = Ok [(KInt 376,
            VDict [("node", VStr "x"); ("function", VFun "add");
                   ("args", VList [VStr "@x"; VInt 1]); ("kwargs", VDict [])])].
Proof.
  split; [exact cyclic_graph_cycle | reflexivity].
Qed.

End CycleFacts.

(** ** What a failed call leaves behind *)

Module FailureFacts.
Import Py NX Calls DictFacts ValueInd.

Lemma extends_refl g : extends g g.
Proof. split; auto. Qed.

Lemma extends_trans g1 g2 g3 : extends g1 g2 -> extends g2 g3 -> extends g1 g3.
Proof. intros [A B] [C D]. split; auto. Qed.

Lemma extends_add_absent g k :
  has_node g k = false -> extends g (add_node g k []).
Proof.
  intro H. split; [|auto]. intros k' d G. unfold add_node. simpl.
  rewrite (dget_dset_other _ key_eqb_eq); [exact G|].
  intros ->. unfold has_node, dmem in H. rewrite G in H. discriminate.
Qed.

Lemma extends_add_edge g u v : extends g (add_edge g u v []).
Proof.
  unfold add_edge.
  set (g1 := if has_node g u then g else add_node g u []).
  set (g2 := if has_node g1 v then g1 else add_node g1 v []).
  assert (E1 : extends g g1).
  { unfold g1. destruct (has_node g u) eqn:H;
      [apply extends_refl | now apply extends_add_absent]. }
  assert (E2 : extends g1 g2).
  { unfold g2. destruct (has_node g1 v) eqn:H;
      [apply extends_refl | now apply extends_add_absent]. }
  apply (extends_trans E1). apply (extends_trans E2).
  split; simpl; [auto|]. intros e d G.
  destruct (edge_eqb_eq (u, v) e) as [_ X].
  destruct (edge_eqb (u, v) e) eqn:E.
  - apply edge_eqb_eq in E. subst e. rewrite G.
    now rewrite (dget_dset_same _ edge_eqb_eq).
  - rewrite (dget_dset_other _ edge_eqb_eq); [exact G|].
    intro Y. specialize (X Y). discriminate.
Qed.

Section WithHash.
Variable Hash : key -> key.

(** A property of [self] that a method keeps, whether it returns or
raises. *)
Definition preserves {A} (I : DiGraph -> Prop) (m : XCL.M A) : Prop :=
forall g, I g -> I (snd (m g)).

Section Preserved.
Variable I : DiGraph -> Prop.
Hypothesis I_edge : forall g u v,
I g -> I (XCL.__setitem__ Hash g (EdgeKey u v) (VDict [])).

Lemma preserves_ret {A} (a : A) : preserves I (XCL.ret a).
Proof. intros g H. exact H. Qed.

Lemma preserves_raise {A} e : preserves I (@XCL.raise A e).
Proof. intros g H. exact H. Qed.

Lemma preserves_lift {A} (f : DiGraph -> outcome A) : preserves I (XCL.lift f).
Proof. intros g H. exact H. Qed.

Lemma preserves_bind {A B} (m : XCL.M A) (f : A -> XCL.M B) :
preserves I m -> (forall a, preserves I (f a)) -> preserves I (XCL.bind m f).
Proof.
intros Hm Hf g H. unfold XCL.bind. specialize (Hm g H).
destruct (m g) as [[a|e] g']; simpl in *; [|exact Hm].
exact (Hf a g' Hm).
Qed.

Lemma preserves_mfor {A} (f : A -> XCL.M unit) (l : list A) :
Forall (fun x => preserves I (f x)) l -> preserves I (XCL.mfor f l).
Proof.
induction 1 as [|x l Hx _ IH]; simpl; [apply preserves_ret|].
apply preserves_bind; [exact Hx | intros _; exact IH].
Qed.

Lemma preserves_set_parent p c : preserves I (XCL.set_parent Hash p c).
Proof. intros g H. now apply I_edge. Qed.

Lemma preserves_walk_parent (parent : pyval) : forall on_none c,
preserves I on_none -> preserves I (XCL.walk_parent Hash on_none c parent).
Proof.
induction parent using pyval_nested_ind; intros on_none c0 Hn; simpl;
try apply preserves_ret; try exact Hn.
- destruct (PyStr._is_ref s); [apply preserves_set_parent | apply preserves_ret].
- apply preserves_mfor. eapply Forall_impl; [|exact H]. simpl. auto.
- apply preserves_mfor. eapply Forall_impl; [|exact H]. simpl. auto.
- apply preserves_set_parent.
Qed.

Lemma preserves_walk_dependencies c :
preserves I (XCL.walk_dependencies Hash c).
Proof.
unfold XCL.walk_dependencies.
repeat (apply preserves_bind; [|intros _]);
apply preserves_walk_parent; apply preserves_raise.
Qed.

Lemma preserves_add_parents_cell c parent :
preserves I (XCL.add_parents_cell Hash c parent).
Proof. apply preserves_walk_parent. apply preserves_walk_dependencies. Qed.

Lemma preserves_walk_cell (cell : pyval) : forall on_none parent,
preserves I on_none -> preserves I (XCL.walk_cell Hash on_none parent cell).
Proof.
induction cell using pyval_nested_ind; intros on_none parent Hn; simpl;
try apply preserves_ret; try exact Hn.
- destruct (PyStr._is_ref s); [|apply preserves_ret].
apply preserves_bind; [apply preserves_lift|].
intros [ | | | | | | |c0]; try apply preserves_ret.
apply preserves_add_parents_cell.
- apply preserves_mfor. eapply Forall_impl; [|exact H]. simpl. auto.
- apply preserves_mfor. eapply Forall_impl; [|exact H]. simpl. auto.
- apply preserves_add_parents_cell.
Qed.

Lemma preserves_walk_all parent : preserves I (XCL.walk_all Hash parent).
Proof.
unfold XCL.walk_all. apply preserves_bind; [apply preserves_lift|].
intro l. apply preserves_mfor. apply Forall_forall. intros x _.
apply preserves_walk_cell. apply preserves_raise.
Qed.

(** Whatever every edge insertion keeps, [add_parents] keeps. *)
Lemma preserves_add_parents cell parent :
preserves I (XCL.add_parents Hash cell parent).
Proof. apply preserves_walk_cell. apply preserves_walk_all. Qed.
End Preserved.

(** C4 (as amended): [from_id] and [to_json] leave [self] as it is,
whether they fail or not; [add_parents] works on [self] itself and
does not undo what it has done when it fails, but it only adds: every
node and every edge that was there is still there with its payload. *)
Theorem C4_self_after_a_call (g : DiGraph) :
snd (from_id_call Hash g) = g
/\ snd (to_json_call Hash g) = g
/\ forall cell parent, extends g (snd (XCL.add_parents Hash cell parent g)).
Proof.
split; [reflexivity|]. split; [reflexivity|].
intros cell parent.
apply (@preserves_add_parents (extends g)); [|apply extends_refl].
intros g' u v H. apply (extends_trans H). apply extends_add_edge.
Qed.
End WithHash.

(** C4 fails as stated: [g.add_parents(['@c', '@zz'])] on the graph of the
    concrete scenario raises [KeyError] at ['@zz'], after the edges for
    ['@c'] have been added to [g]. *)
Lemma C4_counterexample :
  fst (XCL.add_parents Scenario.Hash0 (VList [VStr "@c"; VStr "@zz"]) VNone scenario_graph)
    = Raise (KeyError (NodeKey (KInt 96890)))
  /\ _edges scenario_graph = []
  /\ map fst (_edges (snd (XCL.add_parents Scenario.Hash0
                             (VList [VStr "@c"; VStr "@zz"]) VNone scenario_graph)))
     = [(KInt 353, KInt 355); (KInt 354, KInt 355)].
Proof. split; [reflexivity|]. split; reflexivity. Qed.

End FailureFacts.

(** ** Dangling references *)

Module RefFacts.
Import Py NX Order Deps Refs DictFacts ValueInd TopoFacts InsertFacts.

Section WithHash.
Variable Hash : key -> key.

Lemma getitem_node g k :
XCL.__getitem__ Hash g (NodeKey k)
= match dget key_eqb (_node g) (XCL._key_node Hash k) with
| Some d => Ok (DAG._as_value d)
| None => Raise (KeyError (NodeKey (XCL._key_node Hash k)))
end.
Proof.
unfold XCL.__getitem__, node_attrs. simpl.
destruct (dget key_eqb (_node g) (XCL._key_node Hash k)); reflexivity.
Qed.

(** The outcome is a [KeyError] that names a key absent from [g]. *)
Definition missing {A} (g : DiGraph) (o : outcome A) : Prop :=
exists k, o = Raise (KeyError (NodeKey k)) /\ has_node g k = false.

Definition present (g : DiGraph) (r : key) : Prop :=
has_node g (XCL._key_node Hash r) = true.

Definition resolves (g : DiGraph) (v : pyval) : Prop :=
(exists v', XCL._from_id Hash g v = Ok v' /\ Forall (present g) (refs v))
\/ missing g (XCL._from_id Hash g v).

Lemma omap_resolves g (l : list pyval) :
Forall (resolves g) l ->
(exists l', omap (XCL._from_id Hash g) l = Ok l'
        /\ Forall (present g) (flat_map refs l))
\/ missing g (omap (XCL._from_id Hash g) l).
Proof.
induction 1 as [|v l Hv _ IH]; simpl.
- left. exists []. split; [reflexivity | constructor].
- destruct Hv as [[v' [E P]]|[k [E A]]].
+ rewrite E. simpl.
destruct IH as [[l' [El Pl]]|[k [El A]]].
* rewrite El. simpl. left. exists (v' :: l'). split; [reflexivity|].
  apply Forall_app. now split.
* rewrite El. simpl. right. exists k. now split.
+ rewrite E. simpl. right. exists k. now split.
Qed.

Lemma omap_items_resolves g (l : list (string * pyval)) :
Forall (fun kv => resolves g (snd kv)) l ->
(exists l', omap_items (XCL._from_id Hash g) l = Ok l'
        /\ Forall (present g) (flat_map (fun kv => refs (snd kv)) l))
\/ missing g (omap_items (XCL._from_id Hash g) l).
Proof.
induction 1 as [|[n v] l Hv _ IH]; simpl.
- left. exists []. split; [reflexivity | constructor].
- simpl in Hv. destruct Hv as [[v' [E P]]|[k [E A]]].
+ rewrite E. simpl.
destruct IH as [[l' [El Pl]]|[k [El A]]].
* rewrite El. simpl. left. exists ((n, v') :: l'). split; [reflexivity|].
  apply Forall_app. now split.
* rewrite El. simpl. right. exists k. now split.
+ rewrite E. simpl. right. exists k. now split.
Qed.

(** [_from_id] either resolves every reference of a value, or raises the
[KeyError] of a key that the graph does not hold. *)
Lemma from_id_resolves g (v : pyval) : resolves g v.
Proof.
induction v using pyval_nested_ind;
try (left; eexists; split; [reflexivity | constructor]).
- unfold resolves. simpl. destruct (PyStr._is_ref s) eqn:R.
+ rewrite getitem_node.
destruct (dget key_eqb (_node g) _) eqn:G.
* left. eexists. split; [reflexivity|]. constructor; [|constructor].
  unfold present, has_node, dmem. now rewrite G.
* right. eexists. split; [reflexivity|].
  unfold has_node, dmem. now rewrite G.
+ left. eexists. split; [reflexivity | constructor].
- unfold resolves. simpl.
destruct (omap_resolves H) as [[l' [E P]]|[k [E A]]]; rewrite E; simpl.
+ left. eexists. split; [reflexivity | exact P].
+ right. exists k. now split.
- unfold resolves. simpl.
destruct (omap_resolves H) as [[l' [E P]]|[k [E A]]]; rewrite E; simpl.
+ left. eexists. split; [reflexivity | exact P].
+ right. exists k. now split.
Qed.

Lemma all_resolve g (l : list pyval) : Forall (resolves g) l.
Proof. apply Forall_forall. intros v _. apply from_id_resolves. Qed.

Lemma all_items_resolve g (l : list (string * pyval)) :
Forall (fun kv => resolves g (snd kv)) l.
Proof. apply Forall_forall. intros v _. apply from_id_resolves. Qed.

(** One round of the loop of [from_id] on a node that holds a cell. *)
Lemma from_id_step_cases result m c :
dget key_eqb (_node result) (XCL._key_node Hash m) = Some [("value", VCell c)] ->
(exists c', XCL.from_id_step Hash result m
        = Ok (write result (XCL._key_node Hash m) (VCell c'))
        /\ Forall (present result) (cell_refs c))
\/ missing result (XCL.from_id_step Hash result m).
Proof.
intro G. unfold XCL.from_id_step. rewrite getitem_node, G. simpl.
destruct (from_id_resolves result (function c)) as [[f' [Ef Pf]]|[k [E A]]];
[rewrite Ef; simpl | rewrite E; right; exists k; now split].
destruct (omap_resolves (all_resolve result (args c))) as [[a' [Ea Pa]]|[k [E A]]];
[rewrite Ea; simpl | rewrite E; right; exists k; now split].
destruct (omap_items_resolves (all_items_resolve result (kwargs c)))
as [[k' [Ek Pk]]|[k [E A]]];
[rewrite Ek; simpl | rewrite E; right; exists k; now split].
left. eexists. split; [reflexivity|].
unfold cell_refs. apply Forall_app. split; [exact Pf|].
apply Forall_app. now split.
Qed.

Lemma write_keys g k x :
In k (map fst (_node g)) -> map fst (_node (write g k x)) = map fst (_node g).
Proof. intro H. unfold write, add_node. simpl. now apply (dset_keys_present _ key_eqb_eq). Qed.

Lemma write_cell_keeps_cells g k c :
cells_at g -> cells_at (write g k (VCell c)).
Proof.
intros C k' d. unfold write, add_node. simpl.
destruct (key_eqb k k') eqn:E.
- apply key_eqb_eq in E. subst k'. rewrite (dget_dset_same _ key_eqb_eq).
intros [= <-]. destruct (dget key_eqb (_node g) k) as [d0|] eqn:G.
+ destruct (C k d0 G) as [c0 ->]. exists c. reflexivity.
+ exists c. reflexivity.
- apply key_eqb_neq in E. rewrite (dget_dset_other _ key_eqb_eq) by exact E.
apply C.
Qed.

Lemma has_node_same_keys g g' k :
map fst (_node g') = map fst (_node g) -> has_node g' k = has_node g k.
Proof.
intro E. unfold has_node.
destruct (dmem key_eqb (_node g) k) eqn:A.
- apply (dmem_In _ key_eqb_eq). rewrite E. now apply (dmem_In _ key_eqb_eq).
- destruct (dmem key_eqb (_node g') k) eqn:B; [|reflexivity].
apply (dmem_In _ key_eqb_eq) in B. rewrite E in B.
apply (dmem_In _ key_eqb_eq) in B. congruence.
Qed.

(** The loop of [from_id] stops with the [KeyError] of an absent key as
soon as it reaches a cell with a dangling reference, if not before. *)
Lemma from_id_loop_missing (g : DiGraph) (order : list key) : forall result,
map fst (_node result) = map fst (_node g) ->
cells_at result ->
(forall m, In m order -> In m (map fst (_node g)) /\ stable Hash m) ->
(exists n c r, In n order
/\ dget key_eqb (_node result) n = Some [("value", VCell c)]
/\ In r (cell_refs c) /\ has_node g (XCL._key_node Hash r) = false) ->
missing g (XCL.ofold (XCL.from_id_step Hash) order result).
Proof.
induction order as [|m order IH]; intros result K C O [n [c [r [I [G [R A]]]]]].
- destruct I.
- simpl. destruct (O m (or_introl eq_refl)) as [Im Sm].
assert (Pm : exists d, dget key_eqb (_node result) m = Some d).
{ destruct (dget key_eqb (_node result) m) eqn:X; [eauto|].
apply (dget_None_notin _ key_eqb_eq) in X. rewrite K in X. contradiction. }
destruct Pm as [d Gm]. destruct (C m d Gm) as [cm ->].
assert (Gm' : dget key_eqb (_node result) (XCL._key_node Hash m)
            = Some [("value", VCell cm)]) by (rewrite Sm; exact Gm).
destruct (from_id_step_cases result m Gm') as [[c' [E P]]|[k [E Ak]]].
+ rewrite E. simpl. rewrite Sm.
assert (N : n <> m).
{ intros ->. rewrite Gm in G. injection G as <-.
  rewrite Forall_forall in P. specialize (P r R). unfold present in P.
  rewrite (has_node_same_keys _ _ _ K) in P. congruence. }
apply IH.
* rewrite write_keys; [exact K | rewrite K; exact Im].
* now apply write_cell_keeps_cells.
* intros m' Hm'. apply O. now right.
* exists n, c, r. repeat split; try assumption.
  -- destruct I as [I|I]; [congruence | exact I].
  -- unfold write, add_node. simpl.
     rewrite (dget_dset_other _ key_eqb_eq); [exact G | congruence].
+ rewrite E. simpl. exists k. split; [reflexivity|].
now rewrite <- (has_node_same_keys _ _ _ K).
Qed.
End WithHash.

End RefFacts.

(** ** C7: a reference to a node that the graph does not hold *)

Module DanglingFacts.
Import Py NX Order Deps Refs DictFacts TopoFacts RefFacts.

(** C7 (as amended): in a graph whose nodes all hold cells, whose keys are
    fixed by the key normalisation and whose edges are acyclic, the keys
    and the reference strings being legible (ASCII, of at most 4300
    characters), a cell with a reference to a key that the graph does not
    hold makes [from_id] raise a [KeyError] naming a key absent from the
    graph; resolving such a reference directly raises the [KeyError] of its
    key. *)
Theorem C7_dangling_reference_raises_KeyError
  (Hash : key -> key) (g : DiGraph) (rank : key -> nat) (n : key) (c : cell) (r : key) :
  all_cells g -> keys_stable Hash g -> ranked (map fst (_edges g)) rank ->
  legible_keys g -> legible_refs g ->
  dget key_eqb (_node g) n = Some [("value", VCell c)] ->
  In r (cell_refs c) ->
  has_node g (XCL._key_node Hash r) = false ->
  (exists k, XCL.from_id Hash g = Raise (KeyError (NodeKey k)) /\ has_node g k = false)
  /\ (forall s, PyStr._is_ref s = true -> PyStr.readable s = true ->
        has_node g (XCL._key_node Hash (XCL.parse_key (PyStr.tail s))) = false ->
        XCL._from_id Hash g (VStr s)
        = Raise (KeyError (NodeKey (XCL._key_node Hash (XCL.parse_key (PyStr.tail s)))))).
Proof.
  intros AC KS RK _ _ G R A. split.
  - unfold XCL.from_id.
    pose proof (topological_sort_ranked g RK) as B.
    destruct (topological_sort g) as [order bad] eqn:T. simpl in B. subst bad.
    assert (M : missing g (XCL.ofold (XCL.from_id_step Hash) order g)).
    { apply from_id_loop_missing.
      - reflexivity.
      - intros k d H. apply (AC k d). now apply (dget_In _ key_eqb_eq).
      - intros m Hm. pose proof (topological_sort_sound g T m Hm) as I.
        split; [exact I | now apply KS].
      - exists n, c, r. repeat split; try assumption.
        apply (topological_sort_complete g T).
        apply (dget_In _ key_eqb_eq) in G.
        apply in_map_iff. now exists (n, [("value", VCell c)]). }
    destruct M as [k [E Ak]]. rewrite E. simpl. exists k. now split.
  - intros s Rs _ As. cbn [XCL._from_id]. rewrite Rs, getitem_node.
    unfold has_node, dmem in As.
    destruct (dget key_eqb (_node g)
                (XCL._key_node Hash (XCL.parse_key (PyStr.tail s))));
      [discriminate | reflexivity].
Qed.

Lemma dangling_graph_cells : all_cells dangling_graph.
Proof.
  intros k d H. vm_compute in H.
  destruct H as [H|[H|[]]]; inversion H; subst; eexists; reflexivity.
Qed.

Lemma dangling_graph_stable : keys_stable Scenario.Hash0 dangling_graph.
Proof.
  intros k H. vm_compute in H. destruct H as [<-|[<-|[]]]; reflexivity.
Qed.

Lemma C7_dangling_reference_raises_KeyError_witness :
  (exists k, XCL.from_id Scenario.Hash0 dangling_graph = Raise (KeyError (NodeKey k))
             /\ has_node dangling_graph k = false)
  /\ XCL._from_id Scenario.Hash0 dangling_graph (VStr "@zz")
     = Raise (KeyError (NodeKey (KInt 96890))).
Proof.
  destruct (@C7_dangling_reference_raises_KeyError Scenario.Hash0 dangling_graph
              (fun _ => O) (KInt 355) dangling_cell (KStr "zz")) as [F D].
  - exact dangling_graph_cells.
  - exact dangling_graph_stable.
  - intros u v [].
  - intros k H. vm_compute in H. destruct H as [<-|[<-|[]]]; reflexivity.
  - intros k c H. vm_compute in H.
    destruct H as [H|[H|[]]]; injection H as <- <-; reflexivity.
  - reflexivity.
  - simpl. right. left. reflexivity.
  - reflexivity.
  - split; [exact F|]. apply (D "@zz"); reflexivity.
Defined.

(** C7 fails as stated: the cell of [placeholder_graph] refers to ['@zz'],
    no node is stored at that key, and [from_id] raises [AttributeError] at
    the node that the edge created without a payload. *)
Lemma C7_counterexample :
  dget key_eqb (_node placeholder_graph) (KInt 355) = Some [("value", VCell dangling_cell)]
  /\ In (KStr "zz") (cell_refs dangling_cell)
  /\ has_node placeholder_graph (XCL._key_node Scenario.Hash0 (KStr "zz")) = false
  /\ XCL.from_id Scenario.Hash0 placeholder_graph = Raise (AttributeError "function").
Proof.
  split; [reflexivity|]. split; [simpl; right; left; reflexivity|].
  split; reflexivity.
Qed.

End DanglingFacts.

(** ** Every payload is a cell *)

Module PayloadFacts.
Import Py NX Order Deps Refs DictFacts ValueInd TopoFacts InsertFacts RefFacts
       FailureFacts.


Lemma In_dget_NoDup {V} (d : list (key * V)) k v :
  NoDup (map fst d) -> In (k, v) d -> dget key_eqb d k = Some v.
Proof.
  induction d as [|[k0 v0] d IH]; simpl; [tauto|].
  intros N [E|I].
  - injection E as -> ->. now rewrite key_eqb_refl.
  - inversion N as [|? ? N1 N2]; subst.
    destruct (key_eqb k0 k) eqn:E.
    + apply key_eqb_eq in E. subst k0. exfalso. apply N1.
      apply in_map_iff. now exists (k, v).
    + now apply IH.
Qed.




Section WithHash.
Variable Hash : key -> key.

Lemma key_node_hashed k : exists x, XCL._key_node Hash k = Hash x.
Proof.
destruct k as [z|s]; simpl; [eauto|]. destruct (PyStr._is_ref s); eauto.
Qed.







Hypothesis Hash_stable : forall k, stable Hash (Hash k).

End WithHash.

End PayloadFacts.

(** ** C10: the payloads of an XCL graph are cells *)

Module CellInvariant.
Import Py NX Order Deps Refs Script DictFacts ValueInd TopoFacts InsertFacts RefFacts
       FailureFacts PayloadFacts.

Section WithHash.
Variable Hash : key -> key.





Hypothesis Hash_stable : forall k, stable Hash (Hash k).




Variable call : string -> list pyval -> list (string * pyval) -> outcome pyval.












End WithHash.

Lemma Hash0_stable k : stable Scenario.Hash0 (Scenario.Hash0 k).
Proof. destruct k; reflexivity. Qed.



End CellInvariant.

(** ** C5: the concrete scenario *)

Module ScenarioFacts.
Import Py NX Deps DictFacts Scenario.

Lemma key_neqb x y : x <> y -> key_eqb x y = false /\ key_eqb y x = false.
Proof. intro H. split; apply key_eqb_neq; congruence. Qed.

Section WithHash.
Variable Hash : key -> key.
Variable call : string -> list pyval -> list (string * pyval) -> outcome pyval.

Let a := KStr "a".
Let b := KStr "b".
Let c := KStr "c".

Hypothesis Hab : Hash a <> Hash b.
Hypothesis Hac : Hash a <> Hash c.
Hypothesis Hbc : Hash b <> Hash c.
Hypothesis Sa : stable Hash (Hash a).
Hypothesis Sb : stable Hash (Hash b).
Hypothesis Sc : stable Hash (Hash c).
Hypothesis call_add : call "add" [VInt 1; VInt 2] [] = Ok (VInt 3).

(** C5: with a digest that tells the three ids apart and a callable [add]
that adds, [g = XCL() + c] holds nodes for [a], [b] and [c] (as any
insertion makes a node of every cell inside the inserted value);
[g.add_parents()] returns and leaves the edges [(a, c)] and [(b, c)];
and [g['c']()] is 3. *)
Theorem C5_concrete_scenario :
let g := XCL.__add__ Hash empty (VCell c_cell) in
(forall g0 v d, In d (inserted v) ->
XCL.__contains__ Hash (XCL.__add__ Hash g0 v) (NodeKey (node d)) = true)
/\ XCL.__contains__ Hash g (NodeKey a) = true
/\ XCL.__contains__ Hash g (NodeKey b) = true
/\ XCL.__contains__ Hash g (NodeKey c) = true
/\ exists g', XCL.add_parents Hash VNone VNone g = (Ok tt, g')
 /\ XCL.__contains__ Hash g' (EdgeKey a c) = true
 /\ XCL.__contains__ Hash g' (EdgeKey b c) = true
 /\ obind (XCL.__getitem__ Hash g' (NodeKey c)) (CellModel.resolve call)
    = Ok (VInt 3).
Proof.
destruct (key_neqb Hab) as [E1 E2]. destruct (key_neqb Hac) as [E3 E4].
destruct (key_neqb Hbc) as [E5 E6].
assert (Ka : XCL._key_node Hash a = Hash a) by reflexivity.
assert (Kb : XCL._key_node Hash b = Hash b) by reflexivity.
assert (Kc : XCL._key_node Hash c = Hash c) by reflexivity.
unfold stable in Sa, Sb, Sc.
assert (G : XCL.__add__ Hash empty (VCell c_cell)
        = mkGraph [(Hash c, [("value", VCell c_cell)]);
                   (Hash a, [("value", VCell a_cell)]);
                   (Hash b, [("value", VCell b_cell)])] []).
{ unfold c_cell, a_cell, b_cell, add_node.
repeat (cbn -[key_eqb XCL._key_node]; fold a b c; unfold add_node;
      rewrite ?Ka, ?Kb, ?Kc, ?E1, ?E2, ?E3, ?E4, ?E5, ?E6, ?key_eqb_refl).
reflexivity. }
intro g. subst g. split; [intros g0 v d I; now apply InsertFacts.add_materialises|].
rewrite G. clear G.
unfold XCL.__contains__, XCL._key, has_node, has_edge, dmem.
repeat (cbn -[key_eqb XCL._key_node]; fold a b c;
    rewrite ?Ka, ?Kb, ?Kc, ?E1, ?E2, ?E3, ?E4, ?E5, ?E6, ?key_eqb_refl).
repeat (split; [reflexivity|]).
eexists. split.
- unfold XCL.add_parents, XCL.walk_cell, XCL.walk_all, XCL.bind, XCL.lift,
XCL.__getitem__, node_attrs, c_cell, a_cell, b_cell.
repeat (cbn -[key_eqb XCL._key_node]; fold a b c;
      unfold XCL.ret, add_edge, has_node, dmem, edge_eqb;
      rewrite ?Ka, ?Kb, ?Kc, ?Sa, ?Sb, ?Sc,
        ?E1, ?E2, ?E3, ?E4, ?E5, ?E6, ?key_eqb_refl).
reflexivity.
- unfold XCL.__getitem__, node_attrs, edge_eqb, c_cell, a_cell, b_cell.
repeat (cbn -[key_eqb XCL._key_node]; fold a b c;
      rewrite ?Ka, ?Kb, ?Kc, ?Sa, ?Sb, ?Sc,
        ?E1, ?E2, ?E3, ?E4, ?E5, ?E6, ?key_eqb_refl, ?call_add).
repeat split.
Qed.
End WithHash.

Lemma C5_concrete_scenario_witness :
  exists g', XCL.add_parents Hash0 VNone VNone (XCL.__add__ Hash0 empty (VCell c_cell))
             = (Ok tt, g')
    /\ XCL.__contains__ Hash0 g' (EdgeKey (KStr "a") (KStr "c")) = true
    /\ XCL.__contains__ Hash0 g' (EdgeKey (KStr "b") (KStr "c")) = true
    /\ obind (XCL.__getitem__ Hash0 g' (NodeKey (KStr "c"))) (CellModel.resolve call0)
       = Ok (VInt 3).
Proof.
  destruct (@C5_concrete_scenario Hash0 call0) as [_ [_ [_ [_ H]]]];
    try discriminate; try reflexivity.
  exact H.
Defined.

End ScenarioFacts.

(** ** Reference strings lead back to their ids *)

Module RefStrings.
Import Py PyStr RoundTrip.

Lemma all_digits_uint (d : Decimal.uint) :
  all_digits (NilEmpty.string_of_uint d) = true.
Proof. induction d; simpl; auto. Qed.

Lemma string_of_uint_nonempty (d : Decimal.uint) :
  d <> Decimal.Nil -> NilEmpty.string_of_uint d <> EmptyString.
Proof. destruct d; simpl; congruence. Qed.

Lemma isdigit_uint (d : Decimal.uint) :
  d <> Decimal.Nil -> isdigit (NilZero.string_of_uint d) = true.
Proof.
  intro H. destruct d; try congruence; simpl; apply all_digits_uint.
Qed.

Lemma to_int_shape (z : Z) :
  exists d, d <> Decimal.Nil /\ (Z.to_int z = Decimal.Pos d \/ Z.to_int z = Decimal.Neg d).
Proof.
  destruct z as [|p|p]; simpl.
  - exists Decimal.zero. split; [discriminate | now left].
  - exists (Pos.to_uint p). split; [apply DecimalPos.Unsigned.to_uint_nonnil | now left].
  - exists (Pos.to_uint p). split; [apply DecimalPos.Unsigned.to_uint_nonnil | now right].
Qed.

Lemma startswith_minus (a : ascii) (s : string) :
  startswith (String a s) "-" = Ascii.eqb "-" a.
Proof. cbn [startswith]. destruct s; apply andb_true_r. Qed.

(** The string of an integer reads as an integer... *)
Lemma str_of_Z_is_int (z : Z) : _is_int (str_of_Z z) = true.
Proof.
  unfold str_of_Z, _is_int. destruct (to_int_shape z) as [d [N [E|E]]]; rewrite E.
  - cbn [NilZero.string_of_int]. rewrite (isdigit_uint N). apply orb_true_r.
  - cbn [NilZero.string_of_int tail]. rewrite (isdigit_uint N).
    now rewrite startswith_minus.
Qed.

(** ... and [int] of it is the integer. *)
Lemma py_int_str_of_Z (z : Z) : py_int (str_of_Z z) = z.
Proof.
  unfold py_int, str_of_Z. rewrite NilZero.isi.
  - apply DecimalZ.of_to.
  - destruct (to_int_shape z) as [d [N [E|E]]]; rewrite E; congruence.
  - destruct (to_int_shape z) as [d [N [E|E]]]; rewrite E; congruence.
Qed.

(** Behind its guard [int(s)] always parses. *)
Lemma uint_of_digits (s : string) :
  all_digits s = true -> NilEmpty.uint_of_string s <> None.
Proof.
  induction s as [|a s IH]; simpl; [discriminate|].
  intro H. apply andb_true_iff in H. destruct H as [D H].
  specialize (IH H). destruct (NilEmpty.uint_of_string s) as [u|]; [|congruence].
  unfold is_digit in D. apply andb_true_iff in D. destruct D as [D1 D2].
  apply Nat.leb_le in D1, D2.
  assert (X : exists n, (n < 10)%nat /\ a = ascii_of_nat (48 + n)).
  { exists (nat_of_ascii a - 48)%nat. split; [lia|].
    replace (48 + (nat_of_ascii a - 48))%nat with (nat_of_ascii a) by lia.
    now rewrite ascii_nat_embedding. }
  destruct X as [n [L ->]].
  do 10 (destruct n as [|n]; [simpl; discriminate|]). lia.
Qed.

Lemma _is_int_parses (s : string) :
  _is_int s = true -> NilZero.int_of_string s <> None.
Proof.
  unfold _is_int, isdigit. intro H. apply orb_true_iff in H.
  destruct s as [|a s]; [destruct H as [H|H]; discriminate|].
  unfold NilZero.int_of_string.
  destruct H as [H|H].
  - rewrite startswith_minus in H. cbn [tail] in H.
    apply andb_true_iff in H. destruct H as [H1 H2].
    rewrite Ascii.eqb_sym in H1. rewrite H1.
    destruct s as [|b s]; [discriminate|].
    unfold NilZero.uint_of_string.
    pose proof (uint_of_digits _ H2) as P.
    destruct (NilEmpty.uint_of_string (String b s)); [discriminate | congruence].
  - destruct (Ascii.eqb a "-") eqn:E.
    + apply Ascii.eqb_eq in E. subst a. simpl in H. discriminate.
    + unfold NilZero.uint_of_string. pose proof (uint_of_digits _ H) as P.
      destruct (NilEmpty.uint_of_string (String a s)); [discriminate | congruence].
Qed.

Definition ref_key (k : key) : key := XCL.parse_key (tail (XCL.ref_of k)).

Lemma ref_of_is_ref (k : key) : _is_ref (XCL.ref_of k) = true.
Proof.
  destruct k as [z|s]; unfold _is_ref, XCL.ref_of; cbn [startswith];
    [destruct (str_of_Z z) | destruct s]; reflexivity.
Qed.

(** The reference string of a safe id parses back to the id. *)
Lemma ref_key_safe (k : key) : ref_safe k = true -> ref_key k = k.
Proof.
  intro H. apply andb_true_iff in H. destruct H as [_ H]. revert H.
  destruct k as [z|s]; unfold ref_key, XCL.parse_key; simpl.
  - intros _. now rewrite str_of_Z_is_int, py_int_str_of_Z.
  - intro H. apply andb_true_iff in H. destruct H as [H _].
    apply negb_true_iff in H. now rewrite H.
Qed.

Lemma json_key_safe (k : key) :
  json_safe k = true -> XCL.parse_key (XCL.json_key k) = k.
Proof.
  intro H. apply andb_true_iff in H. destruct H as [_ H]. revert H.
  destruct k as [z|s]; unfold XCL.parse_key; simpl.
  - intros _. now rewrite str_of_Z_is_int, py_int_str_of_Z.
  - intro H. apply negb_true_iff in H. now rewrite H.
Qed.

Section WithHash.
Variable Hash : key -> key.

Lemma key_node_safe (k : key) : ref_safe k = true -> XCL._key_node Hash k = Hash k.
Proof.
intro H. apply andb_true_iff in H. destruct H as [_ H]. revert H.
destruct k as [z|s]; simpl; [reflexivity|].
intro H. apply andb_true_iff in H. destruct H as [_ H].
apply negb_true_iff in H. now rewrite H.
Qed.

(** As the end point of an edge, the reference string of a safe id is keyed
like the id. *)
Lemma key_node_ref (k : key) :
ref_safe k = true -> XCL._key_node Hash (KStr (XCL.ref_of k)) = Hash k.
Proof.
intro H. change (XCL._key_node Hash (KStr (XCL.ref_of k)))
with (if _is_ref (XCL.ref_of k) then Hash (ref_key k) else Hash (KStr (XCL.ref_of k))).
now rewrite ref_of_is_ref, ref_key_safe.
Qed.
End WithHash.

End RefStrings.

(** ** Rewriting the nodes of a consistent graph *)

Module RewriteFacts.
Import Py NX Order Deps Refs RoundTrip DictFacts ValueInd TopoFacts InsertFacts
       RefFacts RefStrings.

Lemma fst_unique (cells : list (key * cell)) k c c' :
  NoDup (map fst cells) -> In (k, c) cells -> In (k, c') cells -> c = c'.
Proof.
  induction cells as [|[k0 c0] cells IH]; simpl; [tauto|].
  intros N [E|I] [E'|I'].
  - congruence.
  - injection E as -> ->. inversion N as [|? ? N1 _]; subst.
    exfalso. apply N1. apply in_map_iff. now exists (k, c').
  - injection E' as -> ->. inversion N as [|? ? N1 _]; subst.
    exfalso. apply N1. apply in_map_iff. now exists (k, c).
  - inversion N; subst. now apply IH.
Qed.

Section Maps.
Variable P : key * cell -> attrs.

Lemma dget_map_In (cells : list (key * cell)) k c :
NoDup (map fst cells) -> In (k, c) cells ->
dget key_eqb (map (fun kc => (fst kc, P kc)) cells) k = Some (P (k, c)).
Proof.
induction cells as [|[k0 c0] cells IH]; simpl; [tauto|].
intros N [E|I].
- injection E as -> ->. now rewrite key_eqb_refl.
- inversion N as [|? ? N1 N2]; subst.
destruct (key_eqb k0 k) eqn:E.
+ apply key_eqb_eq in E. subst k0. exfalso. apply N1.
apply in_map_iff. now exists (k, c).
+ now apply IH.
Qed.

Lemma dget_map_notin (cells : list (key * cell)) k :
~ In k (map fst cells) ->
dget key_eqb (map (fun kc => (fst kc, P kc)) cells) k = None.
Proof.
intro H. apply (dget_None_notin _ key_eqb_eq).
rewrite map_map. simpl. exact H.
Qed.

Lemma dset_map (cells : list (key * cell)) k v :
NoDup (map fst cells) -> In k (map fst cells) ->
dset key_eqb (map (fun kc => (fst kc, P kc)) cells) k v
= map (fun kc => (fst kc, if key_eqb (fst kc) k then v else P kc)) cells.
Proof.
induction cells as [|[k0 c0] cells IH]; simpl; [tauto|].
intros N I. inversion N as [|? ? N1 N2]; subst.
destruct (key_eqb k0 k) eqn:E.
- apply key_eqb_eq in E. subst k0. f_equal.
apply map_ext_in. intros [k1 c1] I1. simpl.
destruct (key_eqb k1 k) eqn:E1; [|reflexivity].
apply key_eqb_eq in E1. subst k1. exfalso. apply N1.
apply in_map_iff. now exists (k, c1).
- f_equal. apply IH; [exact N2|]. destruct I as [I|I]; [|exact I].
subst. rewrite key_eqb_refl in E. discriminate.
Qed.
End Maps.

(** The nodes while a loop rewrites them: the cells at the keys in [f] have
    been rewritten by [A], the others are still as [B] gives them. *)
Definition mix (f : key -> bool) (A B : cell -> cell) (cells : list (key * cell))
  : list (key * attrs) :=
  map (fun kc => (fst kc, payload (if f (fst kc) then A (snd kc) else B (snd kc)))) cells.

Lemma mix_keys f A B cells : map fst (mix f A B cells) = map fst cells.
Proof. unfold mix. rewrite map_map. reflexivity. Qed.

Lemma mix_none A B cells :
  mix (fun _ => false) A B cells = nodes_of (map (fun kc => (fst kc, B (snd kc))) cells).
Proof. unfold mix, nodes_of. rewrite map_map. reflexivity. Qed.

Lemma mix_all f A B cells :
  (forall k, In k (map fst cells) -> f k = true) ->
  mix f A B cells = nodes_of (map (fun kc => (fst kc, A (snd kc))) cells).
Proof.
  intro H. unfold mix, nodes_of. rewrite map_map. apply map_ext_in.
  intros [k c] I. simpl. rewrite H; [reflexivity|].
  apply in_map_iff. now exists (k, c).
Qed.

Lemma map_id_cells (cells : list (key * cell)) :
  map (fun kc => (fst kc, snd kc)) cells = cells.
Proof. induction cells as [|[k c] cells IH]; simpl; congruence. Qed.

Lemma dget_mix f A B cells k c :
  NoDup (map fst cells) -> In (k, c) cells ->
  dget key_eqb (mix f A B cells) k = Some (payload (if f k then A c else B c)).
Proof.
  intros N I. unfold mix.
  exact (@dget_map_In (fun kc => payload (if f (fst kc) then A (snd kc) else B (snd kc)))
                      cells k c N I).
Qed.

(** Rewriting the cell at [k] moves [k] into the rewritten keys. *)
Lemma write_mix f A B cells E k c :
  NoDup (map fst cells) -> In (k, c) cells ->
  write (mkGraph (mix f A B cells) E) k (VCell (A c))
  = mkGraph (mix (fun x => key_eqb x k || f x) A B cells) E.
Proof.
  intros N I. unfold write, add_node. simpl.
  erewrite dget_mix; [|exact N | exact I]. f_equal.
  unfold mix at 1.
  rewrite (@dset_map (fun kc => payload (if f (fst kc) then A (snd kc) else B (snd kc))));
    [|exact N | apply in_map_iff; now exists (k, c)].
  apply map_ext_in. intros [k1 c1] I1. simpl.
  destruct (key_eqb k1 k) eqn:E1; [|reflexivity].
  apply key_eqb_eq in E1. subst k1.
  rewrite (@fst_unique cells k c1 c N I1 I). reflexivity.
Qed.

Section WithHash.
Variable Hash : key -> key.

Lemma getitem_mix f A B cells E k c :
NoDup (map fst cells) -> In (k, c) cells -> stable Hash k ->
XCL.__getitem__ Hash (mkGraph (mix f A B cells) E) (NodeKey k)
= Ok (VCell (if f k then A c else B c)).
Proof.
intros N I S. rewrite getitem_node. simpl. rewrite S.
erewrite dget_mix; [|exact N | exact I]. reflexivity.
Qed.

Lemma setitem_cell_write g k c :
stable Hash k ->
XCL.__setitem__ Hash g (NodeKey k) (VCell c) = write g k (VCell c).
Proof. intro S. unfold XCL.__setitem__, XCL.as_cell. now rewrite S. Qed.

(** *** [to_id] *)

Lemma to_id_step_mix f cells E k c :
NoDup (map fst cells) -> In (k, c) cells -> stable Hash k -> f k = false ->
XCL.to_id_step Hash (mkGraph (mix f to_id_cell (fun c => c) cells) E) k
= Ok (mkGraph (mix (fun x => key_eqb x k || f x) to_id_cell (fun c => c) cells) E).
Proof.
intros N I S F. unfold XCL.to_id_step.
erewrite getitem_mix; [|exact N | exact I | exact S]. rewrite F. cbn [obind].
rewrite setitem_cell_write by exact S.
fold (to_id_cell c). erewrite write_mix; [reflexivity | exact N | exact I].
Qed.

Lemma to_id_loop cells E (todo : list key) : forall f,
NoDup (map fst cells) -> NoDup todo ->
(forall k, In k todo -> f k = false /\ stable Hash k /\ exists c, In (k, c) cells) ->
XCL.ofold (XCL.to_id_step Hash) todo (mkGraph (mix f to_id_cell (fun c => c) cells) E)
= Ok (mkGraph (mix (fun x => existsb (key_eqb x) todo || f x)
               to_id_cell (fun c => c) cells) E).
Proof.
induction todo as [|k todo IH]; intros f N D H; cbn [XCL.ofold].
- reflexivity.
- destruct (H k (or_introl eq_refl)) as [F [S [c I]]].
erewrite to_id_step_mix; [|exact N | exact I | exact S | exact F]. cbn [obind].
inversion D as [|? ? D1 D2]; subst.
rewrite IH; [| exact N | exact D2 |].
+ f_equal. f_equal. unfold mix. apply map_ext. intros [k1 c1]. simpl.
rewrite (key_eqb_sym k1 k).
destruct (key_eqb k k1), (existsb (key_eqb k1) todo), (f k1); reflexivity.
+ intros k' I'. destruct (H k' (or_intror I')) as [F' [S' X]].
split; [|now split]. rewrite F', orb_false_r.
apply key_eqb_neq. intros ->. contradiction.
Qed.

(** [to_id] replaces every cell by its reference form and keeps the edges. *)
Lemma to_id_consistent cells E :
consistent Hash cells ->
XCL.to_id Hash (mkGraph (nodes_of cells) E)
= Ok (mkGraph (nodes_of (map (fun kc => (fst kc, to_id_cell (snd kc))) cells)) E).
Proof.
intros C. unfold XCL.to_id. cbn [_node].
assert (M0 : nodes_of cells = mix (fun _ => false) to_id_cell (fun c => c) cells).
{ rewrite mix_none. now rewrite map_id_cells. }
rewrite M0 at 2. rewrite M0 at 1. rewrite mix_keys.
rewrite to_id_loop.
- f_equal. f_equal. apply mix_all. intros k I. rewrite orb_false_r.
apply existsb_exists. exists k. split; [exact I | apply key_eqb_refl].
- apply C.
- apply C.
- intros k I. split; [reflexivity|].
apply in_map_iff in I. destruct I as [[k' c] [<- I]]. simpl.
split; [eapply keys_fixed; eauto | now exists c].
Qed.
End WithHash.

End RewriteFacts.

(** ** [from_id] on the reference form of a consistent graph *)

Module ResolveFacts.
Import Py NX Order Deps Refs RoundTrip DictFacts ValueInd TopoFacts InsertFacts
       RefFacts RefStrings RewriteFacts.
Local Unset Implicit Arguments.

Lemma list_sum_In {A} (f : A -> nat) (l : list A) x :
  In x l -> (f x <= list_sum (map f l))%nat.
Proof.
  induction l as [|y l IH]; simpl; [tauto|].
  intros [->|H]; [lia|]. specialize (IH H). lia.
Qed.

Lemma direct_size_list (l : list pyval) d :
  Forall (fun v => In d (direct v) -> (size (VCell d) <= size v)%nat) l ->
  In d (flat_map direct l) -> (size (VCell d) <= list_sum (map size l))%nat.
Proof.
  intros F I. apply in_flat_map in I. destruct I as [v [Iv Id]].
  rewrite Forall_forall in F. specialize (F v Iv Id).
  pose proof (list_sum_In size l v Iv). lia.
Qed.

(** A cell that a value holds directly is no larger than the value. *)
Lemma direct_size (v : pyval) d :
  In d (direct v) -> (size (VCell d) <= size v)%nat.
Proof.
  induction v using pyval_nested_ind; cbn [direct]; try (intros []; fail).
  - intro I. pose proof (direct_size_list l d H I).
    change (size (VList l)) with (S (list_sum (map size l))). lia.
  - intro I. pose proof (direct_size_list l d H I).
    change (size (VTuple l)) with (S (list_sum (map size l))). lia.
  - intros [<-|[]]. lia.
Qed.

(** A cell is larger than the cells it holds directly. *)
Lemma cell_deps_size (c d : cell) :
  In d (cell_deps c) -> (size (VCell d) < size (VCell c))%nat.
Proof.
  destruct c as [n f a k]. unfold cell_deps. cbn [function args kwargs].
  change (size (VCell (Cell n f a k)))
    with (S (size f + list_sum (map size a)
             + list_sum (map (fun kv => size (snd kv)) k))).
  intro I. apply in_app_or in I. destruct I as [I|I].
  - pose proof (direct_size f d I). lia.
  - apply in_app_or in I. destruct I as [I|I].
    + apply in_flat_map in I. destruct I as [v [Iv Id]].
      pose proof (direct_size v d Id). pose proof (list_sum_In size a v Iv). lia.
    + apply in_flat_map in I. destruct I as [kv [Iv Id]].
      pose proof (direct_size (snd kv) d Id).
      pose proof (list_sum_In (fun kv => size (snd kv)) k kv Iv). simpl in *. lia.
Qed.

(** The rank of a key: the size of the cell stored there. *)
Definition rank_in (cells : list (key * cell)) (k : key) : nat :=
  match dget key_eqb cells k with
  | Some c => size (VCell c)
  | None => O
  end.

Lemma rank_in_In cells k c :
  NoDup (map fst cells) -> In (k, c) cells -> rank_in cells k = size (VCell c).
Proof.
  intros N I. unfold rank_in.
  now rewrite (PayloadFacts.In_dget_NoDup _ _ _ N I).
Qed.

Section WithHash.
Variable Hash : key -> key.

(** Edges that follow the cells go upwards along the rank. *)
Lemma derived_ranked cells es :
consistent Hash cells -> derived Hash cells es -> ranked es (rank_in cells).
Proof.
intros C D u v I. destruct (D u v I) as [c [d [Ic [Id ->]]]].
pose proof (deps_stored C _ _ _ Ic Id) as Sd.
rewrite (rank_in_In _ _ _ (keys_distinct C) Ic).
rewrite (rank_in_In _ _ _ (keys_distinct C) Sd).
now apply cell_deps_size.
Qed.

Lemma omap_from_id_to_id result (l : list pyval) :
Forall (fun v => restorable v = true ->
      (forall d, In d (direct v) ->
         XCL.__getitem__ Hash result (NodeKey (ref_key (node d))) = Ok (VCell d)) ->
      XCL._from_id Hash result (XCL._to_id v) = Ok v) l ->
forallb restorable l = true ->
(forall d, In d (flat_map direct l) ->
XCL.__getitem__ Hash result (NodeKey (ref_key (node d))) = Ok (VCell d)) ->
omap (XCL._from_id Hash result) (map XCL._to_id l) = Ok l.
Proof.
induction 1 as [|v l Hv _ IH]; intros R G; cbn [map omap]; [reflexivity|].
cbn [forallb] in R. apply andb_true_iff in R. destruct R as [Rv Rl].
rewrite Hv; [|exact Rv|].
- cbn [obind]. rewrite IH; [reflexivity | exact Rl |].
intros d I. apply G. cbn [flat_map]. apply in_or_app. now right.
- intros d I. apply G. cbn [flat_map]. apply in_or_app. now left.
Qed.

(** [_from_id] undoes [_to_id] on a value whose cells are at their keys. *)
Lemma from_id_to_id result (v : pyval) :
restorable v = true ->
(forall d, In d (direct v) ->
XCL.__getitem__ Hash result (NodeKey (ref_key (node d))) = Ok (VCell d)) ->
XCL._from_id Hash result (XCL._to_id v) = Ok v.
Proof.
induction v using pyval_nested_ind; intros R G; try reflexivity;
try discriminate.
- cbn [restorable] in R. apply negb_true_iff in R.
unfold XCL._to_id. cbn [CellModel._per_cell XCL._from_id]. now rewrite R.
- unfold XCL._to_id. cbn [CellModel._per_cell]. fold XCL._to_id.
cbn [XCL._from_id]. rewrite (omap_from_id_to_id _ _ H); [reflexivity | exact R | exact G].
- unfold XCL._to_id. cbn [CellModel._per_cell XCL._from_id].
rewrite ref_of_is_ref. apply G. now left.
Qed.

Lemma omap_items_from_id_to_id result (k : list (string * pyval)) :
forallb (fun kv => restorable (snd kv)) k = true ->
(forall d, In d (flat_map (fun kv => direct (snd kv)) k) ->
XCL.__getitem__ Hash result (NodeKey (ref_key (node d))) = Ok (VCell d)) ->
omap_items (XCL._from_id Hash result) (map_items XCL._to_id k) = Ok k.
Proof.
induction k as [|[n v] k IH]; intros R G; cbn [map_items omap_items];
[reflexivity|].
cbn [forallb snd] in R. apply andb_true_iff in R. destruct R as [Rv Rl].
rewrite from_id_to_id; [|exact Rv|].
- cbn [obind]. rewrite IH; [reflexivity | exact Rl |].
intros d I. apply G. cbn [flat_map]. apply in_or_app. now right.
- intros d I. apply G. cbn [flat_map snd]. apply in_or_app. now left.
Qed.

Lemma cell_eta (c : cell) : Cell (node c) (function c) (args c) (kwargs c) = c.
Proof. destruct c; reflexivity. Qed.

(** A round of [from_id] at a cell whose direct cells have been restored. *)
Lemma from_id_step_mix f cells E k c :
consistent Hash cells -> In (k, c) cells -> f k = false ->
(forall d, In d (cell_deps c) -> f (Hash (node d)) = true) ->
XCL.from_id_step Hash (mkGraph (mix f (fun c => c) to_id_cell cells) E) k
= Ok (mkGraph (mix (fun x => key_eqb x k || f x) (fun c => c) to_id_cell cells) E).
Proof.
intros C I F D. unfold XCL.from_id_step.
pose proof (keys_distinct C) as N. pose proof (keys_fixed C _ _ I) as S.
erewrite getitem_mix; [|exact N | exact I | exact S]. rewrite F. cbn [obind].
set (result := mkGraph (mix f (fun c => c) to_id_cell cells) E).
assert (G : forall d, In d (cell_deps c) ->
      XCL.__getitem__ Hash result (NodeKey (ref_key (node d))) = Ok (VCell d)).
{ intros d Id. pose proof (deps_stored C _ _ _ I Id) as Sd.
pose proof (ids_safe C _ _ Sd) as Rd.
rewrite (ref_key_safe _ Rd), getitem_node, (key_node_safe Hash _ Rd).
unfold result. cbn [_node]. erewrite dget_mix; [|exact N | exact Sd].
now rewrite (D d Id). }
pose proof (fields_safe C _ _ I) as FS. unfold fields_restorable in FS.
apply andb_true_iff in FS. destruct FS as [FS Rk].
apply andb_true_iff in FS. destruct FS as [Rf Ra].
cbn [to_id_cell function args kwargs node].
rewrite from_id_to_id; [|exact Rf|].
2:{ intros d Id. apply G. unfold cell_deps. apply in_or_app. now left. }
cbn [obind]. rewrite omap_from_id_to_id; [| |exact Ra|].
3:{ intros d Id. apply G. unfold cell_deps. apply in_or_app. right.
apply in_or_app. now left. }
2:{ apply Forall_forall. intros v _. apply from_id_to_id. }
cbn [obind]. rewrite omap_items_from_id_to_id; [|exact Rk|].
2:{ intros d Id. apply G. unfold cell_deps. apply in_or_app. right.
apply in_or_app. now right. }
cbn [obind]. rewrite cell_eta. rewrite setitem_cell_write by exact S.
unfold result.
change (VCell c) with (VCell ((fun c => c) c)).
erewrite write_mix; [reflexivity | exact N | exact I].
Qed.

Definition mem (l : list key) (x : key) : bool := existsb (key_eqb x) l.

Lemma mix_ext f g A B cells :
(forall x, f x = g x) -> mix f A B cells = mix g A B cells.
Proof. intro H. unfold mix. apply map_ext. intros [k c]. simpl. now rewrite H. Qed.

Lemma mem_In l x : mem l x = true <-> In x l.
Proof.
unfold mem. rewrite existsb_exists. split.
- intros [y [I E]]. apply key_eqb_eq in E. now subst.
- intro I. exists x. split; [exact I | apply key_eqb_refl].
Qed.

(** The loop of [from_id] over an order that visits the direct cells of a
cell before the cell. *)
Lemma from_id_loop cells E (order : list key) :
consistent Hash cells -> NoDup order ->
(forall k, In k order -> exists c, In (k, c) cells) ->
(forall l1 k l2 c d, order = (l1 ++ k :: l2)%list -> In (k, c) cells ->
In d (cell_deps c) -> In (Hash (node d)) l1) ->
forall todo done, order = (done ++ todo)%list ->
XCL.ofold (XCL.from_id_step Hash) todo
(mkGraph (mix (mem done) (fun c => c) to_id_cell cells) E)
= Ok (mkGraph (mix (mem order) (fun c => c) to_id_cell cells) E).
Proof.
intros C ND IN ORD. induction todo as [|k todo IH]; intros done EQ;
cbn [XCL.ofold].
- rewrite app_nil_r in EQ. now subst.
- destruct (IN k) as [c I]; [rewrite EQ; apply in_or_app; right; now left|].
erewrite from_id_step_mix; [|exact C | exact I | |].
+ cbn [obind]. rewrite (mix_ext _ (mem (done ++ [k])%list)).
* apply IH. rewrite EQ, <- app_assoc. reflexivity.
* intro x. unfold mem. rewrite existsb_app. cbn [existsb].
  rewrite orb_false_r. apply orb_comm.
+ destruct (mem done k) eqn:M; [|reflexivity].
apply mem_In in M. rewrite EQ in ND. apply NoDup_remove_2 in ND.
exfalso. apply ND. apply in_or_app. now left.
+ intros d Id. apply mem_In. exact (ORD done k todo c d EQ I Id).
Qed.

(** [from_id] gives back the cells when the edges follow the cells and no
edge from a direct cell is missing. *)
Lemma from_id_consistent cells (E : list ((key * key) * attrs)) :
consistent Hash cells ->
derived Hash cells (map fst E) ->
(forall k c d, In (k, c) cells -> In d (cell_deps c) ->
In (Hash (node d), k) (map fst E)) ->
XCL.from_id Hash
(mkGraph (nodes_of (map (fun kc => (fst kc, to_id_cell (snd kc))) cells)) E)
= Ok (mkGraph (nodes_of cells) E).
Proof.
intros C D F. unfold XCL.from_id.
set (h := mkGraph _ E).
assert (K : map fst (_node h) = map fst cells).
{ unfold h, nodes_of. cbn [_node]. rewrite !map_map. reflexivity. }
pose proof (topological_sort_ranked h (derived_ranked _ _ C D)) as B.
destruct (topological_sort h) as [order bad] eqn:T. cbn [snd] in B. subst bad.
assert (H0 : h = mkGraph (mix (mem []) (fun c => c) to_id_cell cells) E).
{ unfold h. f_equal. symmetry. apply (mix_none (fun c => c) to_id_cell cells). }
rewrite H0 at 1.
rewrite (from_id_loop cells E order C).
- cbn [obind]. f_equal. f_equal.
rewrite mix_all; [now rewrite map_id_cells|].
intros k I. apply mem_In. apply (topological_sort_complete h T).
now rewrite K.
- apply (@topological_sort_NoDup h order false); [rewrite K; apply C | exact T].
- intros k I. pose proof (topological_sort_sound h T k I) as I'.
rewrite K in I'. apply in_map_iff in I'. destruct I' as [[k' c] [<- I']].
now exists c.
- intros l1 k l2 c d EQ I Id.
apply (topological_sort_order h T l1 k l2 EQ).
+ unfold edge. cbn [_edges h]. now apply (F k c d).
+ rewrite K. apply in_map_iff. exists (Hash (node d), d). split; [reflexivity|].
exact (deps_stored C _ _ _ I Id).
- reflexivity.
Qed.
End WithHash.

End ResolveFacts.

(** ** [add_parents] on the reference form of a consistent graph *)

Module ParentFacts.
Import Py NX Order Deps Refs RoundTrip DictFacts ValueInd TopoFacts InsertFacts
       RefFacts RefStrings RewriteFacts ResolveFacts.
Local Unset Implicit Arguments.

Section Keys.
Variables K V : Type.
Variable eqb : K -> K -> bool.
Hypothesis eqb_eq : forall a b, eqb a b = true <-> a = b.

Lemma In_dset_keys (d : list (K * V)) k v e :
In e (map fst (dset eqb d k v)) -> In e (map fst d) \/ e = k.
Proof.
induction d as [|[k0 v0] d IH]; simpl.
- intros [<-|[]]. now right.
- destruct (eqb k0 k) eqn:E; simpl.
+ intros [<-|H]; [left; now left | left; now right].
+ intros [<-|H]; [left; now left|].
destruct (IH H) as [?|?]; [left; now right | now right].
Qed.

Lemma dset_keys_mono (d : list (K * V)) k v e :
In e (map fst d) -> In e (map fst (dset eqb d k v)).
Proof.
induction d as [|[k0 v0] d IH]; simpl; [tauto|].
destruct (eqb k0 k) eqn:E; simpl; intros [<-|H]; auto.
Qed.

Lemma dset_keys_new (d : list (K * V)) k v : In k (map fst (dset eqb d k v)).
Proof.
induction d as [|[k0 v0] d IH]; simpl; [now left|].
destruct (eqb k0 k) eqn:E; simpl.
- apply eqb_eq in E. now left.
- now right.
Qed.
End Keys.

Lemma flat_map_snd {A B C} (f : B -> list C) (l : list (A * B)) :
  flat_map f (map snd l) = flat_map (fun kv => f (snd kv)) l.
Proof. induction l as [|[a b] l IH]; simpl; congruence. Qed.

Lemma forallb_snd {A B} (f : B -> bool) (l : list (A * B)) :
  forallb f (map snd l) = forallb (fun kv => f (snd kv)) l.
Proof. induction l as [|[a b] l IH]; simpl; congruence. Qed.

Lemma map_snd_items (f : pyval -> pyval) (l : list (string * pyval)) :
  map snd (map_items f l) = map f (map snd l).
Proof. induction l as [|[a b] l IH]; simpl; congruence. Qed.

Section WithHash.
Variable Hash : key -> key.
Variable cells : list (key * cell).
Hypothesis C : consistent Hash cells.

Definition id_nodes : list (key * attrs) :=
nodes_of (map (fun kc => (fst kc, to_id_cell (snd kc))) cells).

(** The graph while [add_parents] runs: the nodes stay, the edges follow the
cells. *)
Definition walking (g : DiGraph) : Prop :=
_node g = id_nodes /\ derived Hash cells (map fst (_edges g)).

(** The method returns, keeps the edges and leaves the edges [es]. *)
Definition adds (m : XCL.M unit) (es : list (key * key)) : Prop :=
forall g, walking g ->
exists g', m g = (Ok tt, g') /\ walking g'
/\ (forall e, In e (map fst (_edges g)) -> In e (map fst (_edges g')))
/\ (forall e, In e es -> In e (map fst (_edges g'))).

Lemma adds_ret : adds (XCL.ret tt) [].
Proof.
intros g W. exists g. split; [reflexivity|]. split; [exact W|].
split; [auto | intros e []].
Qed.

Lemma adds_bind m1 m2 es1 es2 :
adds m1 es1 -> adds m2 es2 -> adds (XCL.bind m1 (fun _ => m2)) (es1 ++ es2)%list.
Proof.
intros A1 A2 g W. destruct (A1 g W) as [g1 [E1 [W1 [M1 N1]]]].
destruct (A2 g1 W1) as [g2 [E2 [W2 [M2 N2]]]].
exists g2. unfold XCL.bind. rewrite E1. split; [exact E2|].
split; [exact W2|]. split; [auto|].
intros e I. apply in_app_or in I. destruct I as [I|I]; auto.
Qed.

Lemma id_nodes_keys : map fst id_nodes = map fst cells.
Proof. unfold id_nodes, nodes_of. rewrite !map_map. reflexivity. Qed.

Lemma walking_has_node g k c :
walking g -> In (k, c) cells -> has_node g k = true.
Proof.
intros [W _] I. unfold has_node. apply (dmem_In _ key_eqb_eq).
rewrite W, id_nodes_keys. apply in_map_iff. now exists (k, c).
Qed.

(** The edge from a direct cell to the cell that holds it. *)
Lemma adds_set_parent k c d :
In (k, c) cells -> In d (cell_deps c) ->
adds (XCL.set_parent Hash (KStr (XCL.ref_of (node d))) (node c))
 [(Hash (node d), k)].
Proof.
intros I Id g W.
pose proof (deps_stored C _ _ _ I Id) as Sd.
pose proof (keys_of_ids C _ _ I) as Kc.
unfold XCL.set_parent, XCL.modify, XCL.__setitem__.
rewrite (key_node_ref Hash _ (ids_safe C _ _ Sd)).
rewrite (key_node_safe Hash _ (ids_safe C _ _ I)), <- Kc.
eexists. split; [reflexivity|].
unfold add_edge. rewrite (walking_has_node g _ _ W Sd).
rewrite (walking_has_node g _ _ W I). cbn [XCL._as_dict _node _edges].
split; [split|split].
- apply W.
- intros u v Iuv. cbn [_edges] in Iuv.
apply In_dset_keys in Iuv. destruct Iuv as [Iuv|Iuv].
+ now apply (proj2 W).
+ injection Iuv as -> ->. exists c, d. now repeat split.
- intros e Ie. now apply dset_keys_mono.
- intros e [<-|[]]. apply (dset_keys_new _ _ _ edge_eqb_eq).
Qed.

Section OneCell.
Variables (k : key) (c : cell).
Hypothesis Ikc : In (k, c) cells.

Definition edges_to (ds : list cell) : list (key * key) :=
map (fun d => (Hash (node d), k)) ds.

Definition walk (v : pyval) : XCL.M unit :=
XCL.walk_parent Hash (XCL.raise RecursionError) (to_id_cell c) v.

Lemma adds_walk_list (l : list pyval) :
Forall (fun v => restorable v = true ->
(forall d, In d (direct v) -> In d (cell_deps c)) ->
adds (walk (XCL._to_id v)) (edges_to (direct v))) l ->
forallb restorable l = true ->
(forall d, In d (flat_map direct l) -> In d (cell_deps c)) ->
adds (XCL.mfor walk (map XCL._to_id l)) (edges_to (flat_map direct l)).
Proof.
induction 1 as [|v l Hv _ IH]; intros R D; cbn [map XCL.mfor flat_map].
- apply adds_ret.
- cbn [forallb] in R. apply andb_true_iff in R. destruct R as [Rv Rl].
unfold edges_to. rewrite map_app. apply adds_bind.
+ apply Hv; [exact Rv|]. intros d I. apply D. cbn [flat_map].
apply in_or_app. now left.
+ apply IH; [exact Rl|]. intros d I. apply D. cbn [flat_map].
apply in_or_app. now right.
Qed.

(** Walking the reference form of a value adds the edges from the cells the
value holds directly. *)
Lemma adds_walk (v : pyval) :
restorable v = true ->
(forall d, In d (direct v) -> In d (cell_deps c)) ->
adds (walk (XCL._to_id v)) (edges_to (direct v)).
Proof.
induction v using pyval_nested_ind; intros R D; try discriminate;
try apply adds_ret.
- cbn [restorable] in R. apply negb_true_iff in R.
unfold walk, XCL._to_id. cbn [CellModel._per_cell XCL.walk_parent].
rewrite R. apply adds_ret.
- unfold walk, XCL._to_id. cbn [CellModel._per_cell XCL.walk_parent].
fold XCL._to_id. fold walk. cbn [direct].
apply adds_walk_list; assumption.
- unfold walk, XCL._to_id. cbn [CellModel._per_cell XCL.walk_parent].
rewrite ref_of_is_ref. cbn [direct edges_to map to_id_cell node].
apply (adds_set_parent k c (Cell n v a k0) Ikc). apply D. now left.
Qed.

Lemma adds_walk_dependencies :
adds (XCL.walk_dependencies Hash (to_id_cell c)) (edges_to (cell_deps c)).
Proof.
pose proof (fields_safe C _ _ Ikc) as FS. unfold fields_restorable in FS.
apply andb_true_iff in FS. destruct FS as [FS Rk].
apply andb_true_iff in FS. destruct FS as [Rf Ra].
unfold XCL.walk_dependencies. fold walk.
cbn [to_id_cell function args kwargs].
unfold cell_deps, edges_to. rewrite !map_app.
apply adds_bind; [|apply adds_bind].
- apply adds_walk; [exact Rf|]. intros d I. unfold cell_deps.
apply in_or_app. now left.
- change (VList (map XCL._to_id (args c))) with (XCL._to_id (VList (args c))).
apply (adds_walk (VList (args c))); [exact Ra|].
intros d I. unfold cell_deps. apply in_or_app. right. apply in_or_app. now left.
- rewrite map_snd_items.
change (VList (map XCL._to_id (map snd (kwargs c))))
with (XCL._to_id (VList (map snd (kwargs c)))).
rewrite <- (flat_map_snd direct (kwargs c)).
apply (adds_walk (VList (map snd (kwargs c)))).
+ cbn [restorable]. now rewrite forallb_snd.
+ intros d I. cbn [direct] in I. rewrite flat_map_snd in I.
unfold cell_deps. apply in_or_app. right. apply in_or_app. now right.
Qed.
End OneCell.

Definition all_edges (l : list (key * cell)) : list (key * key) :=
flat_map (fun kc => map (fun d => (Hash (node d), fst kc)) (cell_deps (snd kc))) l.

Lemma adds_payloads (l : list (key * cell)) :
(forall kc, In kc l -> In kc cells) ->
adds (XCL.mfor (XCL.walk_cell Hash (XCL.raise RecursionError) VNone)
    (map (fun kc => VCell (to_id_cell (snd kc))) l))
 (all_edges l).
Proof.
induction l as [|[k c] l IH]; intro S; cbn [map XCL.mfor all_edges flat_map].
- apply adds_ret.
- apply adds_bind.
+ cbn [XCL.walk_cell snd fst]. unfold XCL.add_parents_cell.
cbn [XCL.walk_parent].
apply (adds_walk_dependencies k c). apply S. now left.
+ apply IH. intros kc I. apply S. now right.
Qed.

Lemma payloads_of g :
walking g ->
omap (fun n => XCL.__getitem__ Hash g (NodeKey n)) (map fst (_node g))
= Ok (map (fun kc => VCell (to_id_cell (snd kc))) cells).
Proof.
intros [W _]. rewrite W, id_nodes_keys.
assert (G : forall l, (forall kc, In kc l -> In kc cells) ->
      omap (fun n => XCL.__getitem__ Hash g (NodeKey n)) (map fst l)
      = Ok (map (fun kc => VCell (to_id_cell (snd kc))) l)).
{ induction l as [|[k c] l IH]; intro S; cbn [map omap]; [reflexivity|].
assert (I : In (k, c) cells) by (apply S; now left).
rewrite getitem_node, (keys_fixed C _ _ I), W. unfold id_nodes.
rewrite <- (mix_none (fun c => c) to_id_cell cells).
rewrite (dget_mix _ _ _ _ _ _ (keys_distinct C) I). cbn [obind DAG._as_value payload].
cbn [String.eqb Ascii.eqb Bool.eqb fst snd].
rewrite IH; [reflexivity|]. intros kc Ik. apply S. now right. }
apply G. auto.
Qed.

(** [add_parents()] returns, leaves the nodes as they are, and leaves edges
that follow the cells, among them an edge from every direct cell. *)
Lemma add_parents_consistent (E : list ((key * key) * attrs)) :
derived Hash cells (map fst E) ->
exists E', XCL.add_parents Hash VNone VNone (mkGraph id_nodes E)
       = (Ok tt, mkGraph id_nodes E')
/\ derived Hash cells (map fst E')
/\ (forall k c d, In (k, c) cells -> In d (cell_deps c) ->
    In (Hash (node d), k) (map fst E')).
Proof.
intro D.
assert (W : walking (mkGraph id_nodes E)) by (split; [reflexivity | exact D]).
unfold XCL.add_parents. cbn [XCL.walk_cell]. unfold XCL.walk_all, XCL.bind, XCL.lift.
rewrite (payloads_of _ W).
destruct (adds_payloads cells (fun kc I => I) _ W) as [g' [Eq [[Wn Wd] [_ N]]]].
rewrite Eq. destruct g' as [n' e']. cbn [_node _edges] in *. subst n'.
exists e'. split; [reflexivity|]. split; [exact Wd|].
intros k c d I Id. apply N. unfold all_edges. apply in_flat_map.
exists (k, c). split; [exact I|]. cbn [fst snd]. apply in_map_iff. now exists d.
Qed.
End WithHash.

End ParentFacts.

(** ** C1 and C2: the round trips *)

Module RoundTripFacts.
Import Py NX Order Deps Refs RoundTrip Trips DictFacts ValueInd TopoFacts
       InsertFacts RefFacts RefStrings RewriteFacts ResolveFacts ParentFacts.
Local Unset Implicit Arguments.

Section Fresh.
Variables K V : Type.
Variable eqb : K -> K -> bool.
Hypothesis eqb_eq : forall a b, eqb a b = true <-> a = b.

Lemma dset_fresh (acc : list (K * V)) k v :
~ In k (map fst acc) -> dset eqb acc k v = (acc ++ [(k, v)])%list.
Proof.
induction acc as [|[k0 v0] acc IH]; simpl; [reflexivity|].
intro H. destruct (eqb k0 k) eqn:E.
- apply eqb_eq in E. tauto.
- f_equal. apply IH. tauto.
Qed.

(** Setting distinct new keys one after the other appends them. *)
Lemma fold_dset_fresh (l : list (K * V)) : forall acc,
NoDup (map fst (acc ++ l)%list) ->
fold_left (fun d kv => dset eqb d (fst kv) (snd kv)) l acc = (acc ++ l)%list.
Proof.
induction l as [|[k v] l IH]; intros acc N; simpl.
- now rewrite app_nil_r.
- rewrite dset_fresh.
+ rewrite IH; rewrite <- app_assoc; [reflexivity | exact N].
+ rewrite map_app in N. simpl in N. apply NoDup_remove_2 in N.
intro I. apply N. apply in_or_app. now left.
Qed.
End Fresh.

Lemma NoDup_map_on {A B} (f : A -> B) (l : list A) :
  (forall x y, In x l -> In y l -> f x = f y -> x = y) ->
  NoDup l -> NoDup (map f l).
Proof.
  intros Inj N. induction N as [|x l Nx N IH]; simpl; constructor.
  - intro I. apply in_map_iff in I. destruct I as [y [E Iy]].
    apply Nx. rewrite (Inj x y); [exact Iy | now left | now right | now symmetry].
  - apply IH. intros a b Ia Ib. apply Inj; now right.
Qed.

Section WithHash.
Variable Hash : key -> key.
Variable call : string -> list pyval -> list (string * pyval) -> outcome pyval.
Variable cells : list (key * cell).
Hypothesis C : consistent Hash cells.

Definition id_items : list (key * pyval) :=
map (fun kc => (fst kc, VCell (to_id_cell (snd kc)))) cells.

Lemma evaluate_at_nodes g r k :
_node r = _node g -> evaluate_at Hash call r k = evaluate_at Hash call g k.
Proof.
intro E. unfold evaluate_at. now rewrite !getitem_node, E.
Qed.

(** C2 (as amended): for a consistent graph in embedded form whose edges
follow the cells, [g.to_id().add_parents().from_id()] returns a graph
with the nodes of [g]: every node holds the cell it held, and evaluates
to the same result. *)
Theorem C2_to_id_add_parents_from_id (g : DiGraph) :
_node g = nodes_of cells ->
derived Hash cells (map fst (_edges g)) ->
exists h i r,
XCL.to_id Hash g = Ok h
/\ XCL.add_parents Hash VNone VNone h = (Ok tt, i)
/\ XCL.from_id Hash i = Ok r
/\ _node r = _node g
/\ forall k, evaluate_at Hash call r k = evaluate_at Hash call g k.
Proof.
intros N D. destruct g as [n e]. cbn [_node _edges] in *. subst n.
destruct (add_parents_consistent Hash cells C e D) as [e' [A [D' F]]].
exists (mkGraph (id_nodes cells) e), (mkGraph (id_nodes cells) e'),
   (mkGraph (nodes_of cells) e').
split; [now apply to_id_consistent|]. split; [exact A|].
split; [now apply from_id_consistent|]. split; [reflexivity|].
intro k. now apply evaluate_at_nodes.
Qed.

Hypothesis J : forall k, In k (map fst cells) -> json_safe k = true.

Lemma items_of g :
_node g = id_nodes cells ->
omap (fun k => obind (XCL.__getitem__ Hash g (NodeKey k)) (fun p => Ok (k, p)))
 (map fst (_node g))
= Ok id_items.
Proof.
intro W. rewrite W, id_nodes_keys.
assert (G : forall l, (forall kc, In kc l -> In kc cells) ->
      omap (fun k => obind (XCL.__getitem__ Hash g (NodeKey k)) (fun p => Ok (k, p)))
           (map fst l)
      = Ok (map (fun kc => (fst kc, VCell (to_id_cell (snd kc)))) l)).
{ induction l as [|[k c] l IH]; intro S; cbn [map omap]; [reflexivity|].
assert (I : In (k, c) cells) by (apply S; now left).
rewrite getitem_node, (keys_fixed C _ _ I), W. unfold id_nodes.
rewrite <- (mix_none (fun c => c) to_id_cell cells).
rewrite (dget_mix _ _ _ _ _ _ (keys_distinct C) I).
cbn [obind DAG._as_value payload String.eqb Ascii.eqb Bool.eqb fst snd].
rewrite IH; [reflexivity|]. intros kc Ik. apply S. now right. }
apply G. auto.
Qed.

Definition json_items : XCL.json :=
map (fun kv => (XCL.json_key (fst kv), snd kv)) id_items.

Lemma json_keys_distinct : NoDup (map fst json_items).
Proof.
unfold json_items, id_items. rewrite !map_map. cbn [fst].
rewrite <- (map_map fst XCL.json_key). apply NoDup_map_on; [|apply C].
intros x y Ix Iy E.
rewrite <- (json_key_safe x (J x Ix)), <- (json_key_safe y (J y Iy)).
now rewrite E.
Qed.

Lemma to_json_consistent (E : list ((key * key) * attrs)) :
XCL.to_json Hash (mkGraph (nodes_of cells) E) = Ok json_items.
Proof.
unfold XCL.to_json. rewrite (@to_id_consistent Hash cells E C). cbn [obind].
rewrite items_of by reflexivity. cbn [obind]. f_equal.
assert (F : forall (l : list (key * pyval)) acc,
      fold_left (fun d kv => dset String.eqb d (XCL.json_key (fst kv)) (snd kv)) l acc
      = fold_left (fun d kv => dset String.eqb d (fst kv) (snd kv))
          (map (fun kv => (XCL.json_key (fst kv), snd kv)) l) acc).
{ induction l as [|kv l IH]; intro acc; simpl; [reflexivity | apply IH]. }
rewrite F. fold json_items.
apply (fold_dset_fresh _ _ String.eqb string_eqb_eq json_items []).
apply json_keys_distinct.
Qed.

Lemma minimal_of_json :
fold_left (fun d kv => dset key_eqb d (XCL.parse_key (fst kv)) (snd kv)) json_items []
= id_items.
Proof.
assert (F : forall (l : list (string * pyval)) acc,
      fold_left (fun d kv => dset key_eqb d (XCL.parse_key (fst kv)) (snd kv)) l acc
      = fold_left (fun d kv => dset key_eqb d (fst kv) (snd kv))
          (map (fun kv => (XCL.parse_key (fst kv), snd kv)) l) acc).
{ induction l as [|kv l IH]; intro acc; simpl; [reflexivity | apply IH]. }
rewrite F.
assert (M : map (fun kv => (XCL.parse_key (fst kv), snd kv)) json_items = id_items).
{ unfold json_items. rewrite map_map. cbn [fst snd].
rewrite <- (map_id id_items) at 2. apply map_ext_in.
intros [k v] I. cbn [fst snd]. rewrite json_key_safe; [reflexivity|].
apply J. unfold id_items in I. apply in_map_iff in I.
destruct I as [[k' c] [E I]]. injection E as <- _.
apply in_map_iff. now exists (k', c). }
rewrite M. apply (fold_dset_fresh _ _ key_eqb key_eqb_eq id_items []).
change (NoDup (map fst id_items)). unfold id_items. rewrite map_map.
cbn [fst]. apply C.
Qed.

Lemma res_of_items (l : list (key * cell)) : forall acc,
NoDup (map fst (acc ++ l)%list) ->
(forall kc, In kc l -> Deps.stable Hash (fst kc)) ->
fold_left (fun g kv => XCL.__setitem__ Hash g (NodeKey (fst kv)) (snd kv))
(map (fun kc => (fst kc, VCell (to_id_cell (snd kc)))) l)
(mkGraph (nodes_of (map (fun kc => (fst kc, to_id_cell (snd kc))) acc)) [])
= mkGraph (nodes_of (map (fun kc => (fst kc, to_id_cell (snd kc))) (acc ++ l)%list)) [].
Proof.
induction l as [|[k c] l IH]; intros acc N S; cbn [map fold_left].
- now rewrite app_nil_r.
- cbn [fst snd]. rewrite setitem_cell_write by (apply (S (k, c)); now left).
assert (Fr : ~ In k (map fst acc)).
{ rewrite map_app in N. simpl in N. apply NoDup_remove_2 in N.
intro I. apply N. apply in_or_app. now left. }
assert (W : write (mkGraph (nodes_of (map (fun kc => (fst kc, to_id_cell (snd kc))) acc)) [])
            k (VCell (to_id_cell c))
          = mkGraph (nodes_of (map (fun kc => (fst kc, to_id_cell (snd kc)))
                                 (acc ++ [(k, c)])%list)) []).
{ unfold write, add_node. cbn [_node _edges].
assert (Fr' : ~ In k (map fst (nodes_of (map (fun kc => (fst kc, to_id_cell (snd kc))) acc)))).
{ unfold nodes_of. rewrite !map_map. exact Fr. }
rewrite (proj2 (dget_None_notin _ key_eqb_eq _ k) Fr').
rewrite (dset_fresh _ _ key_eqb key_eqb_eq _ _ _ Fr').
unfold nodes_of. rewrite !map_app. reflexivity. }
rewrite W. rewrite IH.
+ now rewrite <- app_assoc.
+ now rewrite <- app_assoc.
+ intros kc I. apply S. now right.
Qed.

Lemma res_of_json :
fold_left (fun g kv => XCL.__setitem__ Hash g (NodeKey (fst kv)) (snd kv))
id_items empty
= mkGraph (id_nodes cells) [].
Proof.
exact (res_of_items cells [] (keys_distinct C)
     (fun kc I => keys_fixed C (fst kc) (snd kc)
                    (eq_ind _ (fun x => In x cells) I _ (surjective_pairing kc)))).
Qed.

(** For a consistent graph in embedded form whose keys the JSON document
gives back, [XCL.from_json(g.to_json())] returns a graph with the
nodes of [g]: every node holds the cell it held, and evaluates to the
same result.  The document is the mapping of the stringified keys to
the payloads: [jsonpickle] is taken to decode what it has encoded. *)
Theorem from_json_gives_back_a_consistent_graph (g : DiGraph) :
_node g = nodes_of cells ->
exists j r,
XCL.to_json Hash g = Ok j
/\ XCL.from_json Hash j = Ok r
/\ _node r = _node g
/\ forall k, evaluate_at Hash call r k = evaluate_at Hash call g k.
Proof.
intros N. destruct g as [n e]. cbn [_node] in N. subst n.
destruct (add_parents_consistent Hash cells C [] (fun u v (I : In (u, v) []) => match I with end))
as [e' [A [D' F]]].
exists json_items, (mkGraph (nodes_of cells) e').
split; [apply to_json_consistent|]. split; [|split; [reflexivity|]].
- unfold XCL.from_json. rewrite minimal_of_json, res_of_json, A.
now apply from_id_consistent.
- intro k. now apply evaluate_at_nodes.
Qed.
End WithHash.

End RoundTripFacts.

(** ** The round trips on the concrete scenario, and where they fail *)

Module TripExamples.
Import Py NX Order Deps Refs RoundTrip Trips Scenario Calls RoundTripFacts.

Lemma scenario_consistent : consistent Hash0 scenario_cells.
Proof.
  constructor.
  - repeat constructor; simpl; intuition discriminate.
  - intros k c [E|[E|[E|[]]]]; inversion E; reflexivity.
  - intros k c [E|[E|[E|[]]]]; inversion E; reflexivity.
  - intros k c [E|[E|[E|[]]]]; inversion E; reflexivity.
  - intros k c [E|[E|[E|[]]]]; inversion E; reflexivity.
  - intros k c [E|[E|[E|[]]]]; inversion E; reflexivity.
  - intros k c d [E|[E|[E|[]]]] I; inversion E; subst; simpl in I.
    + destruct I as [<-|[<-|[]]]; simpl; tauto.
    + destruct I.
    + destruct I.
Qed.

Lemma scenario_json_safe k : In k (map fst scenario_cells) -> json_safe k = true.
Proof. intros [<-|[<-|[<-|[]]]]; reflexivity. Qed.

Lemma C2_to_id_add_parents_from_id_witness :
  exists h i r,
    XCL.to_id Hash0 scenario_graph = Ok h
    /\ XCL.add_parents Hash0 VNone VNone h = (Ok tt, i)
    /\ XCL.from_id Hash0 i = Ok r
    /\ evaluate_at Hash0 call0 r (KStr "c") = Ok (VInt 3).
Proof.
  destruct (@C2_to_id_add_parents_from_id Hash0 call0 scenario_cells
              scenario_consistent scenario_graph eq_refl
              (fun u v (I : In (u, v) []) => match I with end))
    as [h [i [r [T [A [F [_ Ev]]]]]]].
  exists h, i, r. repeat split; try assumption.
  rewrite Ev. reflexivity.
Defined.

Lemma from_json_gives_back_a_consistent_graph_witness :
  exists j r,
    XCL.to_json Hash0 scenario_graph = Ok j
    /\ XCL.from_json Hash0 j = Ok r
    /\ evaluate_at Hash0 call0 r (KStr "c") = Ok (VInt 3).
Proof.
  destruct (@from_json_gives_back_a_consistent_graph Hash0 call0 scenario_cells
              scenario_consistent scenario_json_safe scenario_graph eq_refl)
    as [j [r [T [F [_ Ev]]]]].
  exists j, r. repeat split; try assumption.
  rewrite Ev. reflexivity.
Defined.

(** C2 fails as stated: the cell of [pair_graph] adds two tuples; the trip
    through references returns, but [_from_id] has rebuilt the tuples as
    lists, and the cell now evaluates to a list. *)
Lemma C2_counterexample :
  exists h i r,
    XCL.to_id Hash0 pair_graph = Ok h
    /\ XCL.add_parents Hash0 VNone VNone h = (Ok tt, i)
    /\ XCL.from_id Hash0 i = Ok r
    /\ evaluate_at Hash0 call0 pair_graph (KStr "p") = Ok (VTuple [VInt 1; VInt 2])
    /\ evaluate_at Hash0 call0 r (KStr "p") = Ok (VList [VInt 1; VInt 2]).
Proof.
  do 3 eexists. split; [reflexivity|]. split; [reflexivity|].
  split; [reflexivity|]. split; reflexivity.
Qed.

(** C1, at the input on which the code fails: [none_graph] is the graph of
    the scenario with one more cell, [Cell('n', round, 1, None)]; it has no
    cycle, every cell of it evaluates, and it serialises, but [from_json]
    does not return a graph: [add_parents] takes the [None] among the
    arguments for its own default and recurses on it without end. *)
Theorem C1_reload_of_a_None_argument :
  evaluate_at Hash0 call0 none_graph (KStr "n") = Ok (VInt 1)
  /\ evaluate_at Hash0 call0 none_graph (KStr "c") = Ok (VInt 3)
  /\ _edges none_graph = []
  /\ exists j, XCL.to_json Hash0 none_graph = Ok j
               /\ XCL.from_json Hash0 j = Raise RecursionError.
Proof.
  split; [reflexivity|]. split; [reflexivity|]. split; [reflexivity|].
  eexists. split; reflexivity.
Qed.

End TripExamples.

(** ** C9: [eq] on two mappings *)

Module EqFacts.
Import Py Containers.
Local Unset Implicit Arguments.

Section Sorting.
(** A class of keys that compare with each other. *)
Variable P : key -> bool.
Hypothesis comparable : forall a b,
P a = true -> P b = true -> exists r, key_lt a b = Ok r.

Definition all_in (l : list (keyobj * value)) : Prop :=
Forall (fun kv => P (kval (fst kv)) = true) l.

Lemma insert_ok kv l :
P (kval (fst kv)) = true -> all_in l ->
exists r, insert kv l = Ok r /\ List.length r = S (List.length l) /\ all_in r.
Proof.
intros Pk A. induction A as [|kv' l Pk' A IH]; cbn [insert].
- exists [kv]. split; [reflexivity|]. split; [reflexivity|].
constructor; [exact Pk | constructor].
- destruct (comparable _ _ Pk Pk') as [b ->]. cbn [bind].
destruct b.
+ eexists. split; [reflexivity|]. split; [reflexivity|].
  constructor; [exact Pk|]. constructor; assumption.
+ destruct IH as [r [-> [L Ar]]]. cbn [bind].
  eexists. split; [reflexivity|]. split; [simpl; now rewrite L|].
  constructor; assumption.
Qed.

(** Sorting items whose keys compare succeeds and keeps their number. *)
Lemma sorted_ok l :
all_in l -> exists s, sorted l = Ok s /\ List.length s = List.length l /\ all_in s.
Proof.
induction 1 as [|kv l Pk A IH]; cbn [sorted].
- exists []. split; [reflexivity|]. split; [reflexivity | constructor].
- destruct IH as [s [-> [L As]]]. cbn [bind].
destruct (insert_ok kv s Pk As) as [r [E [Lr Ar]]].
exists r. split; [exact E|]. split; [simpl; congruence | exact Ar].
Qed.
End Sorting.

Definition is_int_key (k : key) : bool :=
  match k with KInt _ => true | KStr _ => false end.
Definition is_str_key (k : key) : bool :=
  match k with KInt _ => false | KStr _ => true end.

Lemma sortable_sorted items :
  sortable items = true ->
  exists s, sorted items = Ok s /\ List.length s = List.length items.
Proof.
  unfold sortable. intro H. apply orb_true_iff in H. destruct H as [H|H].
  - destruct (sorted_ok is_int_key) with (l := items) as [s [E [L _]]].
    + intros [x|x] [y|y]; try discriminate. intros _ _. eexists. reflexivity.
    + apply Forall_forall. rewrite forallb_forall in H. intros kv I.
      specialize (H kv I). unfold is_int_key. destruct (kval (fst kv)); congruence.
    + exists s. now split.
  - destruct (sorted_ok is_str_key) with (l := items) as [s [E [L _]]].
    + intros [x|x] [y|y]; try discriminate. intros _ _. eexists. reflexivity.
    + apply Forall_forall. rewrite forallb_forall in H. intros kv I.
      specialize (H kv I). unfold is_str_key. destruct (kval (fst kv)); congruence.
    + exists s. now split.
Qed.

Lemma eq_same d (v : value) : eq (S d) (Scalar v) (Scalar v) = Ok true.
Proof. cbn [eq]. unfold is_. now rewrite Nat.eqb_refl. Qed.

Lemma map2_same (f : value -> value -> result bool) (l : list value) :
  (forall v, f v v = Ok true) ->
  exists bs, map2 f l l = Ok bs /\ forallb (fun b => b) bs = true.
Proof.
  intro H. induction l as [|v l IH]; cbn [map2].
  - exists []. now split.
  - rewrite H. cbn [bind]. destruct IH as [bs [-> B]]. cbn [bind].
    exists (true :: bs). now split.
Qed.

Lemma eq_seq_step d kind kind' id1 id2 (xs ys : list value) :
  eq (S d) (Seq kind id1 xs) (Seq kind' id2 ys)
  = if is_ (Seq kind id1 xs) (Seq kind' id2 ys) then Ok true
    else if kind_eqb kind kind' && Nat.eqb (List.length xs) (List.length ys) && _eq_attrs
         then bind (vectorize (fun a b => eq d (Scalar a) (Scalar b)) xs ys)
                   (fun bs => Ok (forallb (fun b => b) bs))
         else Ok false.
Proof. reflexivity. Qed.

Lemma eq_dict_step d id id' cls cls' (items items' : list (keyobj * value)) :
  eq (S d) (Scalar (VDict id cls items)) (Scalar (VDict id' cls' items'))
  = if is_ (Scalar (VDict id cls items)) (Scalar (VDict id' cls' items')) then Ok true
    else if String.eqb cls cls' && Nat.eqb (List.length items) (List.length items')
         then
           let fresh := S (Nat.max (max_id_obj (Scalar (VDict id cls items)))
                                   (max_id_obj (Scalar (VDict id' cls' items')))) in
           bind (sorted items) (fun sx => bind (unzip sx) (fun xkv =>
           bind (sorted items) (fun sy => bind (unzip sy) (fun ykv =>
           bind (eq d (Seq KTuple fresh (fst xkv)) (Seq KTuple (S fresh) (fst ykv)))
             (fun keys_eq =>
              if keys_eq
              then eq d (Seq KArray (S (S fresh)) (snd xkv))
                        (Seq KArray (S (S (S fresh))) (snd ykv))
              else Ok false)))))
         else Ok false.
Proof. reflexivity. Qed.

(** Two distinct sequences of the same kind that hold the same objects are
    equal, whatever the objects are. *)
Lemma eq_seq_same d kind id1 id2 (l : list value) :
  id1 <> id2 -> l <> [] ->
  eq (S (S d)) (Seq kind id1 l) (Seq kind id2 l) = Ok true.
Proof.
  intros N NE. rewrite eq_seq_step. unfold is_. cbn [ident].
  rewrite (proj2 (Nat.eqb_neq id1 id2) N).
  assert (K : kind_eqb kind kind = true) by (destruct kind; reflexivity).
  rewrite K, Nat.eqb_refl. unfold _eq_attrs. cbn [andb].
  destruct l as [|v l]; [congruence|].
  unfold vectorize. rewrite eq_same. cbn [bind].
  destruct (map2_same (fun a b => eq (S d) (Scalar a) (Scalar b)) (v :: l) (eq_same d))
    as [bs [-> B]].
  cbn [bind]. now rewrite B.
Qed.

(** Two mappings of the same type with the same number of keys, which is
    not zero, are found equal whatever the second holds, when the keys of
    the first sort (all integers or all strings), its values are scalars or
    mappings (no sequence, which numpy would lay out as a further
    dimension) and the recursion may go three calls deep. *)
Theorem eq_of_mappings_ignores_the_second
  (depth id id' : nat) (cls : string) (items items' : list (keyobj * value)) :
  (3 <= depth)%nat -> items <> [] -> sortable items = true ->
  List.length items = List.length items' ->
  eq depth (Scalar (VDict id cls items)) (Scalar (VDict id' cls items')) = Ok true.
Proof.
  intros D NE S L.
  destruct depth as [|[|[|d]]]; try lia.
  rewrite eq_dict_step. destruct (is_ _ _); [reflexivity|].
  rewrite String.eqb_refl, L, Nat.eqb_refl. cbn [andb]. cbv zeta.
  destruct (sortable_sorted items S) as [s [-> Ls]]. cbn [bind].
  assert (NS : s <> []).
  { destruct s; [|discriminate]. destruct items; [congruence | discriminate]. }
  destruct s as [|kv s]; [congruence|]. cbn [unzip bind fst snd].
  rewrite eq_seq_same; [| apply Nat.neq_succ_diag_r | discriminate].
  cbn [bind]. apply eq_seq_same; [apply Nat.neq_succ_diag_r | discriminate].
Qed.

Lemma eq_of_mappings_ignores_the_second_witness : eq 3 dict_a1 dict_a2 = Ok true.
Proof.
  apply eq_of_mappings_ignores_the_second;
    [lia | discriminate | reflexivity | reflexivity].
Defined.

(** C9, at the input on which the code fails: two empty dicts have the same
    type and the same number of keys, and [eq] raises [ValueError] on them
    instead of returning [True]: the sorted items of the first unpack into
    nothing. *)
Theorem C9_eq_of_two_empty_dicts :
  eq 1000 empty_1 empty_2
  = Raise (ValueError "not enough values to unpack (expected 2, got 0)").
Proof. reflexivity. Qed.

End EqFacts.

(** ** The rewrites keep the shape of the graph *)

Module ShapeFacts.
Import Py NX Order Deps Refs Cyclic Calls Shape DictFacts ValueInd InsertFacts
       RefFacts CycleFacts PayloadFacts.

Local Unset Implicit Arguments.

Lemma dset_same_value {K V} (eqb : K -> K -> bool)
  (eqb_eq : forall a b, eqb a b = true <-> a = b) (d : list (K * V)) k v :
  dget eqb d k = Some v -> dset eqb d k v = d.
Proof.
  induction d as [|[k0 v0] d IH]; simpl; [discriminate|].
  destruct (eqb k0 k) eqn:E.
  - now intros [= ->].
  - intro H. now rewrite IH.
Qed.

Lemma same_shape_refl g : same_shape g g.
Proof. split; reflexivity. Qed.

Lemma same_shape_trans g1 g2 g3 :
  same_shape g1 g2 -> same_shape g2 g3 -> same_shape g1 g3.
Proof. intros [A B] [A' B']. split; congruence. Qed.

Section WithHash.
Variable Hash : key -> key.

(** Writing to a node that can be read keeps the shape. *)
Lemma setitem_read_shape g n p v :
XCL.__getitem__ Hash g (NodeKey n) = Ok p ->
forall h, Ok (XCL.__setitem__ Hash g (NodeKey n) v) = Ok h -> same_shape g h.
Proof.
rewrite getitem_node.
destruct (dget key_eqb (_node g) (XCL._key_node Hash n)) as [d|] eqn:G; [|discriminate].
intros _ h [= <-]. split; [|reflexivity].
unfold XCL.__setitem__, add_node. cbn [_node].
apply (dset_keys_present _ key_eqb_eq).
apply (dmem_In _ key_eqb_eq). unfold dmem. now rewrite G.
Qed.

Lemma to_id_step_shape g n h : XCL.to_id_step Hash g n = Ok h -> same_shape g h.
Proof.
unfold XCL.to_id_step.
destruct (XCL.__getitem__ Hash g (NodeKey n)) as [p|e] eqn:G; [|discriminate].
cbn [obind]. destruct p; try discriminate.
intro H. eapply setitem_read_shape; [exact G | exact H].
Qed.

Lemma from_id_step_shape g n h : XCL.from_id_step Hash g n = Ok h -> same_shape g h.
Proof.
unfold XCL.from_id_step.
destruct (XCL.__getitem__ Hash g (NodeKey n)) as [p|e] eqn:G; [|discriminate].
cbn [obind]. destruct p; try discriminate.
destruct (XCL._from_id Hash g (function c)); [|discriminate]. cbn [obind].
destruct (omap (XCL._from_id Hash g) (args c)); [|discriminate]. cbn [obind].
destruct (omap_items (XCL._from_id Hash g) (kwargs c)); [|discriminate]. cbn [obind].
intro H. eapply setitem_read_shape; [exact G | exact H].
Qed.

Lemma ofold_shape (f : DiGraph -> key -> outcome DiGraph) :
(forall g n h, f g n = Ok h -> same_shape g h) ->
forall l g h, XCL.ofold f l g = Ok h -> same_shape g h.
Proof.
intros F. induction l as [|n l IH]; intros g h; cbn [XCL.ofold].
- intros [= <-]. apply same_shape_refl.
- destruct (f g n) as [g'|e] eqn:E; [|discriminate]. cbn [obind].
intro H. eapply same_shape_trans; [eapply F; exact E | now apply IH].
Qed.

(** [to_id] and [from_id] rewrite the payloads only: a graph that either
returns has the node keys of [self] in the same order and the edges of
[self]. *)
Theorem rewrites_keep_nodes_and_edges (g h : DiGraph) :
XCL.to_id Hash g = Ok h \/ XCL.from_id Hash g = Ok h -> same_shape g h.
Proof.
intros [H|H].
- unfold XCL.to_id in H. eapply ofold_shape; [|exact H]. apply to_id_step_shape.
- unfold XCL.from_id in H. destruct (topological_sort g) as [order bad].
destruct (XCL.ofold (XCL.from_id_step Hash) order g) as [r|e] eqn:E; [|discriminate].
cbn [obind] in H. destruct bad; [discriminate|]. injection H as <-.
eapply ofold_shape; [|exact E]. apply from_id_step_shape.
Qed.

(** [to_json] encodes the nodes only: the document of a graph is that of the
graph without its edges. *)
Theorem to_json_drops_the_edges (g : DiGraph) :
XCL.to_json Hash g = XCL.to_json Hash (nodes_only g).
Proof.
unfold XCL.to_json, XCL.to_id.
change (_node (nodes_only g)) with (_node g).
rewrite to_id_fold_nodes_only.
destruct (XCL.ofold (XCL.to_id_step Hash) (map fst (_node g)) g); reflexivity.
Qed.

End WithHash.

Lemma rewrites_keep_nodes_and_edges_witness :
  exists h, XCL.from_id Scenario.Hash0 linked_graph = Ok h /\ same_shape linked_graph h.
Proof.
  eexists. split; [vm_compute; reflexivity|].
  apply (rewrites_keep_nodes_and_edges Scenario.Hash0). right. vm_compute. reflexivity.
Defined.

End ShapeFacts.

(** ** Reading what was written *)

Module AccessFacts.
Import Py NX PyStr Order Deps Refs Cyclic Calls Shape RoundTrip DictFacts ValueInd
       InsertFacts TopoFacts RefFacts PayloadFacts RefStrings ShapeFacts.

Local Unset Implicit Arguments.

Lemma takes_value_update (d : option attrs) (x : pyval) :
  takes_value d = true ->
  dupdate String.eqb (match d with Some a => a | None => [] end) [("value", x)]
  = [("value", x)].
Proof.
  destruct d as [[|[k0 v0] [|? ?]]|]; simpl; try discriminate; try reflexivity.
  intro E. rewrite E. apply String.eqb_eq in E. now subst k0.
Qed.

Section WithHash.
Variable Hash : key -> key.

Lemma setitem_then_stored g k v :
takes_value (dget key_eqb (_node g) (XCL._key_node Hash k)) = true ->
dget key_eqb (_node (XCL.__setitem__ Hash g (NodeKey k) v)) (XCL._key_node Hash k)
= Some [("value", XCL.as_cell k v)].
Proof.
intro T. unfold XCL.__setitem__, add_node. cbn [_node].
rewrite (dget_dset_same _ key_eqb_eq). f_equal.
replace (XCL._as_dict (XCL.as_cell k v)) with [("value", XCL.as_cell k v)]
by (destruct v; reflexivity).
exact (takes_value_update _ _ T).
Qed.

(** After [g[k] = v], for a legible key [k] (ASCII, of at most 4300
characters), the cell that was stored ([v] itself, or [Cell(k, v)]
for a [v] that is no cell) is read back under [k], under the reference
string ['@k'] when [k] is an id that reads neither as an integer nor as
a reference, and under the key the graph stores it at when that key is
legible and the key normalisation fixes it; [k in g] holds.
The node must be new, or hold no attribute besides [value]. *)
Theorem written_cell_is_read_under_every_alias (g : DiGraph) (k : key) (v : pyval) :
legible k = true ->
takes_value (dget key_eqb (_node g) (XCL._key_node Hash k)) = true ->
XCL.__getitem__ Hash (XCL.__setitem__ Hash g (NodeKey k) v) (NodeKey k)
= Ok (XCL.as_cell k v)
/\ XCL.__contains__ Hash (XCL.__setitem__ Hash g (NodeKey k) v) (NodeKey k) = true
/\ (ref_safe k = true ->
XCL.__getitem__ Hash (XCL.__setitem__ Hash g (NodeKey k) v)
(NodeKey (KStr (XCL.ref_of k))) = Ok (XCL.as_cell k v))
/\ (legible (XCL._key_node Hash k) = true -> stable Hash (XCL._key_node Hash k) ->
XCL.__getitem__ Hash (XCL.__setitem__ Hash g (NodeKey k) v)
(NodeKey (XCL._key_node Hash k)) = Ok (XCL.as_cell k v)).
Proof.
intros _ T. pose proof (setitem_then_stored g k v T) as S.
split; [|split; [|split]].
- rewrite getitem_node, S. reflexivity.
- unfold XCL.__contains__, has_node, dmem. cbn [XCL._key]. now rewrite S.
- intro R. rewrite getitem_node, (key_node_ref Hash k R).
rewrite <- (key_node_safe Hash k R), S. reflexivity.
- intros _ F. rewrite getitem_node. unfold stable in F. rewrite F, S. reflexivity.
Qed.



(** On a value that holds no reference and no tuple, [_from_id] is the
identity, whatever the graph. *)
Lemma from_id_settled (result : DiGraph) (v : pyval) :
settled v = true -> XCL._from_id Hash result v = Ok v.
Proof.
induction v as [| | | | l IH | l IH | d IH | n f IHf a IHa k IHk]
using pyval_nested_ind; cbn [settled XCL._from_id]; try reflexivity; try discriminate.
- intro S. apply negb_true_iff in S. now rewrite S.
- intro S.
assert (E : omap (XCL._from_id Hash result) l = Ok l).
{ induction l as [|x l IHl]; [reflexivity|].
cbn [forallb] in S. apply andb_true_iff in S. destruct S as [Sx Sl].
inversion IH as [|? ? Hx Hl]; subst.
cbn [omap]. rewrite (Hx Sx). cbn [obind].
change ((fix go (l0 : list pyval) : outcome (list pyval) :=
   match l0 with
   | [] => Ok []
   | x0 :: l' => obind (XCL._from_id Hash result x0)
        (fun y => obind (go l') (fun ys => Ok (y :: ys)))
   end) l) with (omap (XCL._from_id Hash result) l).
rewrite (IHl Hl Sl). reflexivity. }
rewrite E. reflexivity.
Qed.

Lemma omap_from_id_settled (result : DiGraph) (l : list pyval) :
forallb settled l = true -> omap (XCL._from_id Hash result) l = Ok l.
Proof.
induction l as [|x l IH]; [reflexivity|].
cbn [forallb]. intro S. apply andb_true_iff in S. destruct S as [Sx Sl].
cbn [omap]. rewrite (from_id_settled result x Sx). cbn [obind].
change ((fix go (l0 : list pyval) : outcome (list pyval) :=
 match l0 with
 | [] => Ok []
 | x0 :: l' => obind (XCL._from_id Hash result x0)
      (fun y => obind (go l') (fun ys => Ok (y :: ys)))
 end) l) with (omap (XCL._from_id Hash result) l).
rewrite (IH Sl). reflexivity.
Qed.

Lemma omap_items_from_id_settled (result : DiGraph) (l : list (string * pyval)) :
forallb (fun kv => settled (snd kv)) l = true ->
omap_items (XCL._from_id Hash result) l = Ok l.
Proof.
induction l as [|[s x] l IH]; [reflexivity|].
cbn [forallb snd]. intro S. apply andb_true_iff in S. destruct S as [Sx Sl].
cbn [omap_items]. rewrite (from_id_settled result x Sx). cbn [obind].
change ((fix go (l0 : list (string * pyval)) : outcome (list (string * pyval)) :=
 match l0 with
 | [] => Ok []
 | (k, x0) :: l' => obind (XCL._from_id Hash result x0)
      (fun y => obind (go l') (fun ys => Ok ((k, y) :: ys)))
 end) l) with (omap_items (XCL._from_id Hash result) l).
rewrite (IH Sl). reflexivity.
Qed.

Lemma from_id_step_settled (g : DiGraph) (n : key) :
all_cells g -> keys_stable Hash g ->
(forall k c, In (k, [("value", VCell c)]) (_node g) -> fields_settled c = true) ->
In n (map fst (_node g)) ->
XCL.from_id_step Hash g n = Ok g.
Proof.
intros A S F I. unfold XCL.from_id_step. rewrite getitem_node.
pose proof (S n I) as Sn. unfold stable in Sn. rewrite Sn.
apply (dmem_In _ key_eqb_eq) in I. unfold dmem in I.
destruct (dget key_eqb (_node g) n) as [d|] eqn:G; [|discriminate].
pose proof G as Id. apply (dget_In _ key_eqb_eq) in Id.
destruct (A _ _ Id) as [c ->].
change (DAG._as_value [("value", VCell c)]) with (VCell c). cbn [obind].
pose proof (F _ _ Id) as Fc. unfold fields_settled in Fc.
apply andb_true_iff in Fc. destruct Fc as [Fc Fk].
apply andb_true_iff in Fc. destruct Fc as [Ff Fa].
rewrite (from_id_settled g _ Ff). cbn [obind].
rewrite (omap_from_id_settled g _ Fa). cbn [obind].
rewrite (omap_items_from_id_settled g _ Fk). cbn [obind].
f_equal. unfold XCL.__setitem__, add_node. rewrite Sn, G.
destruct c as [cn cf ca ck]. cbn [node function args kwargs XCL.as_cell XCL._as_dict].
change (dupdate String.eqb [("value", VCell (Cell cn cf ca ck))]
  [("value", VCell (Cell cn cf ca ck))])
with [("value", VCell (Cell cn cf ca ck))].
rewrite (dset_same_value _ key_eqb_eq _ _ _ G). now destruct g.
Qed.

(** [from_id] gives back a graph that has nothing to resolve: when every
node holds a cell at a key that the key normalisation fixes, no cell
holds a reference string or a tuple, and the edges have no cycle, the
result is the graph itself. *)
Theorem from_id_of_a_graph_without_references (g : DiGraph) (rank : key -> nat) :
all_cells g -> keys_stable Hash g ->
(forall k c, In (k, [("value", VCell c)]) (_node g) -> fields_settled c = true) ->
ranked (map fst (_edges g)) rank ->
XCL.from_id Hash g = Ok g.
Proof.
intros A S F R. unfold XCL.from_id.
pose proof (@topological_sort_ranked g rank R) as B.
destruct (topological_sort g) as [order bad] eqn:T. cbn [snd] in B. subst bad.
assert (E : XCL.ofold (XCL.from_id_step Hash) order g = Ok g).
{ pose proof (@topological_sort_sound g order false T) as Snd.
clear T. induction order as [|n order IH]; [reflexivity|].
cbn [XCL.ofold]. rewrite (from_id_step_settled g n A S F); [|apply Snd; now left].
cbn [obind]. apply IH. intros k I. apply Snd. now right. }
rewrite E. reflexivity.
Qed.

End WithHash.

(** A legible id (ASCII and of at most 4300 characters when written out)
    comes back from its reference string ['@%s' % id] and from its JSON key
    exactly when it is an integer or a string that does not read as an
    integer; a string of digits comes back as the integer. *)
Theorem id_comes_back_from_its_strings (k : key) :
  legible k = true ->
  (XCL.parse_key (tail (XCL.ref_of k)) = k <-> json_safe k = true)
  /\ (XCL.parse_key (XCL.json_key k) = k <-> json_safe k = true)
  /\ (forall s, k = KStr s -> _is_int s = true ->
      XCL.parse_key (tail (XCL.ref_of k)) = KInt (py_int s)).
Proof.
  intro L.
  assert (T : tail (XCL.ref_of k) = XCL.json_key k) by (destruct k; reflexivity).
  rewrite T. assert (H : XCL.parse_key (XCL.json_key k) = k <-> json_safe k = true).
  { split; [|apply json_key_safe].
    unfold json_safe. rewrite L.
    destruct k as [z|s]; [reflexivity|]. unfold XCL.parse_key. cbn [XCL.json_key andb].
    destruct (_is_int s); [discriminate | reflexivity]. }
  split; [exact H|]. split; [exact H|].
  intros s -> I. unfold XCL.parse_key. cbn [XCL.json_key]. now rewrite I.
Qed.

Lemma id_comes_back_from_its_strings_witness :
  XCL.parse_key (tail (XCL.ref_of (KInt (-12)))) = KInt (-12)
  /\ XCL.parse_key (tail (XCL.ref_of (KStr "a1"))) = KStr "a1"
  /\ XCL.parse_key (tail (XCL.ref_of (KStr "-12"))) = KInt (-12).
Proof.
  split; [|split].
  - apply (id_comes_back_from_its_strings (KInt (-12)) Logic.eq_refl). reflexivity.
  - apply (id_comes_back_from_its_strings (KStr "a1") Logic.eq_refl). reflexivity.
  - apply (proj2 (proj2 (id_comes_back_from_its_strings (KStr "-12") Logic.eq_refl))
             "-12"); reflexivity.
Defined.

Lemma written_cell_is_read_under_every_alias_witness :
  XCL.__getitem__ Scenario.Hash0
    (XCL.__setitem__ Scenario.Hash0 linked_graph (NodeKey (KStr "d")) (VInt 4))
    (NodeKey (KStr "@d"))
  = Ok (VCell (Cell (KStr "d") (VInt 4) [] [])).
Proof.
  destruct (written_cell_is_read_under_every_alias Scenario.Hash0 linked_graph
              (KStr "d") (VInt 4)) as [_ [_ [R _]]].
  - reflexivity.
  - reflexivity.
  - apply R. reflexivity.
Defined.

Lemma scenario_graph_cells : all_cells scenario_graph.
Proof.
  intros k d I. vm_compute in I.
  repeat (destruct I as [I|I]; [injection I as <- <-; eexists; reflexivity|]).
  destruct I.
Qed.


Lemma linked_graph_cells : all_cells linked_graph.
Proof.
  intros k d I. vm_compute in I.
  repeat (destruct I as [I|I]; [injection I as <- <-; eexists; reflexivity|]).
  destruct I.
Qed.

Lemma from_id_of_a_graph_without_references_witness :
  XCL.from_id Scenario.Hash0 linked_graph = Ok linked_graph.
Proof.
  apply (from_id_of_a_graph_without_references Scenario.Hash0 linked_graph scenario_rank).
  - exact linked_graph_cells.
  - intros k I. vm_compute in I.
    destruct I as [<-|[<-|[<-|[]]]]; reflexivity.
  - intros k c I. vm_compute in I.
    repeat (destruct I as [I|I]; [injection I as <- <-; reflexivity|]).
    destruct I.
  - intros u v I. vm_compute in I.
    destruct I as [I|[I|[]]]; injection I as <- <-; vm_compute; lia.
Defined.

End AccessFacts.

(** ** The table of an acyclic graph *)

Module TableFacts.
Import Py NX PyStr Order Deps Refs Cyclic Calls Shape DictFacts TopoFacts RefFacts
       PayloadFacts AccessFacts.

Local Unset Implicit Arguments.

Section WithHash.
Variable Hash : key -> key.

Lemma rows_of_nodes (g : DiGraph) :
all_cells g -> keys_stable Hash g ->
forall order, (forall n, In n order -> In n (map fst (_node g))) ->
exists rows,
obind (omap (fun n => obind (XCL.__getitem__ Hash g (NodeKey n)) (fun p => Ok (n, p))) order)
(omap (fun np : key * pyval =>
match snd np with
| VCell c => Ok (XCL.mkRow (fst np) (function c) (args c) (kwargs c) (node c))
| _ => Raise (AttributeError "function")
end)) = Ok rows
/\ map XCL.row_node_id rows = order
/\ Forall (row_of_node g) rows.
Proof.
intros A S. induction order as [|n order IH]; intro I.
- exists []. repeat split. constructor.
- destruct IH as [rows [E [M F]]]; [intros k Ik; apply I; now right|].
assert (In n (map fst (_node g))) as In_n by (apply I; now left).
pose proof (S n In_n) as Sn. unfold stable in Sn.
apply (dmem_In _ key_eqb_eq) in In_n. unfold dmem in In_n.
destruct (dget key_eqb (_node g) n) as [d|] eqn:G; [|discriminate].
pose proof G as Id. apply (dget_In _ key_eqb_eq) in Id.
destruct (A _ _ Id) as [c Ec]. subst d.
destruct (omap (fun n0 => obind (XCL.__getitem__ Hash g (NodeKey n0)) (fun p => Ok (n0, p)))
      order) as [ps|e] eqn:P; [|discriminate].
cbn [obind] in E.
exists (XCL.mkRow n (function c) (args c) (kwargs c) (node c) :: rows).
split; [|split].
+ cbn [omap]. rewrite getitem_node, Sn, G.
change (DAG._as_value [("value", VCell c)]) with (VCell c). cbn [obind].
change ((fix go (l : list key) : outcome (list (key * pyval)) :=
   match l with
   | [] => Ok []
   | x :: l' => obind (obind (XCL.__getitem__ Hash g (NodeKey x)) (fun p => Ok (x, p)))
        (fun y => obind (go l') (fun ys => Ok (y :: ys)))
   end) order)
with (omap (fun n0 => obind (XCL.__getitem__ Hash g (NodeKey n0)) (fun p => Ok (n0, p))) order).
rewrite P. cbn [obind omap fst snd].
change ((fix go (l : list (key * pyval)) : outcome (list XCL.row) :=
   match l with
   | [] => Ok []
   | x :: l' => obind
        match snd x with
        | VCell c0 => Ok (XCL.mkRow (fst x) (function c0) (args c0) (kwargs c0) (node c0))
        | _ => Raise (AttributeError "function")
        end (fun y => obind (go l') (fun ys => Ok (y :: ys)))
   end) ps)
with (omap (fun np : key * pyval =>
match snd np with
| VCell c0 => Ok (XCL.mkRow (fst np) (function c0) (args c0) (kwargs c0) (node c0))
| _ => Raise (AttributeError "function")
end) ps).
rewrite E. reflexivity.
+ cbn [map XCL.row_node_id]. now rewrite M.
+ constructor; [|exact F]. unfold row_of_node. cbn. rewrite G.
now destruct c.
Qed.

(** [to_table] of a graph without a cycle: when every node holds a cell at a
key that the key normalisation fixes, the table has one row for every
node, the row of a node carries the fields of the node's cell, and the
row of the source of an edge comes before the row of its target. *)
Theorem to_table_lists_parents_first (g : DiGraph) (rank : key -> nat) :
NoDup (map fst (_node g)) -> all_cells g -> keys_stable Hash g ->
edges_closed g -> ranked (map fst (_edges g)) rank ->
exists rows,
XCL.to_table Hash g = Ok rows
/\ NoDup (map XCL.row_node_id rows)
/\ (forall k, In k (map XCL.row_node_id rows) <-> In k (map fst (_node g)))
/\ Forall (row_of_node g) rows
/\ (forall before r after u, rows = (before ++ r :: after)%list ->
edge g u (XCL.row_node_id r) -> In u (map XCL.row_node_id before)).
Proof.
intros N A S W R. unfold XCL.to_table.
pose proof (@topological_sort_ranked g rank R) as B.
destruct (topological_sort g) as [order bad] eqn:T. cbn [snd] in B. subst bad.
destruct (rows_of_nodes g A S order (@topological_sort_sound g order false T))
as [rows [E [M F]]].
exists rows. split; [exact E|]. split; [|split; [|split]].
- rewrite M. exact (@topological_sort_NoDup g order false N T).
- intro k. rewrite M. split.
+ apply (@topological_sort_sound g order false T).
+ apply (@topological_sort_complete g order T).
- exact F.
- intros before r after u -> Ed.
rewrite map_app in M. cbn [map] in M.
exact (@topological_sort_order g order false T _ _ _ (Logic.eq_sym M) u Ed
   (proj1 (W _ _ Ed))).
Qed.

End WithHash.

Lemma linked_graph_stable : keys_stable Scenario.Hash0 linked_graph.
Proof.
  intros k I. vm_compute in I. destruct I as [<-|[<-|[<-|[]]]]; reflexivity.
Qed.

Lemma to_table_lists_parents_first_witness :
  exists rows,
    XCL.to_table Scenario.Hash0 linked_graph = Ok rows
    /\ map XCL.row_node rows = [KStr "a"; KStr "b"; KStr "c"].
Proof.
  destruct (to_table_lists_parents_first Scenario.Hash0 linked_graph scenario_rank)
    as [rows [E _]].
  - vm_compute. repeat constructor; simpl; intuition discriminate.
  - exact linked_graph_cells.
  - exact linked_graph_stable.
  - intros u v I. vm_compute in I.
    destruct I as [I|[I|[]]]; injection I as <- <-; vm_compute; tauto.
  - intros u v I. vm_compute in I.
    destruct I as [I|[I|[]]]; injection I as <- <-; vm_compute; lia.
  - exists rows. split; [exact E|].
    assert (X : XCL.to_table Scenario.Hash0 linked_graph
                = Ok [XCL.mkRow (KInt 353) (VInt 1) [] [] (KStr "a");
                      XCL.mkRow (KInt 354) (VInt 2) [] [] (KStr "b");
                      XCL.mkRow (KInt 355) (VFun "add")
                        [VCell Scenario.a_cell; VCell Scenario.b_cell] [] (KStr "c")])
      by (vm_compute; reflexivity).
    rewrite X in E. injection E as <-. reflexivity.
Defined.

End TableFacts.

(** ** [add_parents] a second time *)

Module ParentsTwice.
Import Py NX PyStr Order Deps Refs Cyclic Calls Shape Script DictFacts ValueInd
       InsertFacts RefFacts FailureFacts PayloadFacts ShapeFacts AccessFacts.

Local Unset Implicit Arguments.

Lemma omap_cons {A B} (f : A -> outcome B) x l :
  omap f (x :: l) = obind (f x) (fun y => obind (omap f l) (fun ys => Ok (y :: ys))).
Proof. reflexivity. Qed.

Lemma omap_app {A B} (f : A -> outcome B) l1 l2 :
  omap f (l1 ++ l2)
  = obind (omap f l1) (fun a => obind (omap f l2) (fun b => Ok (a ++ b)%list)).
Proof.
  induction l1 as [|x l1 IH].
  - change (([] ++ l2)%list) with l2. change (omap f []) with (@Ok (list B) []).
    cbn [obind]. destruct (omap f l2); reflexivity.
  - change (((x :: l1) ++ l2)%list) with (x :: (l1 ++ l2))%list. rewrite !omap_cons. destruct (f x) as [y|e]; [|reflexivity].
    cbn [obind]. rewrite IH. destruct (omap f l1) as [a|e]; [|reflexivity].
    cbn [obind]. destruct (omap f l2); reflexivity.
Qed.

Lemma mfor_cons {A} (f : A -> XCL.M unit) x l :
  XCL.mfor f (x :: l) = XCL.bind (f x) (fun _ => XCL.mfor f l).
Proof. reflexivity. Qed.

Lemma mfor_app {A} (f : A -> XCL.M unit) l1 l2 : forall g,
  XCL.mfor f (l1 ++ l2) g
  = XCL.bind (XCL.mfor f l1) (fun _ => XCL.mfor f l2) g.
Proof.
  induction l1 as [|x l1 IH]; intro g.
  - reflexivity.
  - change (((x :: l1) ++ l2)%list) with (x :: (l1 ++ l2))%list.
    rewrite !mfor_cons. unfold XCL.bind.
    destruct (f x g) as [[[]|e] g']; [|reflexivity].
    rewrite IH. reflexivity.
Qed.

Section WithHash.
Variable Hash : key -> key.

Lemma link_all_app es1 es2 g :
link_all Hash (es1 ++ es2) g = link_all Hash es2 (link_all Hash es1 g).
Proof. unfold link_all. apply fold_left_app. Qed.

(** *** The methods that [add_parents] runs on a cell are scripted *)

Lemma scripted_ret : scripted Hash (XCL.ret tt).
Proof. exists [], (Ok tt). reflexivity. Qed.

Lemma scripted_raise e : scripted Hash (XCL.raise e).
Proof. exists [], (Raise e). reflexivity. Qed.

Lemma scripted_set_parent p c : scripted Hash (XCL.set_parent Hash p c).
Proof. exists [(p, c)], (Ok tt). reflexivity. Qed.

Lemma scripted_bind (m1 m2 : XCL.M unit) :
scripted Hash m1 -> scripted Hash m2 -> scripted Hash (XCL.bind m1 (fun _ => m2)).
Proof.
intros [es1 [r1 H1]] [es2 [r2 H2]]. destruct r1 as [[]|e].
- exists (es1 ++ es2)%list, r2. intro g. unfold XCL.bind.
rewrite H1, H2, link_all_app. reflexivity.
- exists es1, (Raise e). intro g. unfold XCL.bind. rewrite H1. reflexivity.
Qed.

Lemma scripted_mfor {A} (f : A -> XCL.M unit) (l : list A) :
Forall (fun x => scripted Hash (f x)) l -> scripted Hash (XCL.mfor f l).
Proof.
induction 1 as [|x l Hx _ IH]; [apply scripted_ret|].
rewrite mfor_cons. now apply scripted_bind.
Qed.

Lemma scripted_walk_parent (parent : pyval) : forall on_none c,
scripted Hash on_none -> scripted Hash (XCL.walk_parent Hash on_none c parent).
Proof.
induction parent using pyval_nested_ind; intros on_none c0 Hn; simpl;
try apply scripted_ret; try exact Hn.
- destruct (_is_ref s); [apply scripted_set_parent | apply scripted_ret].
- apply scripted_mfor. eapply Forall_impl; [|exact H]. simpl. auto.
- apply scripted_mfor. eapply Forall_impl; [|exact H]. simpl. auto.
- apply scripted_set_parent.
Qed.

Lemma scripted_walk_dependencies c : scripted Hash (XCL.walk_dependencies Hash c).
Proof.
unfold XCL.walk_dependencies.
repeat (apply scripted_bind); apply scripted_walk_parent; apply scripted_raise.
Qed.

(** *** Declaring an edge that is there changes nothing *)

Lemma link_extends g e : extends g (link Hash g e).
Proof. unfold link. cbn [XCL.__setitem__ XCL._as_dict NX.clashes existsb]. apply extends_add_edge. Qed.

Lemma link_all_extends es : forall g, extends g (link_all Hash es g).
Proof.
induction es as [|e es IH]; intro g; [apply extends_refl|].
cbn [link_all fold_left]. eapply extends_trans; [apply link_extends | apply IH].
Qed.

Lemma has_node_extends g g' k : extends g g' -> has_node g k = true -> has_node g' k = true.
Proof.
intros [E _]. unfold has_node, dmem.
destruct (dget key_eqb (_node g) k) as [d|] eqn:G; [|discriminate].
now rewrite (E _ _ G).
Qed.

Lemma has_edge_extends g g' u v : extends g g' -> has_edge g u v = true -> has_edge g' u v = true.
Proof.
intros [_ E]. unfold has_edge, dmem.
destruct (dget edge_eqb (_edges g) (u, v)) as [d|] eqn:G; [|discriminate].
now rewrite (E _ _ G).
Qed.

Lemma declared_extends g g' e : extends g g' -> declared Hash g e -> declared Hash g' e.
Proof.
intros X [A [B C]]. repeat split;
[eapply has_node_extends | eapply has_node_extends | eapply has_edge_extends]; eauto.
Qed.

Lemma has_node_ensure g u :
has_node (if has_node g u then g else add_node g u []) u = true.
Proof.
destruct (has_node g u) eqn:H; [exact H|].
unfold has_node, dmem, add_node. cbn [_node].
now rewrite (dget_dset_same _ key_eqb_eq).
Qed.

Lemma ensure_extends g u : extends g (if has_node g u then g else add_node g u []).
Proof.
destruct (has_node g u) eqn:H; [apply extends_refl | now apply extends_add_absent].
Qed.

Lemma link_declares g e : declared Hash (link Hash g e) e.
Proof.
unfold declared, link. cbn [XCL.__setitem__ XCL._as_dict NX.clashes existsb].
set (u := XCL._key_node Hash (fst e)). set (v := XCL._key_node Hash (snd e)).
unfold add_edge.
set (g1 := if has_node g u then g else add_node g u []).
set (g2 := if has_node g1 v then g1 else add_node g1 v []).
assert (H1 : has_node g2 u = true).
{ apply (has_node_extends g1 g2); [apply ensure_extends | apply has_node_ensure]. }
assert (H2 : has_node g2 v = true) by apply has_node_ensure.
repeat split.
- exact H1.
- exact H2.
- unfold has_edge, dmem. cbn [_edges]. now rewrite (dget_dset_same _ edge_eqb_eq).
Qed.

Lemma link_declared g e : declared Hash g e -> link Hash g e = g.
Proof.
intros [A [B C]]. unfold link. cbn [XCL.__setitem__ XCL._as_dict NX.clashes existsb].
unfold add_edge. rewrite A, B.
unfold has_edge, dmem in C.
destruct (dget edge_eqb (_edges g) _) as [d|] eqn:G; [|discriminate].
change (dupdate String.eqb d []) with d.
rewrite (dset_same_value _ edge_eqb_eq _ _ _ G). now destruct g.
Qed.

Lemma link_all_declared es : forall g,
(forall e, In e es -> declared Hash g e) -> link_all Hash es g = g.
Proof.
induction es as [|e es IH]; intros g D; [reflexivity|].
cbn [link_all fold_left]. rewrite (link_declared g e); [|apply D; now left].
apply IH. intros e' I. apply D. now right.
Qed.

Lemma link_all_declares es : forall g e,
In e es -> declared Hash (link_all Hash es g) e.
Proof.
induction es as [|e0 es IH]; intros g e []; cbn [link_all fold_left].
- subst e0. eapply declared_extends; [apply link_all_extends | apply link_declares].
- now apply IH.
Qed.

Lemma link_all_twice es g :
link_all Hash es (link_all Hash es g) = link_all Hash es g.
Proof. apply link_all_declared. intros e I. now apply link_all_declares. Qed.

(** *** The nodes that declaring edges adds *)

Lemma grown_ensure g x :
exists new, grown Hash g (if has_node g (XCL._key_node Hash x) then g
             else add_node g (XCL._key_node Hash x) []) new.
Proof.
destruct (has_node g (XCL._key_node Hash x)) eqn:H.
- exists []. split; [now rewrite app_nil_r | intros k []].
- exists [XCL._key_node Hash x]. split.
+ unfold add_node. cbn [_node]. apply (dset_keys_absent _ key_eqb_eq).
intro I. apply (dmem_In _ key_eqb_eq) in I. unfold has_node in H. congruence.
+ intros k [<-|[]]. split; [apply key_node_hashed|].
unfold add_node. cbn [_node]. rewrite (dget_dset_same _ key_eqb_eq).
unfold has_node, dmem in H.
destruct (dget key_eqb (_node g) (XCL._key_node Hash x)); [discriminate | reflexivity].
Qed.

Lemma grown_trans g1 g2 g3 n1 n2 :
grown Hash g1 g2 n1 -> grown Hash g2 g3 n2 -> extends g2 g3 -> grown Hash g1 g3 (n1 ++ n2).
Proof.
intros [K1 N1] [K2 N2] [X _]. split.
- rewrite K2, K1. now rewrite app_assoc.
- intros k I. apply in_app_or in I. destruct I as [I|I].
+ destruct (N1 k I) as [Hx D]. split; [exact Hx | now apply X].
+ now apply N2.
Qed.

Lemma grown_link g e : exists new, grown Hash g (link Hash g e) new.
Proof.
unfold link. cbn [XCL.__setitem__ XCL._as_dict NX.clashes existsb]. unfold add_edge.
set (u := XCL._key_node Hash (fst e)). set (v := XCL._key_node Hash (snd e)).
destruct (grown_ensure g (fst e)) as [n1 G1]. fold u in G1.
set (g1 := if has_node g u then g else add_node g u []) in *.
destruct (grown_ensure g1 (snd e)) as [n2 G2]. fold v in G2.
set (g2 := if has_node g1 v then g1 else add_node g1 v []) in *.
exists (n1 ++ n2)%list.
assert (G : grown Hash g g2 (n1 ++ n2)).
{ eapply grown_trans; [exact G1 | exact G2 | apply ensure_extends]. }
destruct G as [K N]. split; [exact K | exact N].
Qed.

Lemma grown_link_all es : forall g, exists new, grown Hash g (link_all Hash es g) new.
Proof.
induction es as [|e es IH]; intro g.
- exists []. split; [now rewrite app_nil_r | intros k []].
- cbn [link_all fold_left]. destruct (grown_link g e) as [n1 G1].
destruct (IH (link Hash g e)) as [n2 G2].
exists (n1 ++ n2)%list. eapply grown_trans; [exact G1 | exact G2 | apply link_all_extends].
Qed.

(** *** The payloads before and after *)

Hypothesis Hash_stable : forall k, stable Hash (Hash k).

Lemma getitem_extends g g' n p :
extends g g' -> XCL.__getitem__ Hash g (NodeKey n) = Ok p ->
XCL.__getitem__ Hash g' (NodeKey n) = Ok p.
Proof.
intros [X _]. rewrite !getitem_node.
destruct (dget key_eqb (_node g) (XCL._key_node Hash n)) as [d|] eqn:G; [|discriminate].
now rewrite (X _ _ G).
Qed.

Lemma omap_getitem_extends g g' (l : list key) : forall ps,
extends g g' ->
omap (fun n => XCL.__getitem__ Hash g (NodeKey n)) l = Ok ps ->
omap (fun n => XCL.__getitem__ Hash g' (NodeKey n)) l = Ok ps.
Proof.
induction l as [|n l IH]; intros ps X; [auto|].
rewrite !omap_cons.
destruct (XCL.__getitem__ Hash g (NodeKey n)) as [p|e] eqn:G; [|discriminate].
rewrite (getitem_extends g g' n p X G). cbn [obind].
destruct (omap (fun n0 => XCL.__getitem__ Hash g (NodeKey n0)) l) as [qs|e]; [|discriminate].
now rewrite (IH qs X Logic.eq_refl).
Qed.

Lemma omap_getitem_new g' (new : list key) :
(forall k, In k new -> (exists x, k = Hash x) /\ dget key_eqb (_node g') k = Some []) ->
omap (fun n => XCL.__getitem__ Hash g' (NodeKey n)) new
= Ok (map (fun _ => VDict []) new).
Proof.
induction new as [|k new IH]; intro N; [reflexivity|].
rewrite omap_cons, getitem_node.
destruct (N k (or_introl Logic.eq_refl)) as [[x ->] D].
pose proof (Hash_stable x) as S. unfold stable in S. rewrite S, D.
cbn [obind DAG._as_value]. rewrite IH; [reflexivity|].
intros k' I. apply N. now right.
Qed.

Lemma payloads_grown g g' new ps :
extends g g' -> grown Hash g g' new -> payloads Hash g = Ok ps ->
payloads Hash g' = Ok (ps ++ map (fun _ => VDict []) new)%list.
Proof.
intros X [K N] P. unfold payloads in *. rewrite K, omap_app.
rewrite (omap_getitem_extends g g' _ ps X P). cbn [obind].
rewrite (omap_getitem_new g' new N). reflexivity.
Qed.

Lemma payloads_shapes g : cell_or_empty g ->
forall l ps, omap (fun n => XCL.__getitem__ Hash g (NodeKey n)) l = Ok ps ->
Forall (fun p => (exists c, p = VCell c) \/ p = VDict []) ps.
Proof.
intro C. induction l as [|n l IH]; intros ps.
- intros [= <-]. constructor.
- rewrite omap_cons, getitem_node.
destruct (dget key_eqb (_node g) (XCL._key_node Hash n)) as [d|] eqn:G; [|discriminate].
cbn [obind].
destruct (omap (fun n0 => XCL.__getitem__ Hash g (NodeKey n0)) l) as [qs|e]; [|discriminate].
cbn [obind]. intros [= <-]. constructor; [|now apply IH].
apply (dget_In _ key_eqb_eq) in G. destruct (C _ _ G) as [->|[c ->]].
+ now right.
+ left. now exists c.
Qed.

Lemma scripted_payload (p : pyval) :
(exists c, p = VCell c) \/ p = VDict [] ->
scripted Hash (XCL.walk_cell Hash (XCL.raise RecursionError) VNone p).
Proof.
intros [[c ->]| ->]; [|apply scripted_ret].
cbn [XCL.walk_cell]. unfold XCL.add_parents_cell. cbn [XCL.walk_parent].
apply scripted_walk_dependencies.
Qed.

Lemma mfor_placeholders (new : list key) g :
XCL.mfor (XCL.walk_cell Hash (XCL.raise RecursionError) VNone)
(map (fun _ => VDict []) new) g = (Ok tt, g).
Proof. induction new as [|k new IH]; [reflexivity|]. cbn [map]. rewrite mfor_cons.
unfold XCL.bind. cbn [XCL.walk_cell]. unfold XCL.ret at 1. exact IH. Qed.

Lemma add_parents_all g :
XCL.add_parents Hash VNone VNone g
= match payloads Hash g with
| Ok ps => XCL.mfor (XCL.walk_cell Hash (XCL.raise RecursionError) VNone) ps g
| Raise e => (Raise e, g)
end.
Proof.
unfold XCL.add_parents. cbn [XCL.walk_cell]. unfold XCL.walk_all, XCL.bind, XCL.lift, payloads.
destruct (omap _ _); reflexivity.
Qed.

(** [g.add_parents()] on a graph that it has already been run on, with
success, changes nothing: the second run returns and leaves the nodes
and the edges of the first.  Every node is taken to hold a cell or
nothing, and a digest to be its own digest. *)
Theorem add_parents_a_second_time (g g1 : DiGraph) :
cell_or_empty g ->
XCL.add_parents Hash VNone VNone g = (Ok tt, g1) ->
XCL.add_parents Hash VNone VNone g1 = (Ok tt, g1).
Proof.
intros C R. rewrite add_parents_all in R.
destruct (payloads Hash g) as [ps|e] eqn:P; [|discriminate].
pose proof (payloads_shapes g C _ _ P) as Sh.
destruct (scripted_mfor (XCL.walk_cell Hash (XCL.raise RecursionError) VNone) ps)
as [es [r Sc]].
{ eapply Forall_impl; [|exact Sh]. intros p. apply scripted_payload. }
rewrite Sc in R. injection R as -> <-.
destruct (grown_link_all es g) as [new G].
rewrite add_parents_all.
rewrite (payloads_grown g _ new ps (link_all_extends es g) G P).
rewrite mfor_app. unfold XCL.bind. rewrite Sc, link_all_twice.
apply mfor_placeholders.
Qed.

End WithHash.

Lemma add_parents_a_second_time_witness :
  XCL.add_parents Scenario.Hash0 VNone VNone linked_graph = (Ok tt, linked_graph).
Proof.
  apply (add_parents_a_second_time Scenario.Hash0 CellInvariant.Hash0_stable scenario_graph).
  - intros k d I. right. exact (scenario_graph_cells k d I).
  - vm_compute. reflexivity.
Defined.

End ParentsTwice.

(** ** Removing nodes and edges *)

Module RemovalFacts.
Import Py NX Order Deps Calls Shape Removal DictFacts FailureFacts ShapeFacts.

Local Unset Implicit Arguments.

Lemma rfor_cons {A} (f : A -> R) x l : rfor f (x :: l) = rseq (f x) (rfor f l).
Proof. reflexivity. Qed.

Lemma has_node_head k d ns es : has_node (mkGraph ((k, d) :: ns) es) k = true.
Proof. unfold has_node, dmem. cbn [_node dget]. now rewrite key_eqb_refl. Qed.

Lemma existsb_touches_cons k l e :
  existsb (fun n => touches n e) (k :: l) = touches k e || existsb (fun n => touches n e) l.
Proof. reflexivity. Qed.

Lemma filter_filter {A} (p q : A -> bool) (l : list A) :
  filter q (filter p l) = filter (fun x => p x && q x) l.
Proof.
  induction l as [|x l IH]; [reflexivity|]. cbn [filter].
  destruct (p x); cbn [filter andb]; [destruct (q x)|]; now rewrite IH.
Qed.

Lemma filter_all {A} (p : A -> bool) (l : list A) :
  (forall x, In x l -> p x = true) -> filter p l = l.
Proof.
  induction l as [|x l IH]; [reflexivity|]. intro H. cbn [filter].
  rewrite (H x (or_introl Logic.eq_refl)). f_equal. apply IH. intros y I. apply H. now right.
Qed.

(** Removing the nodes one after the other, in the order of the node
    dictionary, removes them all, with every edge that touches one. *)
Lemma remove_every_node (ns : list (key * attrs)) : forall es,
  NoDup (map fst ns) ->
  rfor nx_remove_node (map fst ns) (mkGraph ns es)
  = (None, mkGraph [] (filter (fun e => negb (existsb (fun n => touches n (fst e)) (map fst ns))) es)).
Proof.
  induction ns as [|[k d] ns IH]; intros es N.
  - cbn [map rfor rret existsb negb]. unfold rret. f_equal. f_equal.
    symmetry. apply filter_all. reflexivity.
  - cbn [map fst]. rewrite rfor_cons. unfold rseq, nx_remove_node at 1.
    rewrite has_node_head. cbn [_node _edges ddel]. rewrite key_eqb_refl.
    inversion N as [|? ? _ N']; subst. rewrite (IH _ N'). f_equal. f_equal.
    rewrite filter_filter. apply filter_ext. intro e.
    rewrite existsb_touches_cons, negb_orb. reflexivity.
Qed.

(** [g.remove_node()], with no argument, empties the graph: no node and no
    edge is left.  The graph is one of [networkx]: its node keys are
    distinct and the end points of its edges are nodes. *)
Theorem remove_node_without_argument_empties (g : DiGraph) :
  NoDup (map fst (_node g)) -> edges_closed g ->
  remove_node All g = (None, empty).
Proof.
  intros N W. destruct g as [ns es]. cbn [remove_node _node].
  rewrite (remove_every_node ns es N). f_equal. unfold empty. f_equal.
  assert (X : forall e, In e es ->
            negb (existsb (fun n => touches n (fst e)) (map fst ns)) = false).
  { intros [[u v] d] I. apply negb_false_iff. apply existsb_exists.
    exists u. split.
    - apply (proj1 (W u v (in_map fst _ _ I))).
    - unfold touches. cbn [fst]. now rewrite key_eqb_refl. }
  clear N W. induction es as [|e es IH]; [reflexivity|].
  cbn [filter]. rewrite (X e (or_introl Logic.eq_refl)). apply IH.
  intros e' I. apply X. now right.
Qed.

Lemma has_edge_head e d es ns : has_edge (mkGraph ns ((e, d) :: es)) (fst e) (snd e) = true.
Proof.
  unfold has_edge, dmem. cbn [_edges dget]. unfold edge_eqb. cbn [fst snd].
  now rewrite !key_eqb_refl.
Qed.

Lemma remove_every_edge ns (es : list ((key * key) * attrs)) :
  rfor (fun e => nx_remove_edge (fst e) (snd e)) (map fst es) (mkGraph ns es)
  = (None, mkGraph ns []).
Proof.
  induction es as [|[e d] es IH]; [reflexivity|].
  cbn [map fst]. rewrite rfor_cons. unfold rseq, nx_remove_edge at 1.
  rewrite has_edge_head. cbn [_node _edges]. destruct e as [u v]. cbn [fst snd ddel].
  unfold edge_eqb. cbn [fst snd]. rewrite !key_eqb_refl. cbn [andb]. exact IH.
Qed.

(** [g.remove_edge()], with no argument, removes every edge and keeps every
    node with its attributes; with a target only, [g.remove_edge(None, v)]
    removes nothing: it raises the [TypeError] of the list of edges used as
    a key; with a source only, [g.remove_edge(u)] raises [NetworkXError]. *)
Theorem remove_edge_without_argument_keeps_nodes (g : DiGraph) :
  remove_edge Every None g = (None, mkGraph (_node g) [])
  /\ (forall v, remove_edge Every (Some v) g = (Some Unhashable, g))
  /\ (forall u, remove_edge (Node u) None g = (Some (EdgeNotInGraph u None), g)).
Proof.
  split; [|split; reflexivity].
  destruct g as [ns es]. cbn [remove_edge _node _edges]. apply remove_every_edge.
Qed.






(** *** A list of nodes of which one is missing *)

Lemma ddel_filter (d : list (key * attrs)) (k : key) :
  NoDup (map fst d) ->
  ddel key_eqb d k = filter (fun kd => negb (key_eqb (fst kd) k)) d.
Proof.
  induction d as [|[k0 v0] d IH]; [reflexivity|]. intro N.
  inversion N as [|? ? N1 N2]; subst. cbn [ddel filter fst].
  destruct (key_eqb k0 k) eqn:E; cbn [negb].
  - apply key_eqb_eq in E. subst k0. symmetry. apply filter_all.
    intros [k1 v1] I. cbn [fst]. apply negb_true_iff. apply key_eqb_neq. intros ->.
    apply N1. apply in_map_iff. now exists (k, v1).
  - now rewrite IH.
Qed.

Lemma dget_filter (p : key -> bool) (d : list (key * attrs)) (k : key) :
  dget key_eqb (filter (fun kd => p (fst kd)) d) k
  = if p k then dget key_eqb d k else None.
Proof.
  induction d as [|[k0 v0] d IH]; cbn [filter dget fst].
  - now destruct (p k).
  - destruct (p k0) eqn:P0; cbn [dget].
    + destruct (key_eqb k0 k) eqn:E; [|exact IH].
      apply key_eqb_eq in E. subst k0. now rewrite P0.
    + rewrite IH. destruct (key_eqb k0 k) eqn:E; [|reflexivity].
      apply key_eqb_eq in E. subst k0. now rewrite P0.
Qed.

Lemma has_node_without l g n :
  has_node (without l g) n = negb (existsb (key_eqb n) l) && has_node g n.
Proof.
  unfold has_node, dmem, without. cbn [_node].
  rewrite (dget_filter (fun k => negb (existsb (key_eqb k) l))).
  destruct (negb (existsb (key_eqb n) l)); reflexivity.
Qed.

Lemma NoDup_filter_keys (p : key * attrs -> bool) (d : list (key * attrs)) :
  NoDup (map fst d) -> NoDup (map fst (filter p d)).
Proof.
  induction d as [|x d IH]; [auto|]. intro N. inversion N as [|? ? N1 N2]; subst.
  cbn [filter]. destruct (p x); [|now apply IH]. cbn [map]. constructor; [|now apply IH].
  intro I. apply N1. apply in_map_iff in I. destruct I as [y [E I]].
  apply filter_In in I. apply in_map_iff. exists y. tauto.
Qed.

Lemma remove_one_node (g : DiGraph) (n : key) :
  NoDup (map fst (_node g)) -> has_node g n = true ->
  nx_remove_node n g = (None, without [n] g).
Proof.
  intros N H. unfold nx_remove_node. rewrite H. f_equal. unfold without. f_equal.
  - rewrite (ddel_filter _ _ N). apply filter_ext. intros [k d]. cbn [fst existsb].
    now rewrite orb_false_r.
  - apply filter_ext. intros e. cbn [existsb]. now rewrite orb_false_r.
Qed.

Lemma without_without n l g : without l (without [n] g) = without (n :: l) g.
Proof.
  unfold without. cbn [_node _edges]. rewrite !filter_filter. f_equal.
  - apply filter_ext. intros [k d]. cbn [fst existsb]. rewrite orb_false_r.
    now rewrite negb_orb.
  - apply filter_ext. intros e. cbn [existsb]. rewrite orb_false_r.
    now rewrite negb_orb.
Qed.

Lemma remove_present_nodes (l : list key) : forall g,
  NoDup (map fst (_node g)) -> NoDup l -> (forall n, In n l -> has_node g n = true) ->
  rfor remove_node (map One l) g = (None, without l g).
Proof.
  induction l as [|n l IH]; intros g N D P.
  - cbn [map rfor]. unfold rret, without. cbn [existsb negb].
    rewrite !filter_all by reflexivity. now destruct g.
  - cbn [map]. rewrite rfor_cons. unfold rseq. cbn [remove_node].
    rewrite (remove_one_node g n N (P n (or_introl Logic.eq_refl))).
    inversion D as [|? ? D1 D2]; subst.
    rewrite IH.
    + now rewrite without_without.
    + apply NoDup_filter_keys. exact N.
    + exact D2.
    + intros m I. rewrite has_node_without. cbn [existsb]. rewrite orb_false_r.
      rewrite (P m (or_intror I)). rewrite andb_true_r. apply negb_true_iff.
      apply key_eqb_neq. intros ->. contradiction.
Qed.

Lemma rfor_app {A} (f : A -> R) l1 l2 : forall g,
  rfor f (l1 ++ l2) g = rseq (rfor f l1) (rfor f l2) g.
Proof.
  induction l1 as [|x l1 IH]; intro g; [reflexivity|].
  change (((x :: l1) ++ l2)%list) with (x :: (l1 ++ l2))%list.
  rewrite !rfor_cons. unfold rseq in *. destruct (f x g) as [[e|] g']; [reflexivity|].
  apply IH.
Qed.

(** [g.remove_node([n1, ..., k, ...])] does not undo what it has done when
    it meets a node [k] that is missing (or listed twice): the nodes listed
    before [k] are gone, with their edges, when [NetworkXError] is raised
    for [k]. *)
Theorem remove_node_stops_at_a_missing_node
  (g : DiGraph) (before : list key) (k : key) (after : list target) :
  NoDup (map fst (_node g)) -> NoDup before ->
  (forall n, In n before -> has_node g n = true) ->
  has_node g k = false \/ In k before ->
  remove_node (Many (map One before ++ One k :: after)) g
  = (Some (NodeNotInGraph k), without before g).
Proof.
  intros N D P K. cbn [remove_node]. rewrite rfor_app. unfold rseq.
  rewrite (remove_present_nodes before g N D P). rewrite rfor_cons. unfold rseq.
  cbn [remove_node]. unfold nx_remove_node. rewrite has_node_without.
  replace (negb (existsb (key_eqb k) before) && has_node g k) with false; [reflexivity|].
  symmetry. destruct K as [K|K].
  - rewrite K. apply andb_false_r.
  - apply andb_false_iff. left. apply negb_false_iff. apply existsb_exists.
    exists k. split; [exact K | apply key_eqb_refl].
Qed.

Lemma scenario_keys_distinct : NoDup (map fst (_node linked_graph)).
Proof. vm_compute. repeat constructor; simpl; intuition discriminate. Qed.

Lemma linked_graph_closed : edges_closed linked_graph.
Proof.
  intros u v I. vm_compute in I.
  destruct I as [I|[I|[]]]; injection I as <- <-; vm_compute; tauto.
Qed.

Lemma remove_node_without_argument_empties_witness :
  remove_node All linked_graph = (None, empty).
Proof.
  apply remove_node_without_argument_empties;
    [exact scenario_keys_distinct | exact linked_graph_closed].
Defined.


Lemma remove_node_stops_at_a_missing_node_witness :
  remove_node (Many [One (KInt 353); One (KInt 7); One (KInt 354)]) linked_graph
  = (Some (NodeNotInGraph (KInt 7)), without [KInt 353] linked_graph)
  /\ has_node (without [KInt 353] linked_graph) (KInt 353) = false
  /\ has_node linked_graph (KInt 353) = true.
Proof.
  split; [|split; reflexivity].
  apply (remove_node_stops_at_a_missing_node linked_graph [KInt 353] (KInt 7) [One (KInt 354)]).
  - exact scenario_keys_distinct.
  - repeat constructor. intros [].
  - intros n [<-|[]]. reflexivity.
  - left. reflexivity.
Defined.

End RemovalFacts.

(** ** Ordered sets *)

Module SetFacts.
Import Args Sets.

Local Unset Implicit Arguments.

Section Items.
Variable A : Type.
Variable eqb : A -> A -> bool.
Hypothesis eqb_eq : forall a b, eqb a b = true <-> a = b.

Lemma mem_true_In (x : A) (s : list A) : mem eqb x s = true <-> In x s.
Proof.
unfold mem. rewrite existsb_exists. split.
- intros [y [I E]]. apply eqb_eq in E. now subst y.
- intro I. exists x. split; [exact I | now apply eqb_eq].
Qed.

Lemma mem_false (x : A) (s : list A) : mem eqb x s = false <-> ~ In x s.
Proof.
rewrite <- mem_true_In. destruct (mem eqb x s); intuition congruence.
Qed.

Lemma add_In (s : list A) (x y : A) : In y (add eqb s x) <-> In y s \/ y = x.
Proof.
unfold add. destruct (mem eqb x s) eqn:M.
- apply mem_true_In in M. split; [auto|]. intros [I| ->]; assumption.
- rewrite in_app_iff. cbn [In]. intuition congruence.
Qed.

Lemma add_NoDup (s : list A) (x : A) : NoDup s -> NoDup (add eqb s x).
Proof.
intro N. unfold add. destruct (mem eqb x s) eqn:M; [exact N|].
apply mem_false in M. apply NoDup_app; [exact N | repeat constructor; intros [] |].
intros y Iy [<-|[]]. contradiction.
Qed.

Lemma update_In (l : list A) : forall acc y,
In y (fold_left (add eqb) l acc) <-> In y acc \/ In y l.
Proof.
induction l as [|x l IH]; intros acc y; cbn [fold_left In].
- tauto.
- rewrite IH, add_In. intuition congruence.
Qed.

Lemma update_NoDup (l : list A) : forall acc,
NoDup acc -> NoDup (fold_left (add eqb) l acc).
Proof.
induction l as [|x l IH]; intros acc N; cbn [fold_left]; [exact N|].
apply IH. now apply add_NoDup.
Qed.

Lemma OrderedSet_In (l : list A) (y : A) : In y (OrderedSet eqb l) <-> In y l.
Proof. unfold OrderedSet. rewrite update_In. cbn [In]. tauto. Qed.

Lemma OrderedSet_NoDup (l : list A) : NoDup (OrderedSet eqb l).
Proof. apply update_NoDup. constructor. Qed.

Lemma items_cast (other : operand A) (y : A) :
In y (cast eqb other) <-> In y (items other).
Proof. destruct other as [s|v]; cbn [cast items]; [tauto | apply OrderedSet_In]. Qed.

Lemma slist_sub_spec (self : list A) (other : operand A) :
NoDup (slist_sub eqb self other)
/\ forall y, In y (slist_sub eqb self other) <-> In y self /\ ~ In y (items other).
Proof.
unfold slist_sub, slist, oset_sub, difference. split; [apply OrderedSet_NoDup|]. intro y.
rewrite !OrderedSet_In, filter_In, OrderedSet_In, negb_true_iff, mem_false, items_cast.
tauto.
Qed.

(** The operators of [slist] are those of sets: the result has no item
twice, and holds the items of [self] or of the operand ([+]), of both
([&]), of [self] and not of the operand ([-]). *)
Theorem slist_operators_are_set_operators (self : list A) (other : operand A) (y : A) :
(NoDup (slist_add eqb self other)
/\ (In y (slist_add eqb self other) <-> In y self \/ In y (items other)))
/\ (NoDup (slist_and eqb self other)
/\ (In y (slist_and eqb self other) <-> In y self /\ In y (items other)))
/\ (NoDup (slist_sub eqb self other)
/\ (In y (slist_sub eqb self other) <-> In y self /\ ~ In y (items other))).
Proof.
unfold slist_add, slist_and, slist_sub, slist, oset_add, oset_and, oset_sub,
union, intersection, difference.
split; [|split]; (split; [apply OrderedSet_NoDup|]).
- rewrite !OrderedSet_In, in_app_iff, OrderedSet_In, items_cast. tauto.
- rewrite !OrderedSet_In, filter_In, OrderedSet_In, mem_true_In, items_cast. tauto.
- rewrite !OrderedSet_In, filter_In, OrderedSet_In, negb_true_iff, mem_false, items_cast.
tauto.
Qed.

(** [x % y] is [x - y], for [ordered_set] and for [slist]: [__mod__] takes
from [self] what [self] shares with the operand, which is what it has of
the operand. *)
Theorem mod_is_sub (self : list A) (other : operand A) :
oset_mod eqb self other = oset_sub eqb self other
/\ slist_mod eqb self other = slist_sub eqb self other.
Proof.
assert (X : forall s, oset_mod eqb s other = oset_sub eqb s other).
{ intro s. unfold oset_mod, oset_sub, oset_and, difference, intersection. cbn [cast].
f_equal. apply filter_ext_in. intros x I. f_equal.
destruct (mem eqb x (cast eqb other)) eqn:M.
- rewrite mem_true_In, OrderedSet_In, filter_In. now split.
- rewrite mem_false, OrderedSet_In, filter_In. intros [_ J]. congruence. }
split; [apply X|]. unfold slist_mod, slist_sub. now rewrite X.
Qed.

End Items.

Lemma nat_eqb_eq (a b : nat) : Nat.eqb a b = true <-> a = b.
Proof. apply Nat.eqb_eq. Qed.

Lemma slist_operators_are_set_operators_witness :
  slist_sub Nat.eqb [3; 1; 2; 1]%nat (Other (Single 1%nat)) = [3; 2]%nat
  /\ NoDup (slist_sub Nat.eqb [3; 1; 2; 1]%nat (Other (Single 1%nat))).
Proof.
  split; [reflexivity|].
  exact (proj1 (proj2 (proj2 (slist_operators_are_set_operators nat Nat.eqb nat_eqb_eq
                                [3; 1; 2; 1]%nat (Other (Single 1%nat)) 0%nat)))).
Defined.

Lemma mod_is_sub_witness :
  slist_mod Nat.eqb [1; 2; 3]%nat (Other (Several [3; 4]%nat))
  = slist_sub Nat.eqb [1; 2; 3]%nat (Other (Several [3; 4]%nat))
  /\ slist_sub Nat.eqb [1; 2; 3]%nat (Other (Several [3; 4]%nat)) = [1; 2]%nat.
Proof.
  split; [|reflexivity].
  exact (proj2 (mod_is_sub nat Nat.eqb nat_eqb_eq [1; 2; 3]%nat (Other (Several [3; 4]%nat)))).
Defined.

End SetFacts.

(** ** The common length of arguments *)

Module BroadcastFacts.
Import Py Args Sets Broadcast SetFacts.
Import Containers (result, Ok, Raise, ValueError, bind).

Local Unset Implicit Arguments.

Section Values.
Variable B : Type.

Lemma lens_spec (values : list (list B)) :
NoDup (lens values)
/\ forall n, In n (lens values) <-> (exists v, In v values /\ List.length v = n) /\ n <> 1%nat.
Proof.
destruct (slist_sub_spec nat Nat.eqb nat_eqb_eq
    (slist Nat.eqb (map (@List.length B) values)) (Other (Single 1%nat))) as [N I].
split; [exact N|]. intro n. unfold lens. rewrite I. unfold slist.
rewrite (OrderedSet_In nat Nat.eqb nat_eqb_eq), in_map_iff. cbn [items as_list In].
split.
- intros [[v [E Iv]] X]. split; [exists v; tauto|]. intro. apply X. left. now symmetry.
- intros [[v [Iv E]] X]. split; [exists v; tauto|]. intros [Y|[]]. now apply X.
Qed.

Lemma args_len_lens (values : list (list B)) :
_args_len values
= if (1 <? List.length (lens values))%nat
then Raise (ValueError "all values must have same length")
else Ok (match lens values with n :: _ => n | [] => 1%nat end).
Proof. reflexivity. Qed.

(** When [_args_len] returns, every length is 1 or the one returned. *)
Lemma args_len_lengths (values : list (list B)) (n : nat) :
_args_len values = Ok n ->
forall v, In v values -> List.length v = 1%nat \/ List.length v = n.
Proof.
rewrite args_len_lens. destruct (lens_spec values) as [_ I].
destruct (lens values) as [|a [|b l]] eqn:L; cbn [List.length Nat.ltb Nat.leb];
[| |discriminate]; intros [= <-] v Iv;
(destruct (Nat.eq_dec (List.length v) 1) as [E|E]; [now left|]);
pose proof (proj2 (I (List.length v)) (conj (ex_intro _ v (conj Iv Logic.eq_refl)) E)) as X.
- destruct X.
- destruct X as [<-|[]]. now right.
Qed.

(** [_args_len] returns [n] exactly when every value has length 1 or [n]
(and some value has length [n], unless [n] is 1); it raises [ValueError]
exactly when two values have different lengths other than 1. *)
Theorem args_len_is_the_common_length (values : list (list B)) (n : nat) :
(_args_len values = Ok n <->
(forall v, In v values -> List.length v = 1%nat \/ List.length v = n)
/\ (n = 1%nat \/ exists v, In v values /\ List.length v = n))
/\ (_args_len values = Raise (ValueError "all values must have same length") <->
exists v w, In v values /\ In w values /\ List.length v <> 1%nat
        /\ List.length w <> 1%nat /\ List.length v <> List.length w).
Proof.
rewrite args_len_lens. destruct (lens_spec values) as [N I].
destruct (lens values) as [|a [|b l]] eqn:L; cbn [List.length Nat.ltb Nat.leb].
- split; split.
+ intros [= <-]. split; [|now left]. intros v Iv.
destruct (Nat.eq_dec (List.length v) 1) as [E|E]; [now left|].
exfalso. apply (proj2 (I (List.length v))). split; [now exists v | exact E].
+ intros [Hall [->|[v [Iv E]]]]; [reflexivity|].
destruct (Nat.eq_dec n 1) as [->|X]; [reflexivity|].
exfalso. apply (proj2 (I n)). split; [now exists v | exact X].
+ discriminate.
+ intros [v [w [Iv [Iw [Ev [Ew X]]]]]]. exfalso.
apply (proj2 (I (List.length v))). split; [now exists v | exact Ev].
- assert (Ia : (exists v, In v values /\ List.length v = a) /\ a <> 1%nat)
by (apply I; now left).
assert (Only : forall m, (exists v, In v values /\ List.length v = m) -> m <> 1%nat -> m = a).
{ intros m E X. destruct (proj2 (I m) (conj E X)) as [<-|[]]. reflexivity. }
split; split.
+ intros [= <-]. split; [|right; exact (proj1 Ia)]. intros v Iv.
destruct (Nat.eq_dec (List.length v) 1) as [E|E]; [now left|].
right. apply Only; [now exists v | exact E].
+ intros [Hall [->|[v [Iv E]]]].
* exfalso. destruct Ia as [[v [Iv E]] X]. destruct (Hall v Iv); congruence.
* destruct (Nat.eq_dec n 1) as [->|X].
-- exfalso. destruct Ia as [[w [Iw Ew]] Y]. destruct (Hall w Iw); congruence.
-- f_equal. symmetry. apply Only; [now exists v | exact X].
+ discriminate.
+ intros [v [w [Iv [Iw [Ev [Ew X]]]]]]. exfalso. apply X.
rewrite (Only (List.length v)), (Only (List.length w)); eauto.
- assert (Ia : (exists v, In v values /\ List.length v = a) /\ a <> 1%nat)
by (apply I; now left).
assert (Ib : (exists v, In v values /\ List.length v = b) /\ b <> 1%nat)
by (apply I; right; now left).
assert (X : a <> b).
{ inversion N as [|? ? N1 _]; subst. intros ->. apply N1. now left. }
split; split.
+ discriminate.
+ intros [Hall _]. exfalso.
destruct Ia as [[v [Iv Ev]] Xa]. destruct Ib as [[w [Iw Ew]] Xb].
destruct (Hall v Iv); destruct (Hall w Iw); congruence.
+ intros _. destruct Ia as [[v [Iv Ev]] Xa]. destruct Ib as [[w [Iw Ew]] Xb].
exists v, w. repeat split; congruence.
+ reflexivity.
Qed.

(** *** [args_zip] *)

Lemma rmap_cons {X Y} (f : X -> result Y) x l :
rmap f (x :: l) = bind (f x) (fun y => bind (rmap f l) (fun ys => Ok (y :: ys))).
Proof. reflexivity. Qed.

Lemma rmap_total {X Y} (f : X -> result Y) (g : X -> Y) (l : list X) :
(forall x, In x l -> f x = Ok (g x)) -> rmap f l = Ok (map g l).
Proof.
induction l as [|x l IH]; intro H; [reflexivity|].
rewrite rmap_cons, (H x (or_introl Logic.eq_refl)). cbn [bind].
rewrite IH; [reflexivity|]. intros y I. apply H. now right.
Qed.

Lemma list_as_nth (d : B) (v : list B) :
v = map (fun i => nth i v d) (seq 0 (List.length v)).
Proof.
induction v as [|x v IH]; [reflexivity|].
cbn [List.length seq map nth]. f_equal. rewrite <- seq_shift, map_map. exact IH.
Qed.

Lemma combine_map {X Y Z} (f : X -> Y) (g : X -> Z) (l : list X) :
combine (map f l) (map g l) = map (fun x => (f x, g x)) l.
Proof. induction l as [|x l IH]; [reflexivity|]. cbn [map combine]. now rewrite IH. Qed.

Lemma zip_cons (v w : list B) (vs : list (list B)) :
zip (v :: w :: vs) = map (fun xr => fst xr :: snd xr) (combine v (zip (w :: vs))).
Proof. reflexivity. Qed.

(** The rows of [zip] of values of one length. *)
Lemma zip_rows (d : B) (n : nat) (vs : list (list B)) :
vs <> [] -> (forall v, In v vs -> List.length v = n) ->
zip vs = map (fun i => map (fun v => nth i v d) vs) (seq 0 n).
Proof.
induction vs as [|v vs IH]; intros NE H; [congruence|].
assert (Lv : List.length v = n) by (apply H; now left).
destruct vs as [|w vs].
- cbn [zip map]. rewrite (list_as_nth d v) at 1. rewrite map_map, Lv. reflexivity.
- rewrite zip_cons, IH; [|discriminate | intros u I; apply H; now right].
rewrite (list_as_nth d v) at 1. rewrite Lv, combine_map, map_map. reflexivity.
Qed.

Lemma concat_repeat_single (x : B) (n : nat) : List.concat (repeat [x] n) = repeat x n.
Proof. induction n as [|n IH]; [reflexivity|]. cbn [repeat List.concat app]. now rewrite IH. Qed.

Lemma nth_repeat_lt (x d : B) (n i : nat) : (i < n)%nat -> nth i (repeat x n) d = x.
Proof.
revert i. induction n as [|n IH]; intros i L; [lia|].
destruct i as [|i]; [reflexivity|]. cbn [repeat nth]. apply IH. lia.
Qed.

(** The arrays are paired position by position, the only member of an
array of length 1 going with every position. *)
Lemma zip_arrays_rows (d : B) (values : list (list B)) (n : nat) :
values <> [] -> _args_len values = Ok n ->
((n = 0%nat -> forall v, In v values -> List.length v = 0%nat) ->
zip_arrays values
= Ok (map (fun i => map (fun v => nth (if (List.length v =? n)%nat then i else 0%nat) v d)
                 values) (seq 0 n)))
/\ (n = 0%nat -> (exists v, In v values /\ List.length v <> 0%nat) ->
zip_arrays values = Raise (ValueError "need at least one array to concatenate")).
Proof.
intros NE E. pose proof (args_len_lengths values n E) as Hall.
unfold zip_arrays. rewrite E. cbn [bind]. split.
- intro Z.
assert (Nz : forall v, In v values -> List.length v <> n -> n <> 0%nat).
{ intros v Iv X ->. apply X. now apply Z. }
rewrite (rmap_total _ (stretched n)).
+ cbn [bind]. f_equal. rewrite (zip_rows d n).
* apply map_ext_in. intros i Ii. apply in_seq in Ii. rewrite map_map.
apply map_ext_in. intros v Iv. unfold stretched.
destruct (List.length v =? n)%nat eqn:L; [reflexivity|].
apply Nat.eqb_neq in L. destruct (Hall v Iv) as [One|]; [|congruence].
destruct v as [|x [|? ?]]; try discriminate.
rewrite concat_repeat_single, nth_repeat_lt; [reflexivity | lia].
* destruct values; [congruence | discriminate].
* intros u Iu. apply in_map_iff in Iu. destruct Iu as [v [<- Iv]]. unfold stretched.
destruct (List.length v =? n)%nat eqn:L; [now apply Nat.eqb_eq|].
apply Nat.eqb_neq in L. destruct (Hall v Iv) as [One|]; [|congruence].
destruct v as [|x [|? ?]]; try discriminate.
rewrite concat_repeat_single. apply repeat_length.
+ intros v Iv. unfold stretched.
destruct (List.length v =? n)%nat eqn:L; [reflexivity|].
apply Nat.eqb_neq in L. pose proof (Nz v Iv L) as X.
destruct n as [|m]; [congruence|]. reflexivity.
- intros -> [v [Iv X]]. clear E NE.
assert (F : rmap (fun value : list B => if (List.length value =? 0)%nat then Ok value
                                else concatenate (repeat value 0)) values
    = Raise (ValueError "need at least one array to concatenate")).
{ induction values as [|w values IH]; [destruct Iv|].
rewrite rmap_cons. destruct (List.length w =? 0)%nat eqn:L; [|reflexivity].
cbn [bind]. destruct Iv as [->|Iv].
+ apply Nat.eqb_eq in L. congruence.
+ rewrite IH; [reflexivity | intros u Iu; apply Hall; now right | exact Iv]. }
rewrite F. reflexivity.
Qed.

End Values.

Lemma args_len_is_the_common_length_witness :
  args_len [VList [VInt 1; VInt 2]; VInt 5; VTuple [VInt 3; VInt 4]] = Ok 2%nat.
Proof.
  apply (proj1 (args_len_is_the_common_length pyval _ 2%nat)). split.
  - intros v I. simpl in I. destruct I as [<-|[<-|[<-|[]]]]; simpl; auto.
  - right. exists [VInt 1; VInt 2]. split; [now left | reflexivity].
Defined.

(** [args_zip] of values that are [None], integers of 64 bits, or lists and
    tuples of such integers pairs the members of the values position by
    position, the only member of a value of length 1 going with every
    position: row [i] holds, for each value, its member [i], or its only
    member.  When the common length is 0 and some value has a member, it
    raises: there is nothing to concatenate. *)
Theorem args_zip_repeats_single_values (values : list pyval) (n : nat) :
  forallb integral values = true ->
  values <> [] -> args_len values = Ok n ->
  ((n = 0%nat -> forall v, In v values -> List.length (as_ndarray v) = 0%nat) ->
   args_zip values
   = Ok (map (fun i =>
               map (fun v => nth (if (List.length (as_ndarray v) =? n)%nat
                                  then i else 0%nat) (as_ndarray v) VNone)
                   values) (seq 0 n)))
  /\ (n = 0%nat -> (exists v, In v values /\ List.length (as_ndarray v) <> 0%nat) ->
      args_zip values = Raise (ValueError "need at least one array to concatenate")).
Proof.
  intros _ NE E. unfold args_len in E. unfold args_zip.
  assert (NE' : map as_ndarray values <> []) by (destruct values; [congruence | discriminate]).
  destruct (zip_arrays_rows pyval VNone (map as_ndarray values) n NE' E) as [R Z].
  split.
  - intro H. rewrite R.
    + f_equal. apply map_ext. intro i. now rewrite map_map.
    + intros -> a Ia. apply in_map_iff in Ia. destruct Ia as [v [<- Iv]]. now apply H.
  - intros -> [v [Iv X]]. apply Z; [reflexivity|].
    exists (as_ndarray v). split; [now apply in_map | exact X].
Qed.

Lemma args_zip_repeats_single_values_witness :
  args_zip [VList [VInt 1; VInt 2]; VInt 5]
  = Ok [[VInt 1; VInt 5]; [VInt 2; VInt 5]].
Proof.
  refine (proj1 (args_zip_repeats_single_values
                   [VList [VInt 1; VInt 2]; VInt 5] 2%nat _ _ _) _).
  - reflexivity.
  - discriminate.
  - reflexivity.
  - discriminate.
Defined.

End BroadcastFacts.

(** ** Arguments given as names *)

Module NamesFacts.
Import Py Args Sets Names DictFacts SetFacts RoundTripFacts.

Local Unset Implicit Arguments.

Lemma note_named (res : attrs) (arg : pyval) :
  named arg = true <-> exists res', note res arg = inl res'.
Proof.
  destruct arg as [| | | |l|l|d|c]; cbn [named note]; split;
    try discriminate; try (intros [r X]; discriminate); try (intros _; eexists; reflexivity);
    try reflexivity.
  intros [r X]. destruct l as [|x [|y l]]; discriminate.
Qed.

Lemma note_all_named (args : list pyval) : forall res,
  forallb named args = true <-> exists r, note_all res args = inl r.
Proof.
  induction args as [|a args IH]; intro res; cbn [forallb note_all].
  - split; [intros _; now exists res | reflexivity].
  - rewrite andb_true_iff. split.
    + intros [Na Nl]. destruct (proj1 (note_named res a) Na) as [res' ->].
      now apply IH.
    + destruct (note res a) as [res'|e] eqn:E; [|intros [r X]; discriminate].
      intro H. split; [apply (note_named res a); now exists res' | now apply (IH res')].
Qed.

Lemma note_all_error (args : list pyval) : forall res e,
  note_all res args = inr e ->
  exists a, In a args /\ named a = false /\ (e = ValueError a \/ e = TypeError a).
Proof.
  induction args as [|a args IH]; intros res e; cbn [note_all]; [discriminate|].
  destruct (note res a) as [res'|e'] eqn:E.
  - intro H. destruct (IH _ _ H) as [b [I X]]. exists b. split; [now right | exact X].
  - intros [= <-]. exists a. split; [now left|].
    destruct a as [| | | |l|l|d|c]; cbn [note named] in *; try discriminate;
      try (injection E as <-; split; auto).
    destruct l as [|x [|y l]]; injection E as <-; split; auto.
Qed.

(** [args_to_dict] returns exactly when every argument is a string or a
    mapping; otherwise the error it raises is about an argument that is
    neither. *)
Theorem args_to_dict_wants_names_and_mappings (args : pyval) :
  (forallb named (members (args_to_list args)) = true <->
   exists r, args_to_dict args = inl r)
  /\ (forall e, args_to_dict args = inr e ->
      exists a, In a (members (args_to_list args)) /\ named a = false
                /\ (e = ValueError a \/ e = TypeError a)).
Proof.
  split; [apply note_all_named | intro e; apply note_all_error].
Qed.

Lemma string_eqb_sym (a b : string) : String.eqb a b = String.eqb b a.
Proof.
  destruct (String.eqb a b) eqn:E; symmetry.
  - apply String.eqb_eq in E. subst. apply String.eqb_refl.
  - apply String.eqb_neq. apply String.eqb_neq in E. congruence.
Qed.

Lemma dset_name (acc : list string) (s : string) :
  dset String.eqb (map (fun x => (x, VStr x)) acc) s (VStr s)
  = map (fun x => (x, VStr x)) (add String.eqb acc s).
Proof.
  induction acc as [|a acc IH]; [reflexivity|].
  cbn [map dset]. unfold add. cbn [mem existsb]. rewrite (string_eqb_sym s a).
  destruct (String.eqb a s) eqn:E.
  - apply String.eqb_eq in E. subst a. reflexivity.
  - cbn [orb]. rewrite IH. unfold add, mem.
    destruct (existsb (String.eqb s) acc); reflexivity.
Qed.

Lemma note_all_names (names : list string) : forall acc,
  note_all (map (fun x => (x, VStr x)) acc) (map VStr names)
  = inl (map (fun x => (x, VStr x)) (fold_left (add String.eqb) names acc)).
Proof.
  induction names as [|s names IH]; intro acc; [reflexivity|].
  cbn [map note_all note fold_left]. rewrite dset_name. apply IH.
Qed.

Lemma args_to_list_names (names : list string) :
  args_to_list (VList (map VStr names)) = VList (map VStr names).
Proof. destruct names as [|a [|b l]]; reflexivity. Qed.

(** Of a list of names [args_to_dict] makes the mapping of each name to
    itself, in the order in which the names come first; of a mapping, alone
    or as the only member of a list, it makes that mapping. *)
Theorem args_to_dict_of_names_and_of_a_mapping (names : list string) (d : attrs) :
  args_to_dict (VList (map VStr names))
  = inl (map (fun x => (x, VStr x)) (OrderedSet String.eqb names))
  /\ (NoDup (map fst d) ->
      args_to_dict (VDict d) = inl d /\ args_to_dict (VList [VDict d]) = inl d).
Proof.
  split.
  - unfold args_to_dict. rewrite args_to_list_names. cbn [members].
    exact (note_all_names names []).
  - intro N. assert (X : dupdate String.eqb [] d = d).
    { unfold dupdate. now rewrite (fold_dset_fresh _ _ String.eqb string_eqb_eq). }
    unfold args_to_dict, args_to_list. cbn [view as_list is_array members note_all note].
    rewrite X. split; reflexivity.
Qed.

Lemma args_to_dict_wants_names_and_mappings_witness :
  exists r, args_to_dict (VTuple [VStr "a"; VStr "b"; VDict [("c", VStr "d")]]) = inl r.
Proof.
  apply (proj1 (args_to_dict_wants_names_and_mappings
                  (VTuple [VStr "a"; VStr "b"; VDict [("c", VStr "d")]]))).
  reflexivity.
Defined.

Lemma args_to_dict_of_names_and_of_a_mapping_witness :
  args_to_dict (VTuple [VStr "a"; VStr "b"; VStr "a"])
  = inl [("a", VStr "a"); ("b", VStr "b")]
  /\ args_to_dict (VList [VDict [("c", VStr "d")]]) = inl [("c", VStr "d")].
Proof.
  split; [reflexivity|].
  apply (args_to_dict_of_names_and_of_a_mapping [] [("c", VStr "d")]).
  repeat constructor. intros [].
Defined.

End NamesFacts.

(** ** [eq] on empty lists, on keys that do not compare, and on a scalar
       against an array *)

Module EqEdgeFacts.
Import Py Containers EqFacts.

Local Unset Implicit Arguments.

(** [eq] of two distinct empty lists, or empty arrays, raises [ValueError]:
    the vectorised comparison refuses arguments of size 0. *)
Theorem eq_of_two_empty_lists_raises (d id1 id2 : nat) (kind : seqkind) :
  id1 <> id2 -> kind <> KTuple ->
  exists msg, eq (S d) (Seq kind id1 []) (Seq kind id2 []) = Raise (ValueError msg).
Proof.
  intros N K. rewrite eq_seq_step. unfold is_. cbn [ident].
  rewrite (proj2 (Nat.eqb_neq id1 id2) N).
  assert (X : kind_eqb kind kind = true) by (destruct kind; reflexivity).
  rewrite X. cbn. eexists. reflexivity.
Qed.

Lemma eq_of_two_empty_lists_raises_witness :
  exists msg, eq 1000 (Seq KList 1 []) (Seq KList 2 []) = Raise (ValueError msg).
Proof. apply eq_of_two_empty_lists_raises; discriminate. Defined.

(** *** Keys of two kinds *)

Lemma all_in_forallb (P : key -> bool) (l : list (keyobj * value)) :
  all_in P l <-> forallb (fun kv => P (kval (fst kv))) l = true.
Proof. unfold all_in. rewrite forallb_forall, Forall_forall. tauto. Qed.

Lemma int_keys_compare (a b : key) :
  is_int_key a = true -> is_int_key b = true -> exists r, key_lt a b = Ok r.
Proof. destruct a, b; try discriminate. intros _ _. eexists. reflexivity. Qed.

Lemma str_keys_compare (a b : key) :
  is_str_key a = true -> is_str_key b = true -> exists r, key_lt a b = Ok r.
Proof. destruct a, b; try discriminate. intros _ _. eexists. reflexivity. Qed.

Lemma sortable_split (l : list (keyobj * value)) :
  sortable l = forallb (fun kv => is_int_key (kval (fst kv))) l
               || forallb (fun kv => is_str_key (kval (fst kv))) l.
Proof.
  unfold sortable. f_equal; apply forallb_ext; intro kv;
    unfold is_int_key, is_str_key; destruct (kval (fst kv)); reflexivity.
Qed.

(** Sorting items whose keys are of both kinds raises [TypeError]. *)
Lemma sorted_of_both_kinds (l : list (keyobj * value)) :
  sortable l = false -> exists msg, sorted l = Raise (TypeError msg).
Proof.
  induction l as [|kv l IH]; [discriminate|]. intro NS. cbn [sorted].
  destruct (sortable l) eqn:S.
  - rewrite sortable_split in S, NS. cbn [forallb] in NS.
    apply orb_false_iff in NS. destruct NS as [NI NT].
    apply orb_true_iff in S. destruct S as [S|S].
    + rewrite S, andb_true_r in NI.
      destruct (sorted_ok is_int_key int_keys_compare l (proj2 (all_in_forallb _ l) S))
        as [s [-> [L A]]]. cbn [bind].
      destruct s as [|kv' s].
      * destruct l; [|discriminate]. cbn [forallb] in NT. rewrite andb_true_r in NT.
        unfold is_int_key, is_str_key in *. destruct (kval (fst kv)); discriminate.
      * inversion A as [|? ? Pk _]; subst. cbn [insert].
        unfold is_int_key in *. destruct (kval (fst kv)); [discriminate|].
        destruct (kval (fst kv')); [|discriminate]. cbn. eexists. reflexivity.
    + rewrite S, andb_true_r in NT.
      destruct (sorted_ok is_str_key str_keys_compare l (proj2 (all_in_forallb _ l) S))
        as [s [-> [L A]]]. cbn [bind].
      destruct s as [|kv' s].
      * destruct l; [|discriminate]. cbn [forallb] in NI. rewrite andb_true_r in NI.
        unfold is_int_key, is_str_key in *. destruct (kval (fst kv)); discriminate.
      * inversion A as [|? ? Pk _]; subst. cbn [insert].
        unfold is_str_key in *. destruct (kval (fst kv)); [|discriminate].
        destruct (kval (fst kv')); [discriminate|]. cbn. eexists. reflexivity.
  - destruct (IH Logic.eq_refl) as [msg ->]. cbn [bind]. now exists msg.
Qed.

(** [eq] of two distinct mappings of the same type and size raises
    [TypeError] when the keys of the first are of both kinds, integers and
    strings: its items do not sort. *)
Theorem eq_of_mappings_with_keys_of_both_kinds
  (d id id' : nat) (cls : string) (items items' : list (keyobj * value)) :
  id <> id' -> List.length items = List.length items' -> sortable items = false ->
  exists msg,
    eq (S d) (Scalar (VDict id cls items)) (Scalar (VDict id' cls items'))
    = Raise (TypeError msg).
Proof.
  intros N L S. rewrite eq_dict_step. unfold is_. cbn [ident value_id].
  rewrite (proj2 (Nat.eqb_neq id id') N), String.eqb_refl, L, Nat.eqb_refl.
  cbn [andb]. cbv zeta. destruct (sorted_of_both_kinds items S) as [msg ->].
  cbn [bind]. now exists msg.
Qed.

Lemma eq_of_mappings_with_keys_of_both_kinds_witness :
  exists msg,
    eq 1000 (Scalar (VDict 1 "dict" [(mkKey 2 (KInt 1), VAtom 3 (AInt 1));
                                       (mkKey 4 (KStr "a"), VAtom 5 (AInt 2))]))
            (Scalar (VDict 6 "dict" [(mkKey 2 (KInt 1), VAtom 3 (AInt 1));
                                       (mkKey 4 (KStr "a"), VAtom 5 (AInt 2))]))
    = Raise (TypeError msg).
Proof.
  apply eq_of_mappings_with_keys_of_both_kinds; [discriminate | reflexivity | reflexivity].
Defined.

(** Between a scalar and an array [eq] depends on the side: a scalar that
    equals every member of an array that is not empty is equal to the array,
    and the array is not equal to the scalar. *)
Theorem eq_of_a_scalar_and_an_array_takes_sides
  (d i j : nat) (a : atom) (l : list value) :
  i <> j -> a <> ANaN -> l <> [] ->
  Forall (fun v => exists k, v = VAtom k a) l ->
  eq (S d) (Scalar (VAtom i a)) (Seq KArray j l) = Ok true
  /\ eq (S d) (Seq KArray j l) (Scalar (VAtom i a)) = Ok false.
Proof.
  intros N A _ F. split.
  - cbn [eq]. unfold is_. cbn [ident value_id].
    rewrite (proj2 (Nat.eqb_neq i j) N).
    assert (R : atom_eq a a = true).
    { destruct a; cbn; [reflexivity | apply Z.eqb_refl | apply String.eqb_refl | congruence]. }
    assert (E : equals a (Seq KArray j l) = true).
    { cbn [equals]. apply forallb_forall. intros v I.
      rewrite Forall_forall in F. destruct (F v I) as [k ->]. exact R. }
    destruct a; try congruence; now rewrite E.
  - cbn [eq]. unfold is_. cbn [ident value_id].
    rewrite (proj2 (Nat.eqb_neq j i) (fun X => N (Logic.eq_sym X))). reflexivity.
Qed.

Lemma eq_of_a_scalar_and_an_array_takes_sides_witness :
  eq 1000 (Scalar (VAtom 1 (AInt 1))) (Seq KArray 2 [VAtom 3 (AInt 1); VAtom 4 (AInt 1)])
  = Ok true
  /\ eq 1000 (Seq KArray 2 [VAtom 3 (AInt 1); VAtom 4 (AInt 1)]) (Scalar (VAtom 1 (AInt 1)))
     = Ok false.
Proof.
  apply eq_of_a_scalar_and_an_array_takes_sides.
  - discriminate.
  - discriminate.
  - discriminate.
  - repeat constructor; eexists; reflexivity.
Defined.

End EqEdgeFacts.

(** ** [Dictattr] *)

Module AttrFacts.
Import Py Args Sets Attr DictFacts SetFacts.

Local Unset Implicit Arguments.

Section Dict.
Variables K V : Type.
Variable eqb : K -> K -> bool.
Hypothesis eqb_eq : forall a b, eqb a b = true <-> a = b.

Lemma dget_filter_key (p : K -> bool) (d : list (K * V)) (k : K) :
dget eqb (filter (fun kv => p (fst kv)) d) k = if p k then dget eqb d k else None.
Proof.
induction d as [|[k0 v0] d IH]; cbn [filter dget fst].
- now destruct (p k).
- destruct (p k0) eqn:P0; cbn [dget].
+ destruct (eqb k0 k) eqn:E; [|exact IH].
apply eqb_eq in E. subst k0. now rewrite P0.
+ rewrite IH. destruct (eqb k0 k) eqn:E; [|reflexivity].
apply eqb_eq in E. subst k0. now rewrite P0.
Qed.

Lemma dget_absent (d : list (K * V)) (k : K) :
~ In k (map fst d) -> dget eqb d k = None.
Proof.
intro N. destruct (dget eqb d k) as [v|] eqn:G; [|reflexivity].
exfalso. apply N. apply (dget_In _ eqb_eq) in G. apply in_map_iff. now exists (k, v).
Qed.

Lemma sub_lookup (d : Dictattr K V) (other : operand K) (k : K) :
dget eqb (__sub__ eqb d other) k
= if mem eqb k (items other) then None else dget eqb d k.
Proof.
unfold __sub__. rewrite (dget_filter_key (fun x => mem eqb x (slist_sub eqb (keys eqb d) other))).
destruct (slist_sub_spec K eqb eqb_eq (keys eqb d) other) as [_ I].
destruct (mem eqb k (slist_sub eqb (keys eqb d) other)) eqn:M.
- apply (mem_true_In K eqb eqb_eq) in M. apply I in M. destruct M as [_ M].
apply (mem_false K eqb eqb_eq) in M. now rewrite M.
- apply (mem_false K eqb eqb_eq) in M.
destruct (mem eqb k (items other)) eqn:O; [reflexivity|].
apply (mem_false K eqb eqb_eq) in O. symmetry. apply dget_absent. intro J.
apply M. apply I. split; [|exact O]. unfold keys, slist.
now apply (OrderedSet_In K eqb eqb_eq).
Qed.

Lemma slist_and_spec (self : list K) (other : operand K) (y : K) :
In y (slist_and eqb self other) <-> In y self /\ In y (items other).
Proof.
unfold slist_and, slist, oset_and, intersection.
rewrite !(OrderedSet_In K eqb eqb_eq), filter_In, (OrderedSet_In K eqb eqb_eq),
(mem_true_In K eqb eqb_eq), (items_cast K eqb eqb_eq). tauto.
Qed.

Lemma and_lookup (d : Dictattr K V) (other : operand K) (k : K) :
dget eqb (__and__ eqb d other) k
= if mem eqb k (items other) then dget eqb d k else None.
Proof.
unfold __and__. rewrite (dget_filter_key (fun x => mem eqb x (slist_and eqb (keys eqb d) other))).
destruct (mem eqb k (slist_and eqb (keys eqb d) other)) eqn:M.
- apply (mem_true_In K eqb eqb_eq) in M. apply slist_and_spec in M. destruct M as [_ M].
apply (mem_true_In K eqb eqb_eq) in M. now rewrite M.
- apply (mem_false K eqb eqb_eq) in M.
destruct (mem eqb k (items other)) eqn:O; [|reflexivity].
apply (mem_true_In K eqb eqb_eq) in O. symmetry. apply dget_absent. intro J.
apply M. apply slist_and_spec. split; [|exact O]. unfold keys, slist.
now apply (OrderedSet_In K eqb eqb_eq).
Qed.

Lemma update_lookup (b : list (K * V)) : forall (a : list (K * V)) (k : K),
NoDup (map fst b) ->
dget eqb (dupdate eqb a b) k
= match dget eqb b k with Some v => Some v | None => dget eqb a k end.
Proof.
induction b as [|[k0 v0] b IH]; intros a k N; [reflexivity|].
inversion N as [|? ? N1 N2]; subst.
change (dupdate eqb a ((k0, v0) :: b)) with (dupdate eqb (dset eqb a k0 v0) b).
rewrite (IH _ k N2). cbn [dget]. destruct (eqb k0 k) eqn:E.
- apply eqb_eq in E. subst k0. rewrite (dget_absent b k N1).
now rewrite (dget_dset_same _ eqb_eq).
- destruct (dget eqb b k); [reflexivity|].
apply (dget_dset_other _ eqb_eq). intros ->. rewrite (eqb_refl _ eqb_eq) in E. discriminate.
Qed.

Lemma NoDup_filter_fst (p : K * V -> bool) (d : list (K * V)) :
NoDup (map fst d) -> NoDup (map fst (filter p d)).
Proof.
induction d as [|x d IH]; [auto|]. intro N. inversion N as [|? ? N1 N2]; subst.
cbn [filter]. destruct (p x); [|now apply IH]. cbn [map]. constructor; [|now apply IH].
intro I. apply N1. apply in_map_iff in I. destruct I as [y [E I]].
apply filter_In in I. apply in_map_iff. exists y. tauto.
Qed.

(** For an operand that is an [ordered_set], [None], one key or an array of
keys: [d - other] holds the items of [d] whose key is not of [other],
and [d & other] those whose key is; together they give every key the
value it has in [d]. *)
Theorem dictattr_sub_and_and_share_the_items
(d : Dictattr K V) (other : operand K) (k : K) :
dget eqb (__sub__ eqb d other) k = (if mem eqb k (items other) then None else dget eqb d k)
/\ dget eqb (__and__ eqb d other) k = (if mem eqb k (items other) then dget eqb d k else None)
/\ (NoDup (map fst d) ->
dget eqb (__add__ eqb (__and__ eqb d other) (__sub__ eqb d other)) k = dget eqb d k).
Proof.
split; [apply sub_lookup|]. split; [apply and_lookup|]. intro N.
unfold __add__. rewrite update_lookup; [|apply NoDup_filter_fst; exact N].
rewrite sub_lookup, and_lookup. destruct (mem eqb k (items other)); [reflexivity|].
now destruct (dget eqb d k).
Qed.

(** *** Reading several keys *)

Lemma lookup_sub_present (d : Dictattr K V) (ks : list K) : forall acc,
(forall k, In k ks -> dget eqb d k <> None) ->
exists r, lookup_sub eqb d ks acc = Found r
/\ forall k, dget eqb r k = if mem eqb k ks then dget eqb d k else dget eqb acc k.
Proof.
induction ks as [|k0 ks IH]; intros acc P.
- exists acc. split; reflexivity.
- cbn [lookup_sub]. unfold lookup.
destruct (dget eqb d k0) as [v0|] eqn:G; [|exfalso; apply (P k0); [now left | exact G]].
destruct (IH (dset eqb acc k0 v0)) as [r [-> R]]; [intros k I; apply P; now right|].
exists r. split; [reflexivity|]. intro k. rewrite R. unfold mem. cbn [existsb].
destruct (existsb (eqb k) ks); [now rewrite orb_true_r|]. rewrite orb_false_r.
destruct (eqb k k0) eqn:E.
+ apply eqb_eq in E. subst k0. now rewrite (dget_dset_same _ eqb_eq).
+ apply (dget_dset_other _ eqb_eq). intros ->. rewrite (eqb_refl _ eqb_eq) in E. discriminate.
Qed.

Lemma lookup_all_present (d : Dictattr K V) (ks : list K) :
(forall k, In k ks -> dget eqb d k <> None) ->
exists vs, lookup_all eqb d ks = Found vs /\ map Some vs = map (dget eqb d) ks.
Proof.
induction ks as [|k0 ks IH]; intro P.
- exists []. split; reflexivity.
- cbn [lookup_all]. unfold lookup.
destruct (dget eqb d k0) as [v0|] eqn:G; [|exfalso; apply (P k0); [now left | exact G]].
destruct IH as [vs [-> M]]; [intros k I; apply P; now right|].
exists (v0 :: vs). split; [reflexivity|]. cbn [map]. now rewrite M, G.
Qed.

Lemma lookup_missing (d : Dictattr K V) (before : list K) (k : K) (after : list K) :
(forall k', In k' before -> dget eqb d k' <> None) -> dget eqb d k = None ->
lookup_all eqb d (before ++ k :: after) = KeyError k
/\ forall acc, lookup_sub eqb d (before ++ k :: after) acc = KeyError k.
Proof.
induction before as [|k0 before IH]; intros P G.
- change (([] ++ k :: after)%list) with (k :: after).
cbn [lookup_all lookup_sub]. unfold lookup. rewrite G. now split.
- destruct IH as [A S]; [intros k' I; apply P; now right | exact G|].
change (((k0 :: before) ++ k :: after)%list) with (k0 :: (before ++ k :: after))%list.
cbn [lookup_all lookup_sub]. unfold lookup.
destruct (dget eqb d k0) as [v0|] eqn:G0; [|exfalso; apply (P k0); [now left | exact G0]].
rewrite A. split; [reflexivity|]. intro acc. apply S.
Qed.

(** [d[keys]] with a tuple gives the values of the keys, and with a list the
[Dictattr] of the keys with the values they have in [d], when [d] holds
every key; at the first key that [d] does not hold it raises [KeyError],
where [d & keys] leaves the key out. *)
Theorem dictattr_reads_keys_or_raises (d : Dictattr K V) (ks : list K) :
((forall k, In k ks -> dget eqb d k <> None) ->
exists vs r,
__getitem__ eqb d (Tuple ks) = Found (Values vs)
/\ map Some vs = map (dget eqb d) ks
/\ __getitem__ eqb d (List ks) = Found (Sub r)
/\ forall k, dget eqb r k = dget eqb (__and__ eqb d (Other (Several ks))) k)
/\ (forall before k after, ks = (before ++ k :: after)%list ->
(forall k', In k' before -> dget eqb d k' <> None) -> dget eqb d k = None ->
__getitem__ eqb d (Tuple ks) = KeyError k
/\ __getitem__ eqb d (List ks) = KeyError k
/\ dget eqb (__and__ eqb d (Other (Several ks))) k = None).
Proof.
split.
- intro P. destruct (lookup_all_present d ks P) as [vs [A M]].
destruct (lookup_sub_present d ks [] P) as [r [S R]].
exists vs, r. cbn [__getitem__]. rewrite A, S. repeat split; [exact M|].
intro k. rewrite R, and_lookup. cbn [items as_list dget].
destruct (mem eqb k ks); reflexivity.
- intros before k after -> P G. destruct (lookup_missing d before k after P G) as [A S].
cbn [__getitem__]. rewrite A, S. repeat split.
rewrite and_lookup, G. now destruct (mem eqb k _).
Qed.

End Dict.

Lemma dictattr_sub_and_and_share_the_items_witness :
  dget String.eqb
    (__add__ String.eqb
       (__and__ String.eqb [("a", 1); ("b", 2); ("c", 3)] (Other (Several ["b"; "z"])))
       (__sub__ String.eqb [("a", 1); ("b", 2); ("c", 3)] (Other (Several ["b"; "z"])))) "b"
  = Some 2
  /\ __sub__ String.eqb [("a", 1); ("b", 2); ("c", 3)] (Other (Several ["b"; "z"]))
     = [("a", 1); ("c", 3)].
Proof.
  split; [|reflexivity].
  refine (proj2 (proj2 (dictattr_sub_and_and_share_the_items string Z String.eqb string_eqb_eq
            [("a", 1); ("b", 2); ("c", 3)] (Other (Several ["b"; "z"])) "b")) _).
  repeat constructor; simpl; intuition discriminate.
Defined.

Lemma dictattr_reads_keys_or_raises_witness :
  __getitem__ String.eqb [("a", 1); ("b", 2)] (List ["b"; "z"; "a"]) = KeyError "z".
Proof.
  refine (proj1 (proj2 (proj2 (dictattr_reads_keys_or_raises string Z String.eqb string_eqb_eq
            [("a", 1); ("b", 2)] ["b"; "z"; "a"]) ["b"] "z" ["a"] _ _ _))).
  - reflexivity.
  - intros k' [<-|[]]. discriminate.
  - reflexivity.
Defined.

End AttrFacts.

(** ** The nodes that [add_parents] makes *)

Module ParentNodes.
Import Py NX PyStr Deps Calls Shape Script DictFacts FailureFacts ParentsTwice.

Local Unset Implicit Arguments.

Section WithHash.
Variable Hash : key -> key.

(** [add_parents] stores no cell: whatever its arguments, and whether it
returns or raises, the nodes of [self] are afterwards the nodes it had,
in their order, followed by the nodes that the new edges made, and each
of these is keyed by a digest and holds nothing. *)
Theorem add_parents_makes_empty_nodes (g : DiGraph) (cell parent : pyval) :
exists new, grown Hash g (snd (XCL.add_parents Hash cell parent g)) new.
Proof.
assert (X : extends g (snd (XCL.add_parents Hash cell parent g))
      /\ exists new, grown Hash g (snd (XCL.add_parents Hash cell parent g)) new).
{ apply (@preserves_add_parents Hash
     (fun g' => extends g g' /\ exists new, grown Hash g g' new)).
- intros g' u v [E [new G]]. split.
+ apply (extends_trans E). apply (link_extends Hash g' (u, v)).
+ destruct (grown_link Hash g' (u, v)) as [n1 G1].
exists (new ++ n1)%list. eapply grown_trans; [exact G | exact G1|].
apply (link_extends Hash g' (u, v)).
- split; [apply extends_refl|]. exists []. split; [now rewrite app_nil_r | intros k []]. }
exact (proj2 X).
Qed.

End WithHash.

End ParentNodes.

(** ** [eq] on lists of integers *)

Module EqListFacts.
Import Py Containers Scalars EqFacts.

Local Unset Implicit Arguments.

Lemma atom_eq_refl (a : atom) : a <> ANaN -> atom_eq a a = true.
Proof.
  destruct a; cbn; [reflexivity | intros _; apply Z.eqb_refl
                   | intros _; apply String.eqb_refl | congruence].
Qed.

(** [eq] on two scalars that are not [nan]. *)
Lemma eq_scalars (d : nat) (p q : nat * atom) :
  snd p <> ANaN -> one_object p q ->
  eq (S d) (Scalar (scalar p)) (Scalar (scalar q)) = Ok (atom_eq (snd p) (snd q)).
Proof.
  destruct p as [i a], q as [j b]. unfold one_object, scalar. cbn [fst snd].
  intros A O. cbn [eq]. unfold is_. cbn [ident value_id].
  destruct (Nat.eqb i j) eqn:E.
  - apply Nat.eqb_eq in E. rewrite <- (O E). now rewrite atom_eq_refl.
  - destruct a; try congruence; reflexivity.
Qed.

Lemma map2_scalars (d : nat) (xs : list (nat * atom)) : forall ys,
  Forall (fun p => snd p <> ANaN) xs -> Forall2 one_object xs ys ->
  exists bs,
    map2 (fun a b => eq (S d) (Scalar a) (Scalar b)) (map scalar xs) (map scalar ys) = Ok bs
    /\ forallb (fun b => b) bs = same_members xs ys.
Proof.
  induction xs as [|x xs IH]; intros ys A O.
  - inversion O; subst. exists []. split; reflexivity.
  - inversion O as [|? y ? ys' Oxy O']; subst. inversion A as [|? ? Ax A']; subst.
    cbn [map map2]. rewrite (eq_scalars d x y Ax Oxy). cbn [bind].
    destruct (IH ys' A' O') as [bs [-> B]]. cbn [bind].
    exists (atom_eq (snd x) (snd y) :: bs). split; [reflexivity|].
    cbn [forallb same_members]. now rewrite B.
Qed.

Lemma not_nan (l : list (nat * atom)) :
  small_ints l = true -> Forall (fun p => snd p <> ANaN) l.
Proof.
  intros H. apply Forall_forall. intros p I A. unfold small_ints in H.
  rewrite forallb_forall in H. specialize (H p I). rewrite A in H. discriminate.
Qed.

Lemma same_members_eq (xs : list (nat * atom)) : forall ys,
  List.length xs = List.length ys -> Forall (fun p => snd p <> ANaN) xs ->
  (same_members xs ys = true <-> map snd xs = map snd ys).
Proof.
  induction xs as [|x xs IH]; intros [|y ys] L A; try discriminate.
  - split; reflexivity.
  - inversion A as [|? ? Ax A']; subst. cbn [same_members map].
    rewrite andb_true_iff, (IH ys) by (auto; now injection L). split.
    + intros [E R]. f_equal; [|exact R].
      destruct (snd x), (snd y); cbn in E; try discriminate; try reflexivity.
      * apply Z.eqb_eq in E. now subst.
      * apply String.eqb_eq in E. now subst.
    + intros [= E R]. split; [|exact R]. rewrite <- E. now apply atom_eq_refl.
Qed.

(** On two distinct lists (or tuples, or arrays) of the same length, not
    empty, that hold integers of 64 bits, [eq] returns, and returns [True]
    exactly when the lists hold the same integers in the same order. *)
Theorem eq_of_lists_compares_the_members
  (d i j : nat) (kind : seqkind) (xs ys : list (nat * atom)) :
  i <> j -> xs <> [] -> List.length xs = List.length ys ->
  small_ints xs = true -> small_ints ys = true ->
  Forall2 one_object xs ys ->
  exists b,
    eq (S (S d)) (Seq kind i (map scalar xs)) (Seq kind j (map scalar ys)) = Ok b
    /\ (b = true <-> map snd xs = map snd ys).
Proof.
  intros N NE L H _ O.
  assert (A : Forall (fun p => snd p <> ANaN) xs) by (now apply not_nan).
  rewrite eq_seq_step. unfold is_. cbn [ident].
  rewrite (proj2 (Nat.eqb_neq i j) N).
  assert (K : kind_eqb kind kind = true) by (destruct kind; reflexivity).
  rewrite K, !length_map, L, Nat.eqb_refl. unfold _eq_attrs. cbn [andb].
  destruct (map2_scalars d xs ys A O) as [bs [M B]].
  destruct xs as [|x xs]; [congruence|]. destruct ys as [|y ys]; [discriminate|].
  inversion O as [|? ? ? ? Oxy _]; subst. inversion A as [|? ? Ax _]; subst.
  unfold vectorize. cbn [map]. rewrite (eq_scalars d x y Ax Oxy). cbn [bind].
  cbn [map] in M. rewrite M. cbn [bind].
  eexists. split; [reflexivity|]. rewrite B.
  apply same_members_eq; [exact L | exact A].
Qed.

Lemma eq_of_lists_compares_the_members_witness :
  eq 1000 (Seq KList 1 [VAtom 2 (AInt 1); VAtom 3 (AInt 2)])
          (Seq KList 4 [VAtom 5 (AInt 1); VAtom 6 (AInt 2)]) = Ok true.
Proof.
  destruct (eq_of_lists_compares_the_members 998 1 4 KList
              [(2, AInt 1); (3, AInt 2)]%nat [(5, AInt 1); (6, AInt 2)]%nat)
    as [b [E [_ B]]].
  - discriminate.
  - discriminate.
  - reflexivity.
  - reflexivity.
  - reflexivity.
  - repeat constructor; intro X; discriminate.
  - rewrite B in E by reflexivity. exact E.
Defined.

End EqListFacts.
